(** * pdf2data: geometric table reconstruction ([pdf2data/pdf.py])

    A shallow embedding of the table-reconstruction core of pdf2data:
    [overlap], [get_attr_lookup], [find_attr_group_matching],
    [merge_overlapping_rows] and [find_table] with its two specialisations
    [find_row_table] and [find_col_table], followed by their properties.
    After these come [find_lines_with], [gather_text] with what it needs of
    [TextLine], and the body of the loop of [example/demo.py].

    Modelling choices.
    - Coordinates are binary64 numbers, the [float]s pdfminer delivers; an
      [int] stands for the float of the same value.  A finite binary64
      number is a rational, so a coordinate is a [Q], compared by value
      ([Qeq]), the way Python compares [1] and [1.0].  Comparisons, [min],
      [max] and [abs] are exact; [+], [-] and [*] round their exact result
      to the nearest binary64 number, ties to even ([float_add],
      [float_sub], [float_mul]).  Infinities and NaN are outside the model:
      a result beyond the largest binary64 number is rounded to 53 bits
      like any other.
    - Python objects live in a store ([heap]) and are named by references
      ([loc]).  [TextLine] instances, lists and row dictionaries are objects:
      [row.update(next_row)], [row[key] = l] and [rows.append(row)] write to
      the store, and two references are the same object iff they are equal.
      Values that never leave a call (the sorted copy of the headers, the
      dictionary of [get_attr_lookup]) are plain values.
    - A Python [dict] keeps insertion order; it is an association list, and
      the dictionary operations keep its keys pairwise different.
    - A call yields an [outcome] (a value or a raised exception) together
      with the store it leaves behind; a raised exception does not undo the
      writes made before it.
    - An attribute name is one of the four coordinates of a [TextLine]; a
      regular expression is what [regex.search] makes of it, a test on
      strings.  [find_attr_group_matching] only reads its lines and takes
      them by value.
    - The layout objects of pdfminer are told apart by the [isinstance]
      tests of [gather_text], in their order; which strings [str.strip]
      empties is a parameter ([blank]); the list [lines] and the warnings
      issued are the state of a call, kept when it raises. *)

From Stdlib Require Import QArith Qminmax Qabs Qround Qpower Qreduction.
From Stdlib Require Import Lqa List Lia Bool Sorted.
From stdpp Require Import base strings list.

Local Open Scope Q_scope.

(** ** Exceptions and outcomes *)

Inductive exn : Type :=
| GroupNotFound                    (* class GroupNotFound(Exception) *)
| RuntimeError (msg : string)
| ValueError (msg : string)
| TypeError (msg : string)
| AssertionError
| IndexError
| KeyError
| IllTyped     (* a reference does not hold an object of the expected class *)
| OutOfFuel.   (* artefact of the loop model; shown never to be produced *)

Inductive outcome (A : Type) : Type :=
| Ok (a : A)
| Raise (e : exn).
Arguments Ok {A} a.
Arguments Raise {A} e.

Definition obind {A B} (x : outcome A) (f : A -> outcome B) : outcome B :=
  match x with
  | Ok a => f a
  | Raise e => Raise e
  end.

Declare Scope outcome_scope.
Delimit Scope outcome_scope with out.
Notation "'let*' x ':=' c 'in' k" := (obind c (fun x => k))
  (at level 10, x pattern, c at level 100, k at level 200) : outcome_scope.

Fixpoint omap {A B} (f : A -> outcome B) (xs : list A) : outcome (list B) :=
  match xs with
  | [] => Ok []
  | x :: xs' => (let* y := f x in let* ys := omap f xs' in Ok (y :: ys))%out
  end.

(** ** Numbers *)

Definition Qltb (a b : Q) : bool :=
  match a ?= b with Lt => true | _ => false end.

Definition Qgtb (a b : Q) : bool := Qltb b a.

(** Truth value of a number: [if ovl:] holds iff [ovl != 0]. *)
Definition truthy (q : Q) : bool := negb (Qeq_bool q 0).

(** ** binary64 arithmetic *)

(** The integer nearest to [x], the even one of two that are equally near. *)
Definition round_half_even (x : Q) : Z :=
  let f := Qfloor x in
  match Qcompare (x - inject_Z f) (1 # 2) with
  | Lt => f
  | Gt => (f + 1)%Z
  | Eq => if Z.even f then f else (f + 1)%Z
  end.

(** The binary exponent of [x]: [2 ^ ilog2 x <= |x| < 2 ^ (ilog2 x + 1)]
    for [x] other than 0. *)
Definition ilog2 (x : Q) : Z :=
  let k := (Z.log2 (Z.abs (Qnum x)) - Z.log2 (Zpos (Qden x)))%Z in
  if Qle_bool (2 ^ k) (Qabs x) then k else (k - 1)%Z.

(** The multiple of [2 ^ e] nearest to [x], ties to the even multiple. *)
Definition round_to (e : Z) (x : Q) : Q :=
  Qred (inject_Z (round_half_even (x * 2 ^ (- e))) * 2 ^ e).

(** Rounding to 53 significant bits. *)
Definition round53 (x : Q) : Q :=
  if Qeq_bool x 0 then 0 else round_to (ilog2 x - 52) x.

(** Rounding to binary64: 53 significant bits, and no bit below
    [2 ^ -1074] (gradual underflow). *)
Definition fl (x : Q) : Q :=
  if Qeq_bool x 0 then 0 else round_to (Z.max (ilog2 x - 52) (-1074)) x.

(** [x] is a binary64 number. *)
Definition binary64 (x : Q) : Prop := fl x == x.

(** [a + b], [a - b] and [a * b] on floats.  A sum or difference of two
    binary64 numbers is a multiple of [2 ^ -1074], where [fl] and [round53]
    agree ([float_add_binary64], [float_sub_binary64]); a product can fall
    below that grid. *)
Definition float_add (a b : Q) : Q := round53 (a + b).
Definition float_sub (a b : Q) : Q := round53 (a - b).
Definition float_mul (a b : Q) : Q := fl (a * b).

(** ** TextLine *)

Record TextLine : Type := mkTextLine {
  text : string;
  fontname : string;
  x0 : Q;   (* minimum X coordinate of bounding box *)
  y0 : Q;   (* minimum Y coordinate of bounding box *)
  x1 : Q;   (* maximum X coordinate of bounding box *)
  y1 : Q    (* maximum Y coordinate of bounding box *)
}.

(** The attribute names passed as [row_min_attr_name] and the like. *)
Inductive attr : Type := X0 | Y0 | X1 | Y1.

Definition getattr (l : TextLine) (a : attr) : Q :=
  match a with
  | X0 => x0 l
  | Y0 => y0 l
  | X1 => x1 l
  | Y1 => y1 l
  end.

(** ** The object store *)

Abbreviation loc := nat (only parsing).

(** A dictionary with string keys, in insertion order. *)
Abbreviation dict V := (list (string * V)) (only parsing).

(** A row dictionary maps a header text to a reference to a [TextLine]. *)
Inductive obj : Type :=
| OTextLine (l : TextLine)
| OList (items : list loc)
| ODict (d : dict loc).

Abbreviation heap := (list obj) (only parsing).

(** Computations over the store. *)
Definition M (A : Type) : Type := heap -> outcome A * heap.

Definition ret {A} (a : A) : M A := fun h => (Ok a, h).

Definition raise {A} (e : exn) : M A := fun h => (Raise e, h).

Definition bind {A B} (m : M A) (f : A -> M B) : M B :=
  fun h =>
    match m h with
    | (Ok a, h') => f a h'
    | (Raise e, h') => (Raise e, h')
    end.

Definition lift {A} (x : outcome A) : M A := fun h => (x, h).

Declare Scope M_scope.
Delimit Scope M_scope with M.
Notation "'let*' x ':=' c 'in' k" := (bind c (fun x => k))
  (at level 10, x pattern, c at level 100, k at level 200) : M_scope.

(** Creating an object: the new reference is the next free index. *)
Definition alloc (o : obj) : M loc :=
  fun h => (Ok (length h), h ++ [o]).

Definition read_line (r : loc) : M TextLine :=
  fun h =>
    match h !! r with
    | Some (OTextLine l) => (Ok l, h)
    | _ => (Raise IllTyped, h)
    end.

Definition read_list (r : loc) : M (list loc) :=
  fun h =>
    match h !! r with
    | Some (OList xs) => (Ok xs, h)
    | _ => (Raise IllTyped, h)
    end.

Definition read_dict (r : loc) : M (dict loc) :=
  fun h =>
    match h !! r with
    | Some (ODict d) => (Ok d, h)
    | _ => (Raise IllTyped, h)
    end.

Definition write (r : loc) (o : obj) : M unit :=
  fun h => (Ok tt, <[r := o]> h).

Fixpoint map_M {A B} (f : A -> M B) (xs : list A) : M (list B) :=
  match xs with
  | [] => ret []
  | x :: xs' => (let* y := f x in let* ys := map_M f xs' in ret (y :: ys))%M
  end.

(** [for x in xs: body(x)] *)
Fixpoint for_each {A} (xs : list A) (body : A -> M unit) : M unit :=
  match xs with
  | [] => ret tt
  | x :: xs' => (let* _ := body x in for_each xs' body)%M
  end.

(** ** Builtins: [min], [max], [sorted], dictionaries *)

(** [min(items)]: the first item is the candidate; a later item replaces it
    when [item < candidate].  The comparison may raise. *)
Fixpoint min_loop {A} (lt : A -> A -> outcome bool) (cur : A) (rest : list A)
  : outcome A :=
  match rest with
  | [] => Ok cur
  | item :: rest' =>
      (let* b := lt item cur in
       min_loop lt (if b then item else cur) rest')%out
  end.

Definition py_min {A} (lt : A -> A -> outcome bool) (items : list A)
  : outcome A :=
  match items with
  | [] => Raise (ValueError "min() arg is an empty sequence")
  | x :: rest => min_loop lt x rest
  end.

(** [max(items)] is the same loop with [item > candidate]. *)
Definition py_max {A} (gt : A -> A -> outcome bool) (items : list A)
  : outcome A :=
  match items with
  | [] => Raise (ValueError "max() arg is an empty sequence")
  | x :: rest => min_loop gt x rest
  end.

Definition num_lt (a b : Q) : outcome bool := Ok (Qltb a b).
Definition num_gt (a b : Q) : outcome bool := Ok (Qgtb a b).

(** A header as [find_table] holds it: the reference and the attributes read
    through it. *)
Abbreviation href := (nat * TextLine)%type (only parsing).

Definition unorderable (op : string) : exn :=
  TypeError ("'" +:+ op
             +:+ "' not supported between instances of 'TextLine' and 'TextLine'").

(** [a < b] on tuples [(number, TextLine)]: the first position where the two
    differ decides.  Numbers are equal by value, [TextLine] objects only when
    they are one object; [TextLine] defines no ordering, so comparing two
    different ones raises. *)
Definition tuple_lt (a b : Q * href) : outcome bool :=
  if Qeq_bool (fst a) (fst b) then
    if Nat.eqb (fst (snd a)) (fst (snd b)) then Ok false
    else Raise (unorderable "<")
  else Ok (Qltb (fst a) (fst b)).

Definition tuple_gt (a b : Q * href) : outcome bool :=
  if Qeq_bool (fst a) (fst b) then
    if Nat.eqb (fst (snd a)) (fst (snd b)) then Ok false
    else Raise (unorderable ">")
  else Ok (Qgtb (fst a) (fst b)).

(** [sorted(xs, key=key, reverse=reverse)]: stable in both directions. *)
Fixpoint sorted_insert {A} (key : A -> Q) (reverse : bool) (x : A)
  (ys : list A) : list A :=
  match ys with
  | [] => [x]
  | y :: ys' =>
      if (if reverse then Qle_bool (key y) (key x)
          else Qle_bool (key x) (key y))
      then x :: y :: ys'
      else y :: sorted_insert key reverse x ys'
  end.

Definition sorted {A} (key : A -> Q) (reverse : bool) (xs : list A) : list A :=
  fold_right (sorted_insert key reverse) [] xs.

(** Dictionaries with string keys. *)
Definition dict_keys {V} (d : dict V) : list string := map fst d.
Definition dict_values {V} (d : dict V) : list V := map snd d.

Fixpoint dict_get {V} (key : string) (d : dict V) : option V :=
  match d with
  | [] => None
  | (k, w) :: d' => if String.eqb k key then Some w else dict_get key d'
  end.

Definition dict_contains {V} (key : string) (d : dict V) : bool :=
  existsb (fun kv => String.eqb (fst kv) key) d.

(** [d[key] = v]: an existing key keeps its place, a new one goes last. *)
Fixpoint dict_setitem {V} (key : string) (v : V) (d : dict V) : dict V :=
  match d with
  | [] => [(key, v)]
  | (k, w) :: d' =>
      if String.eqb k key then (k, v) :: d'
      else (k, w) :: dict_setitem key v d'
  end.

(** [d.update(other)] *)
Definition dict_update {V} (d other : dict V) : dict V :=
  fold_left (fun acc kv => dict_setitem (fst kv) (snd kv) acc) other d.

(** Dictionaries keyed by a coordinate, as [get_attr_lookup] builds them. *)
Fixpoint setdefault_append {A} (k : Q) (l : A) (d : list (Q * list A))
  : list (Q * list A) :=
  match d with
  | [] => [(k, [l])]
  | (k', ls) :: d' =>
      if Qeq_bool k' k then (k', ls ++ [l]) :: d'
      else (k', ls) :: setdefault_append k l d'
  end.

Fixpoint lookup_getitem {A} (k : Q) (d : list (Q * list A))
  : outcome (list A) :=
  match d with
  | [] => Raise KeyError
  | (k', ls) :: d' => if Qeq_bool k' k then Ok ls else lookup_getitem k d'
  end.

Definition list_getitem {A} (xs : list A) (i : nat) : outcome A :=
  match nth_error xs i with
  | Some x => Ok x
  | None => Raise IndexError
  end.

(** Operations on objects in the store. *)
Definition py_append (r x : loc) : M unit :=
  (let* xs := read_list r in write r (OList (xs ++ [x])))%M.

Definition py_contains (r : loc) (key : string) : M bool :=
  (let* d := read_dict r in ret (dict_contains key d))%M.

Definition py_setitem (r : loc) (key : string) (v : loc) : M unit :=
  (let* d := read_dict r in write r (ODict (dict_setitem key v d)))%M.

Definition py_update (r other : loc) : M unit :=
  (let* o := read_dict other in
   let* d := read_dict r in
   write r (ODict (dict_update d o)))%M.

(** The [TextLine]s of a list object, each with its reference. *)
Definition read_lines (r : loc) : M (list href) :=
  (let* xs := read_list r in
   map_M (fun x => let* l := read_line x in ret (x, l)) xs)%M.

(** ** [overlap] *)

Definition overlap (a_min a_max b_min b_max : Q) : outcome Q :=
  if Qle_bool b_min b_max then
    let begin_overlap := Qmax a_min b_min in
    let end_overlap := Qmin a_max b_max in
    Ok (Qmax 0 (float_sub end_overlap begin_overlap))
  else Raise AssertionError.

(** ** [get_attr_lookup] *)

Definition get_attr_lookup {A} (attr_of : A -> Q) (lines : list A)
  : list (Q * list A) :=
  fold_left (fun result l => setdefault_append (attr_of l) l result) lines [].

(** ** [find_attr_group_matching] *)

(** A compiled regular expression, as far as it is used:
    [regex.search(text) is not None]. *)
Definition pattern : Type := string -> bool.

Definition group_matches (regexes : list pattern) (row_lines : list TextLine)
  : bool :=
  forallb (fun regex => existsb (fun l => regex (text l)) row_lines) regexes.

Definition find_attr_group_matching (regexes : list pattern)
  (attr_name : attr) (lines : list TextLine) : outcome Q :=
  let attr_lookup := get_attr_lookup (fun l => getattr l attr_name) lines in
  let result :=
    map fst (List.filter (fun g => group_matches regexes (snd g)) attr_lookup) in
  if (length result <? 1)%nat then Raise GroupNotFound
  else if (1 <? length result)%nat then
    Raise (RuntimeError "more than one group found matching")
  else
    match result with
    | [attr_value] => Ok attr_value
    | _ => Raise (ValueError "wrong number of values to unpack")
    end.

(** ** [merge_overlapping_rows] *)

Definition get_row_extent (row_min_attr_name row_max_attr_name : attr)
  (row : loc) : M (Q * Q) :=
  (let* d := read_dict row in
   let* ls := map_M read_line (dict_values d) in
   let* lo := lift (py_min num_lt (map (fun l => getattr l row_min_attr_name) ls)) in
   let* hi := lift (py_max num_gt (map (fun l => getattr l row_max_attr_name) ls)) in
   ret (lo, hi))%M.

(** One turn of the [while] loop, after [next_row = rows[i_row]]: the next
    row is merged into [row], or [row] is added to [new_rows] and the next
    row takes its place.  The result is [row] as the next turn sees it. *)
Definition merge_step (row_min_attr_name row_max_attr_name : attr)
  (new_rows row next_row : loc) : M loc :=
  (let* (row_min, row_max) :=
     get_row_extent row_min_attr_name row_max_attr_name row in
   let* (next_row_min, next_row_max) :=
     get_row_extent row_min_attr_name row_max_attr_name next_row in
   let* ovl := lift (overlap row_min row_max next_row_min next_row_max) in
   if truthy ovl then
     let* _ := py_update row next_row in
     ret row
   else
     let* _ := py_append new_rows row in
     ret next_row)%M.

(** The [while i_row < len(rows)] loop; [i_row] advances in both branches.
    It yields the row that is still to be added to [new_rows]. *)
Fixpoint merge_loop (fuel : nat) (row_min_attr_name row_max_attr_name : attr)
  (rows : list loc) (new_rows row : loc) (i_row : nat) : M loc :=
  if (i_row <? length rows)%nat then
    match fuel with
    | O => raise OutOfFuel
    | S fuel' =>
        (let* next_row := lift (list_getitem rows i_row) in
         let* row :=
           merge_step row_min_attr_name row_max_attr_name
             new_rows row next_row in
         merge_loop fuel' row_min_attr_name row_max_attr_name
           rows new_rows row (i_row + 1))%M
    end
  else ret row.

Definition merge_overlapping_rows (rows : loc)
  (row_min_attr_name row_max_attr_name : attr) : M loc :=
  (let* rs := read_list rows in
   match rs with
   | [] => ret rows
   | row :: _ =>
       let* new_rows := alloc (OList []) in
       let* row :=
         merge_loop (length rs) row_min_attr_name row_max_attr_name
           rs new_rows row 1 in
       let* _ := py_append new_rows row in
       ret new_rows
   end)%M.

(** ** [find_table] *)

(** The header chosen for the line [l]: lines 348-401 of the source, up to
    [key = h.text]. *)
Definition select_header (headers : list href) (l : TextLine)
  (col_min_attr_name col_max_attr_name : attr) (heading_bias : string)
  : outcome href :=
  let lmin := getattr l col_min_attr_name in
  let lmax := getattr l col_max_attr_name in
  if negb (Qle_bool lmin lmax) then Raise AssertionError
  else
    let lctr := float_mul (float_add lmin lmax) 0.5 in
    (let* overlaps_and_headers :=
       omap (fun h : href =>
               let* ovl := overlap (getattr (snd h) col_min_attr_name)
                                   (getattr (snd h) col_max_attr_name)
                                   lmin lmax in
               Ok (ovl, h)) headers in
     let possible_headers :=
       List.filter (fun oh : Q * href => truthy (fst oh)) overlaps_and_headers in
     match possible_headers with
     | [] =>
         (* no overlap at all, typically a very short entry *)
         if String.eqb heading_bias "centered" then
           (* fall back to minimum center distance *)
           let* m :=
             py_min tuple_lt
               (map (fun h : href =>
                       (Qabs
                          (float_sub
                             (float_mul 0.5
                                (float_add (getattr (snd h) col_min_attr_name)
                                   (getattr (snd h) col_max_attr_name)))
                             lctr), h)) headers) in
           Ok (snd m)
         else if String.eqb heading_bias "min" then
           (* Use next-nearest left overlapping header *)
           let* m :=
             py_max tuple_gt
               (map (fun h : href => (getattr (snd h) col_min_attr_name, h))
                  (List.filter
                     (fun h : href =>
                        Qle_bool (getattr (snd h) col_min_attr_name) lmin)
                     headers)) in
           Ok (snd m)
         else Raise (ValueError "unrecognized heading bias")
     | [(_, h)] => Ok h
     | _ =>
         (* Use left/topmost overlapping header *)
         let* m :=
           py_min tuple_lt
             (map (fun oh : Q * href =>
                     (getattr (snd (snd oh)) col_min_attr_name, snd oh))
                possible_headers) in
         Ok (snd m)
     end)%out.

Definition duplicate_message (key : string) : string :=
  "duplicate assignment of key '" +:+ key +:+ "'".

(** The body of [for l in row_lines]. *)
Definition assign_line (headers : list href)
  (col_min_attr_name col_max_attr_name : attr) (heading_bias : string)
  (row : loc) (l : href) : M unit :=
  (let* h := lift (select_header headers (snd l)
                     col_min_attr_name col_max_attr_name heading_bias) in
   let key := text (snd h) in
   let* present := py_contains row key in
   if present then raise (ValueError (duplicate_message key))
   else py_setitem row key (fst l))%M.

(** The body of [for row_lookup_key in sorted(row_lookup, ...)]. *)
Definition build_row (headers : list href) (row_lookup : list (Q * list href))
  (col_min_attr_name col_max_attr_name : attr) (heading_bias : string)
  (rows : loc) (row_lookup_key : Q) : M unit :=
  (let* row_lines := lift (lookup_getitem row_lookup_key row_lookup) in
   let* row := alloc (ODict []) in
   let* _ := py_append rows row in
   for_each row_lines
     (assign_line headers col_min_attr_name col_max_attr_name heading_bias row))%M.

Definition find_table (headers lines : loc)
  (row_min_attr_name row_max_attr_name col_min_attr_name col_max_attr_name : attr)
  (reverse_sort : bool) (heading_bias : string) : M loc :=
  (let* hs := read_lines headers in
   let headers := sorted (fun h : href => getattr (snd h) col_min_attr_name)
                    false hs in
   let* ls := read_lines lines in
   let row_lookup :=
     get_attr_lookup (fun l : href => getattr (snd l) row_min_attr_name) ls in
   let* rows := alloc (OList []) in
   let* _ :=
     for_each (sorted (fun k : Q => k) reverse_sort (map fst row_lookup))
       (build_row headers row_lookup col_min_attr_name col_max_attr_name
          heading_bias rows) in
   ret rows)%M.

Definition find_row_table (headers lines : loc) (heading_bias : string)
  : M loc :=
  find_table headers lines Y0 Y1 X0 X1 true heading_bias.

Definition find_col_table (headers lines : loc) (heading_bias : string)
  : M loc :=
  find_table headers lines X0 X1 Y0 Y1 false heading_bias.

(** ** The row merger as the documentation words it

    Rows are taken by value here: a row is its key/fragment pairs. *)

Abbreviation row_value := (list (string * TextLine)) (only parsing).

Fixpoint resolve_items (h : heap) (d : dict loc) : option row_value :=
  match d with
  | [] => Some []
  | (k, r) :: d' =>
      match h !! r, resolve_items h d' with
      | Some (OTextLine l), Some v => Some ((k, l) :: v)
      | _, _ => None
      end
  end.

(** The value of the row dictionary behind a reference. *)
Definition value_at (h : heap) (r : loc) : option row_value :=
  match h !! r with
  | Some (ODict d) => resolve_items h d
  | _ => None
  end.

Definition least (x : Q) (xs : list Q) : Q := fold_left Qmin xs x.
Definition greatest (x : Q) (xs : list Q) : Q := fold_left Qmax xs x.

(** Extent of a row: min of the row-min attribute, max of the row-max
    attribute over its fragments. *)
Definition extent_of (row_min row_max : attr) (v : row_value)
  : option (Q * Q) :=
  match dict_values v with
  | [] => None
  | l :: ls =>
      Some (least (getattr l row_min) (map (fun l' => getattr l' row_min) ls),
            greatest (getattr l row_max) (map (fun l' => getattr l' row_max) ls))
  end.

(** Two extents overlap when their intersection has positive length. *)
Definition extents_overlap (a b : Q * Q) : bool :=
  Qltb (Qmax (fst a) (fst b)) (Qmin (snd a) (snd b)).

Definition rows_overlap (row_min row_max : attr) (a b : row_value) : bool :=
  match extent_of row_min row_max a, extent_of row_min row_max b with
  | Some ea, Some eb => extents_overlap ea eb
  | _, _ => false
  end.

(** Walk with an accumulator. *)
Fixpoint merge_walk (row_min row_max : attr) (acc : row_value)
  (rest : list row_value) : list row_value :=
  match rest with
  | [] => [acc]
  | next :: rest' =>
      if rows_overlap row_min row_max acc next
      then merge_walk row_min row_max (dict_update acc next) rest'
      else acc :: merge_walk row_min row_max next rest'
  end.

Definition merge_rows_spec (row_min row_max : attr) (rows : list row_value)
  : list row_value :=
  match rows with
  | [] => []
  | row :: rest => merge_walk row_min row_max row rest
  end.

(** A row as the table builder leaves it: a dictionary that is not empty
    and whose fragments have [min <= max] along the row axis. *)
Definition row_ok (row_min row_max : attr) (h : heap) (r : loc) : bool :=
  match value_at h r with
  | Some ((k, l) :: v) =>
      forallb (fun l' => Qle_bool (getattr l' row_min) (getattr l' row_max))
        (l :: dict_values v)
  | _ => false
  end.

(** The values of a sequence of rows. *)
Fixpoint values_at (h : heap) (rows : list loc) : option (list row_value) :=
  match rows with
  | [] => Some []
  | r :: rows' =>
      match value_at h r, values_at h rows' with
      | Some v, Some vs => Some (v :: vs)
      | _, _ => None
      end
  end.

(** No two adjacent rows overlap. *)
Fixpoint fully_merged (row_min row_max : attr) (rows : list row_value) : bool :=
  match rows with
  | a :: rest =>
      match rest with
      | b :: _ =>
          negb (rows_overlap row_min row_max a b)
          && fully_merged row_min row_max rest
      | [] => true
      end
  | [] => true
  end.

(** The header keys that occur in a sequence of rows. *)
Definition keys_of (rows : list row_value) : list string :=
  concat (map dict_keys rows).

(** ** The header locator as the documentation words it *)

(** The fragments of the coordinate group of the value [v]. *)
Definition group_of (attr_name : attr) (lines : list TextLine) (v : Q)
  : list TextLine :=
  List.filter (fun l => Qeq_bool (getattr l attr_name) v) lines.

(** [v] is the coordinate of a group in which every pattern is matched by at
    least one fragment's text. *)
Definition matching_group (regexes : list pattern) (attr_name : attr)
  (lines : list TextLine) (v : Q) : Prop :=
  (exists l, In l lines /\ getattr l attr_name == v) /\
  forall regex, In regex regexes ->
    exists l, In l (group_of attr_name lines v) /\ regex (text l) = true.

(** ** Notions used in the proofs *)

(** The loop of [merge_overlapping_rows], by recursion on the rows that are
    still to be visited. *)
Fixpoint walk_rows (row_min_attr_name row_max_attr_name : attr)
  (rest : list loc) (new_rows row : loc) : M loc :=
  match rest with
  | [] => ret row
  | next_row :: rest' =>
      (let* row :=
         merge_step row_min_attr_name row_max_attr_name
           new_rows row next_row in
       walk_rows row_min_attr_name row_max_attr_name rest' new_rows row)%M
  end.

(** The keys of a coordinate dictionary are pairwise different numbers. *)
Fixpoint distinct_keys {A} (d : list (Q * list A)) : Prop :=
  match d with
  | [] => True
  | (k, _) :: d' =>
      (forall k' g', In (k', g') d' -> Qeq_bool k k' = false) /\ distinct_keys d'
  end.

Definition entry_list {A} (r : outcome (list A)) : list A :=
  match r with Ok ls => ls | Raise _ => [] end.

(** The keys of the row dictionary behind a reference. *)
Definition keys_at (h : heap) (r : loc) : list string :=
  match h !! r with
  | Some (ODict d) => dict_keys d
  | _ => []
  end.

(** A computation keeps the objects of [h0] when, started in any store that
    begins with [h0], it ends in a store that begins with [h0]. *)
Definition keeps {A} (h0 : heap) (m : M A) : Prop :=
  forall fresh, exists fresh', snd (m (h0 ++ fresh)) = h0 ++ fresh'.

(** An entry of a row stands for the line [l]: its value is the line, its
    key the text of the header chosen for the line. *)
Definition entry_for (headers : list href) (c0 c1 : attr) (bias : string)
  (kv : string * loc) (l : href) : Prop :=
  snd kv = fst l /\
  exists hd, select_header headers (snd l) c0 c1 bias = Ok hd
             /\ fst kv = text (snd hd).

(** The row behind [r] holds the lines of one row cluster, one entry per
    line and no key twice. *)
Definition row_holds (headers : list href) (c0 c1 : attr) (bias : string)
  (h : heap) (r : loc) (row_lines : list href) : Prop :=
  exists d, h !! r = Some (ODict d) /\ NoDup (dict_keys d)
            /\ Forall2 (entry_for headers c0 c1 bias) d row_lines.

(** No two tuples with different [TextLine] objects have equal numbers. *)
Fixpoint no_tie (items : list (Q * href)) : Prop :=
  match items with
  | [] => True
  | x :: rest =>
      Forall (fun y => Qeq_bool (fst y) (fst x) = false
                       \/ fst (snd y) = fst (snd x)) rest
      /\ no_tie rest
  end.

(** The tuples [find_table] builds for a line [l]. *)
Definition overlaps_of (c0 c1 : attr) (l : TextLine) (headers : list href)
  : list (Q * href) :=
  map (fun h : href =>
         (Qmax 0 (float_sub (Qmin (getattr (snd h) c1) (getattr l c1))
                    (Qmax (getattr (snd h) c0) (getattr l c0))), h)) headers.

Definition possible_of (c0 c1 : attr) (l : TextLine) (headers : list href)
  : list (Q * href) :=
  List.filter (fun oh : Q * href => truthy (fst oh)) (overlaps_of c0 c1 l headers).

Definition center_distances (c0 c1 : attr) (l : TextLine)
  (headers : list href) : list (Q * href) :=
  map (fun h : href =>
         (Qabs (float_sub
                  (float_mul 0.5 (float_add (getattr (snd h) c0)
                                    (getattr (snd h) c1)))
                  (float_mul (float_add (getattr l c0) (getattr l c1)) 0.5)),
          h)) headers.

Definition left_candidates (c0 : attr) (l : TextLine) (headers : list href)
  : list (Q * href) :=
  map (fun h : href => (getattr (snd h) c0, h))
    (List.filter (fun h : href => Qle_bool (getattr (snd h) c0) (getattr l c0))
       headers).

Definition leftmost_candidates (c0 : attr) (possible : list (Q * href))
  : list (Q * href) :=
  map (fun oh : Q * href => (getattr (snd (snd oh)) c0, snd oh)) possible.

(** A computation that does not run out of fuel. *)
Definition fuel_free {A} (m : M A) : Prop :=
  forall h, fst (m h) <> Raise OutOfFuel.

(** The extent as [get_row_extent] reports it. *)
Definition extent_outcome (a b : attr) (v : row_value) : outcome (Q * Q) :=
  match extent_of a b v with
  | Some e => Ok e
  | None => Raise (ValueError "min() arg is an empty sequence")
  end.

(** ** Sample pages *)

(** A pattern without special characters searches for a substring. *)
Definition literal (s : string) : pattern :=
  fun t => match String.index 0 s t with Some _ => true | None => false end.

Definition name_patterns : list pattern :=
  [literal "Last Name"; literal "First Name"].

Definition text_line (t : string) (a0 b0 a1 b1 : Q) : TextLine :=
  mkTextLine t "Helvetica" a0 b0 a1 b1.

Definition line (t : string) (a0 b0 a1 b1 : Q) : obj :=
  OTextLine (text_line t a0 b0 a1 b1).

(** The float that a decimal literal denotes: [6.24] is
    [float_literal 624 100]. *)
Definition float_literal (n : Z) (d : positive) : Q := fl (n # d).

(** Headers A over [0,10] and B over [10,20], one body line inside A. *)
Definition heap_AB : heap :=
  [ line "A" 0 0 10 0; line "B" 10 0 20 0; line "x" 2 (-5) 8 (-5);
    OList [0%nat; 1%nat]; OList [2%nat] ].


Definition page_body : list TextLine :=
  [text_line "Smith" 0 90 30 99; text_line "John" 50 90 70 99].

Definition page_one : list TextLine :=
  [text_line "Last Name" 0 100 40 110; text_line "First Name" 50 100 90 110]
  ++ page_body.

Definition page_two : list TextLine :=
  page_one
  ++ [text_line "Last Name" 0 200 40 210; text_line "First Name" 50 200 90 210].

(** Three rows along the vertical axis with extents (0,5), (4,9), (10,12). *)
Definition heap_rows : heap :=
  [ line "a" 0 0 1 5; line "b" 2 4 3 9; line "c" 0 10 1 12;
    ODict [("A"%string, 0%nat)]; ODict [("B"%string, 1%nat)];
    ODict [("A"%string, 2%nat)];
    OList [3%nat; 4%nat; 5%nat] ].

(** Two rows with extents (0,5) and (6,9). *)
Definition heap_merged : heap :=
  [ line "a" 0 0 1 5; line "c" 0 6 1 9;
    ODict [("A"%string, 0%nat)]; OList [2%nat; 4%nat];
    ODict [("A"%string, 1%nat)] ].

(** Two headers and a short entry half way between them. *)
Definition heap_between : heap :=
  [ line "A" 0 0 3 0; line "B" 7 0 10 0; line "x" 4 (-5) 6 (-5);
    OList [0%nat; 1%nat]; OList [2%nat] ].

(** Two headers that start at the same place, as header text in two lines
    does, and an entry under both. *)
Definition heap_stacked : heap :=
  [ line "A" 0 0 10 0; line "B" 0 0 20 0; line "x" 2 (-5) 8 (-5);
    OList [0%nat; 1%nat]; OList [2%nat] ].

(** The same two headers, a third one further right, and an entry to the
    right of all three. *)
Definition heap_right : heap :=
  [ line "A" 0 0 1 0; line "B" 0 0 2 0; line "C" 3 0 4 0;
    line "x" 5 (-5) 6 (-5);
    OList [0%nat; 1%nat; 2%nat]; OList [3%nat] ].

(** Two entries of one row under the same header. *)
Definition heap_twice : heap :=
  [ line "A" 0 0 10 0; line "B" 10 0 20 0;
    line "x" 1 (-5) 4 (-5); line "y" 5 (-5) 8 (-5);
    OList [0%nat; 1%nat]; OList [2%nat; 3%nat] ].

(** * More of the program

    [find_lines_with], [gather_text] with the constructor and [__str__] of
    [TextLine], and the body of the loop of the demo. *)

(** ** [find_lines_with] *)

(** [regex.search(text)]: a match object, or [None]. *)
Definition find_lines_with {Mt : Type} (regex : string -> option Mt)
  (lines : list TextLine) : list (TextLine * Mt) :=
  fold_left
    (fun result l =>
       match regex (text l) with
       | Some m => result ++ [(l, m)]
       | None => result
       end)
    lines [].

(** The test [regex.search(text) is not None] of the same expression. *)
Definition searches {Mt : Type} (regex : string -> option Mt) : pattern :=
  fun t => match regex t with Some _ => true | None => false end.

(** ** [gather_text]

    The layout tree of pdfminer, told apart by the tests [gather_text]
    makes.  A constructor stands for the first test an object passes. *)

(** What a text line is made of. *)
Inductive line_item : Type :=
| LTAnno (_text : string)
| LTChar (_text : string) (char_fontname : string)
| LTItem (type_name : string).   (* neither an LTAnno nor an LTChar *)

(** What a horizontal text box is made of. *)
Inductive box_line : Type :=
| LTTextLineHorizontal (items : list line_item) (bbox : Q * Q * Q * Q)
| LTLineOther.                   (* not an LTTextLineHorizontal *)

(** A layout item. *)
#[warnings="-register-all"] Inductive item : Type :=
| LTTextBoxHorizontal (box_lines : list box_line)
| LTContainer (children : list item)   (* a container of another class *)
| LTRectOrLine
| LTOther (type_name : string).

(** The exceptions of [gather_text]; an assertion may carry a message. *)
Inductive gather_exn : Type :=
| GAssertionError (msg : option string)
| GValueError (msg : string).

(** [TextLine(text=..., fontname=..., bbox=...)] as [gather_text] calls it:
    the font name is [None] for a line without characters. *)
Record new_line : Type := mk_new_line {
  new_text : string;
  new_fontname : option string;
  new_bbox : Q * Q * Q * Q
}.

(** What a call has done so far: the list [lines], and the warnings.
    [warn] records its message and goes on, as it does unless the warning
    filter turns warnings into exceptions. *)
Record gathered : Type := mk_gathered {
  g_lines : list new_line;
  g_warnings : list string
}.

Definition font_changed (fontname other : string) : string :=
  "Font name changed mid-line, from '" +:+ fontname +:+ "' to '" +:+ other
  +:+ "'. Using initial font name for line.".

(** [for line_item in line]; [blank text] is [not text.strip()]. *)
Fixpoint gather_line (blank : string -> bool) (items : list line_item)
  (line_contents : list string) (fontname : option string)
  (warned : list string)
  : (list string * option string + gather_exn) * list string :=
  match items with
  | [] => (inl (line_contents, fontname), warned)
  | LTAnno t :: rest =>
      (* Assert that nothing useful is here. *)
      if blank t then gather_line blank rest line_contents fontname warned
      else (inr (GAssertionError (Some t)), warned)
  | LTChar t f :: rest =>
      let line_contents := line_contents ++ [t] in
      match fontname with
      | None => gather_line blank rest line_contents (Some f) warned
      | Some f0 =>
          if String.eqb f0 f
          then gather_line blank rest line_contents fontname warned
          else gather_line blank rest line_contents fontname
                 (warned ++ [font_changed f0 f])
      end
  | LTItem ty :: _ =>
      (inr (GValueError ("unexpected item on line: " +:+ ty)), warned)
  end.

(** [for line in item], for a horizontal text box. *)
Fixpoint gather_box (blank : string -> bool) (box_lines : list box_line)
  (st : gathered) : option gather_exn * gathered :=
  match box_lines with
  | [] => (None, st)
  | LTLineOther :: _ => (Some (GAssertionError None), st)
  | LTTextLineHorizontal items bbox :: rest =>
      match gather_line blank items [] None (g_warnings st) with
      | (inl (line_contents, fontname), warned) =>
          gather_box blank rest
            (mk_gathered
               (g_lines st
                ++ [mk_new_line (String.concat "" line_contents) fontname bbox])
               warned)
      | (inr e, warned) => (Some e, mk_gathered (g_lines st) warned)
      end
  end.

(** [gather_text(item, lines)]: [None] stands for the return of [lines],
    which is then the list of the state. *)
Fixpoint gather_text (blank : string -> bool) (it : item) (st : gathered)
  : option gather_exn * gathered :=
  match it with
  | LTTextBoxHorizontal box_lines => gather_box blank box_lines st
  | LTContainer children =>
      (fix each (subitems : list item) (st : gathered) :=
         match subitems with
         | [] => (None, st)
         | subitem :: rest =>
             match gather_text blank subitem st with
             | (None, st') => each rest st'
             | (Some e, st') => (Some e, st')
             end
         end) children st
  | LTRectOrLine => (None, st)
  | LTOther ty => (Some (GValueError ("unexpected item type: " +:+ ty)), st)
  end.

(** [for subitem in item: gather_text(subitem, lines)] *)
Fixpoint gather_each (blank : string -> bool) (subitems : list item)
  (st : gathered) : option gather_exn * gathered :=
  match subitems with
  | [] => (None, st)
  | subitem :: rest =>
      match gather_text blank subitem st with
      | (None, st') => gather_each blank rest st'
      | (Some e, st') => (Some e, st')
      end
  end.

(** [self.text] with the mark for bold type; [fontname] has to be a
    string for the test. *)
Definition TextLine_str (l : new_line) : outcome string :=
  match new_fontname l with
  | None => Raise (TypeError "argument of type 'NoneType' is not iterable")
  | Some f =>
      Ok (match String.index 0 "Bold" f with
          | Some _ => "*" +:+ new_text l +:+ "*"
          | None => new_text l
          end)
  end.

(** ** The page of the demo ([example/demo.py]) *)

(** [l for l in lines if l.y0 < top_y0] *)
Definition table_lines_of (top_y0 : Q) (ls : list href) : list href :=
  List.filter (fun l : href => Qltb (y0 (snd l)) top_y0) ls.

(** [l for l in lines if abs(l.y0 - top_y0) < 5] *)
Definition headers_of (top_y0 : Q) (ls : list href) : list href :=
  List.filter (fun l : href => Qltb (Qabs (float_sub (y0 (snd l)) top_y0)) 5) ls.

(** The body of the loop of [main], up to the printing of the rows, for the
    list of the lines of one page. *)
Definition extract_page (lines : loc) : M loc :=
  (let* ls := read_lines lines in
   (* identify top of table *)
   let* top_y0 :=
     lift (find_attr_group_matching name_patterns Y0 (map snd ls)) in
   (* extract text snippets making up table body *)
   let* table_lines := alloc (OList (map fst (table_lines_of top_y0 ls))) in
   (* extract header text snippets *)
   let* headers := alloc (OList (map fst (headers_of top_y0 ls))) in
   (* extract table *)
   let* rows := find_row_table headers table_lines "centered" in
   merge_overlapping_rows rows Y0 Y1)%M.

(** * Notions for the further properties *)

(** ** Rows of a table *)

Definition in_order {A} (key : A -> Q) (reverse : bool) (x y : A) : Prop :=
  if reverse then key y <= key x else key x <= key y.

(** The clusters of [find_table], in the order in which they are visited. *)
Definition clusters (r0 : attr) (reverse_sort : bool) (ls : list href)
  : outcome (list (list href)) :=
  let row_lookup := get_attr_lookup (fun l : href => getattr (snd l) r0) ls in
  omap (fun k => lookup_getitem k row_lookup)
    (sorted (fun k : Q => k) reverse_sort (map fst row_lookup)).

(** The row coordinates in the order in which [find_table] visits them. *)
Definition row_keys (r0 : attr) (reverse_sort : bool) (ls : list href)
  : list Q :=
  sorted (fun k : Q => k) reverse_sort
    (map fst (get_attr_lookup (fun l : href => getattr (snd l) r0) ls)).

Definition before (reverse : bool) (a b : Q) : Prop :=
  if reverse then b < a else a < b.

(** ** The header of a line *)

(** The key under which [find_table] files the line [l], if it finds one. *)
Definition header_text (headers : list href) (c0 c1 : attr) (bias : string)
  (l : href) : option string :=
  match select_header headers (snd l) c0 c1 bias with
  | Ok hd => Some (text (snd hd))
  | Raise _ => None
  end.

(** The lines of one row can all be placed: each is given a header, and no
    two of them headers with the same text. *)
Definition placeable (headers : list href) (c0 c1 : attr) (bias : string)
  (cl : list href) : Prop :=
  Forall (fun l => header_text headers c0 c1 bias l <> None) cl /\
  NoDup (map (header_text headers c0 c1 bias) cl).

(** The header [hd] and the line [l] share a stretch of positive length
    along the column axis. *)
Definition header_overlaps (c0 c1 : attr) (l : TextLine) (hd : href) : Prop :=
  Qmax (getattr (snd hd) c0) (getattr l c0)
  < Qmin (getattr (snd hd) c1) (getattr l c1).

(** Distance between the centers of a header and a line, as binary64
    arithmetic gives it. *)
Definition center_distance (c0 c1 : attr) (l : TextLine) (hd : href) : Q :=
  Qabs (float_sub
          (float_mul 0.5 (float_add (getattr (snd hd) c0)
                            (getattr (snd hd) c1)))
          (float_mul (float_add (getattr l c0) (getattr l c1)) 0.5)).



(** The header [hd] overlaps the line and starts first among those that do. *)
Definition leftmost_overlapping (hs : list href) (c0 c1 : attr) (l : TextLine)
  (hd : href) : Prop :=
  In hd hs /\ header_overlaps c0 c1 l hd /\
  forall hd', In hd' hs -> header_overlaps c0 c1 l hd' ->
              getattr (snd hd) c0 <= getattr (snd hd') c0.

(** The header [hd] starts at or before the line, and last among those that
    do. *)
Definition last_before (hs : list href) (c0 : attr) (l : TextLine) (hd : href)
  : Prop :=
  In hd hs /\ getattr (snd hd) c0 <= getattr l c0 /\
  forall hd', In hd' hs -> getattr (snd hd') c0 <= getattr l c0 ->
              getattr (snd hd') c0 <= getattr (snd hd) c0.

(** ** Writes and failures of the merge *)

(** Between two stores, only dictionaries among [rs] and the object at
    [new_rows] differ. *)
Definition writes_only (rs : list loc) (new_rows : loc) (h h' : heap) : Prop :=
  forall r o, r <> new_rows -> h !! r = Some o ->
    (~ In r rs \/ forall d, o <> ODict d) -> h' !! r = Some o.

(** The line [l] is a value of one of the rows [rs]. *)
Definition line_of_rows (h : heap) (rs : list loc) (l : TextLine) : Prop :=
  exists r v, In r rs /\ value_at h r = Some v /\ In l (dict_values v).

(** ** The gathered lines, as a function of the tree *)

Definition no_lines : gathered := mk_gathered [] [].

Definition gathered_app (st st' : gathered) : gathered :=
  mk_gathered (g_lines st ++ g_lines st') (g_warnings st ++ g_warnings st').

(** The items that count, in the order of the document: containers are
    opened, rectangles and lines dropped. *)
Fixpoint leaves (it : item) : list item :=
  match it with
  | LTContainer children =>
      (fix each (subitems : list item) :=
         match subitems with
         | [] => []
         | subitem :: rest => leaves subitem ++ each rest
         end) children
  | LTRectOrLine => []
  | _ => [it]
  end.

(** The characters of a line: text and font. *)
Fixpoint chars_of (items : list line_item) : list (string * string) :=
  match items with
  | [] => []
  | LTChar t f :: rest => (t, f) :: chars_of rest
  | _ :: rest => chars_of rest
  end.

Definition item_ok (blank : string -> bool) (i : line_item) : bool :=
  match i with
  | LTAnno t => blank t
  | LTChar _ _ => true
  | LTItem _ => false
  end.

(** The line [gather_text] makes of a text line. *)
Definition line_of (items : list line_item) (bbox : Q * Q * Q * Q) : new_line :=
  mk_new_line (String.concat "" (map fst (chars_of items)))
    (head (map snd (chars_of items))) bbox.

(** The text lines of the tree, in the order of the document. *)
Fixpoint text_lines (it : item) : list box_line :=
  match it with
  | LTTextBoxHorizontal box_lines => box_lines
  | LTContainer children =>
      (fix each (subitems : list item) :=
         match subitems with
         | [] => []
         | subitem :: rest => text_lines subitem ++ each rest
         end) children
  | _ => []
  end.

Definition made_of (bl : box_line) : option new_line :=
  match bl with
  | LTTextLineHorizontal items bbox => Some (line_of items bbox)
  | LTLineOther => None
  end.

Definition box_line_ok (blank : string -> bool) (bl : box_line) : bool :=
  match bl with
  | LTTextLineHorizontal items _ => forallb (item_ok blank) items
  | LTLineOther => false
  end.

(** The tree holds nothing [gather_text] stops at. *)
Definition tree_ok (blank : string -> bool) (it : item) : bool :=
  forallb (fun x => match x with
                    | LTTextBoxHorizontal box_lines =>
                        forallb (box_line_ok blank) box_lines
                    | _ => false
                    end) (leaves it).

Definition lines_made (box_lines : list box_line) : list new_line :=
  flat_map (fun bl => match made_of bl with Some l => [l] | None => [] end)
    box_lines.

Definition box_lines_of (it : item) : list box_line :=
  match it with
  | LTTextBoxHorizontal box_lines => box_lines
  | _ => []
  end.

(** What a call has made of the text lines [all]: the lines of a prefix
    without fault; of all of them when it returns. *)
Definition made_prefix (blank : string -> bool) (all : list box_line)
  (before : list new_line) (r : option gather_exn * gathered) : Prop :=
  exists pre post,
    all = pre ++ post /\
    forallb (box_line_ok blank) pre = true /\
    g_lines (snd r) = before ++ lines_made pre /\
    (fst r = None -> post = []).

(** What [str] gives for the line made of a text line. *)
Definition str_of_made (bl : box_line) (l : new_line) : Prop :=
  match bl with
  | LTTextLineHorizontal items _ =>
      match chars_of items with
      | [] => exists msg, TextLine_str l = Raise (TypeError msg)
      | (_, f) :: _ =>
          TextLine_str l
          = Ok (if literal "Bold" f
                then "*" +:+ String.concat "" (map fst (chars_of items)) +:+ "*"
                else String.concat "" (map fst (chars_of items)))
      end
  | LTLineOther => False
  end.

(** ** The store of a page *)

(** The store in which the table of a page is built. *)
Definition page_store (h : heap) (top_y0 : Q) (ls : list href) : heap :=
  h ++ [OList (map fst (table_lines_of top_y0 ls));
        OList (map fst (headers_of top_y0 ls))].

(** ** More sample pages *)

Definition heap_page : heap :=
  [ line "A" 0 0 10 0; line "B" 10 0 20 0;
    line "x" 2 (-5) 8 (-3); line "y" 12 (-6) 18 (-4); line "z" 1 (-10) 9 (-9);
    OList [0%nat; 1%nat]; OList [2%nat; 3%nat; 4%nat] ].

Definition heap_page_table : heap :=
  heap_page ++ [ OList [8%nat; 9%nat; 10%nat];
                 ODict [("A"%string, 2%nat)]; ODict [("B"%string, 3%nat)];
                 ODict [("A"%string, 4%nat)] ].

(** A row without entries, and a row with one. *)
Definition heap_empty_row : heap :=
  [ line "a" 0 0 1 5; ODict []; ODict [("A"%string, 0%nat)];
    OList [1%nat; 2%nat] ].

(** Blank for the sample: nothing, or one space. *)
Definition sample_blank (t : string) : bool :=
  String.eqb t "" || String.eqb t " ".

(** A page with a frame, a heading in bold type and a line of blanks. *)
Definition sample_page : item :=
  LTContainer
    [ LTRectOrLine;
      LTContainer
        [ LTTextBoxHorizontal
            [ LTTextLineHorizontal
                [ LTChar "N" "Helvetica-Bold"; LTChar "o" "Helvetica-Bold";
                  LTAnno " " ] (0, 100, 40, 110);
              LTTextLineHorizontal [ LTAnno " " ] (0, 90, 40, 99) ] ] ].

(** A page with the header line of the demo and two lines below it. *)
Definition heap_demo : heap :=
  [ line "Last Name" 0 100 40 110; line "First Name" 50 100 90 110;
    line "Smith" 0 80 30 89; line "John" 50 80 70 89;
    OList [0%nat; 1%nat; 2%nat; 3%nat] ].

(** ** [PageIterator]: the pages [PDFPage.create_pages] yields are a list;
    [layout] stands for what the interpreter and the device make of a
    page. *)
Record PageIterator (page : Type) : Type := mk_PageIterator {
  _page_iterator : list page;      (* the pages not yet taken *)
  _page : page;
  _lines : option (list new_line);
  i_page : nat;
  is_at_end : bool
}.
Arguments mk_PageIterator {page}.
Arguments _page_iterator {page}.
Arguments _page {page}.
Arguments _lines {page}.
Arguments i_page {page}.
Arguments is_at_end {page}.

(** [PageIterator(document)]; [None] stands for the [StopIteration] that
    [next] raises for a document without pages. *)
Definition PageIterator_init {page} (document : list page)
  : option (PageIterator page) :=
  match document with
  | [] => None
  | p :: rest => Some (mk_PageIterator rest p None 1 false)
  end.

Definition advance {page} (it : PageIterator page) : PageIterator page :=
  match _page_iterator it with
  | p :: rest =>
      mk_PageIterator rest p None (i_page it + 1) (is_at_end it)
  | [] =>
      (* except StopIteration *)
      mk_PageIterator [] (_page it) None (i_page it + 1) true
  end.

(** The property [lines]: the lines or the exception, the warnings issued,
    and the iterator afterwards. *)
Definition PageIterator_lines {page} (blank : string -> bool)
  (layout : page -> item) (it : PageIterator page)
  : (list new_line + gather_exn) * list string * PageIterator page :=
  match _lines it with
  | Some ls => (inl ls, [], it)
  | None =>
      match gather_text blank (layout (_page it)) no_lines with
      | (None, st) =>
          (inl (g_lines st), g_warnings st,
           mk_PageIterator (_page_iterator it) (_page it) (Some (g_lines st))
             (i_page it) (is_at_end it))
      | (Some e, st) => (inr e, g_warnings st, it)
      end
  end.

(** The pages at which the loop [while not page_it.is_at_end: ...;
    page_it.advance()] of the demo runs its body, for at most [fuel] turns. *)
Fixpoint pages_visited {page} (fuel : nat) (it : PageIterator page)
  : list page :=
  match fuel with
  | O => []
  | S fuel' =>
      if is_at_end it then []
      else _page it :: pages_visited fuel' (advance it)
  end.

Fixpoint advances {page} (k : nat) (it : PageIterator page)
  : PageIterator page :=
  match k with
  | O => it
  | S k' => advances k' (advance it)
  end.
(** * Properties *)

(** ** binary64 arithmetic *)

(** ** Rounding to an integer *)

Lemma round_half_even_comp (x y : Q) :
  x == y -> round_half_even x = round_half_even y.
Proof.
  intros H. unfold round_half_even. cbv zeta.
  rewrite (Qfloor_comp _ _ H).
  rewrite (Qcompare_comp (x - inject_Z (Qfloor y)) (y - inject_Z (Qfloor y))
             ltac:(rewrite H; reflexivity) (1 # 2) (1 # 2) ltac:(reflexivity)).
  reflexivity.
Qed.



Lemma round_half_even_Z (n : Z) : round_half_even (inject_Z n) = n.
Proof.
  unfold round_half_even. cbv zeta. rewrite Qfloor_Z.
  destruct (Qcompare_spec (inject_Z n - inject_Z n) (1 # 2)) as [He|Hl|Hg].
  - exfalso. lra.
  - reflexivity.
  - exfalso. lra.
Qed.

Lemma round_half_even_le (x y : Q) :
  x <= y -> (round_half_even x <= round_half_even y)%Z.
Proof.
  intros H. pose proof (Qfloor_resp_le _ _ H) as Hf.
  destruct (Z.eq_dec (Qfloor x) (Qfloor y)) as [E|N].
  - unfold round_half_even. cbv zeta. rewrite E.
    destruct (Qcompare_spec (x - inject_Z (Qfloor y)) (1 # 2)) as [He|Hl|Hg];
      destruct (Qcompare_spec (y - inject_Z (Qfloor y)) (1 # 2)) as [He'|Hl'|Hg'];
      destruct (Z.even (Qfloor y)); try lia; exfalso; lra.
  - assert (Hlt : (Qfloor x + 1 <= Qfloor y)%Z) by lia.
    assert (Hx : (round_half_even x <= Qfloor x + 1)%Z).
    { unfold round_half_even. cbv zeta.
      destruct (Qcompare (x - inject_Z (Qfloor x)) (1 # 2));
        destruct (Z.even (Qfloor x)); lia. }
    assert (Hy : (Qfloor y <= round_half_even y)%Z).
    { unfold round_half_even. cbv zeta.
      destruct (Qcompare (y - inject_Z (Qfloor y)) (1 # 2));
        destruct (Z.even (Qfloor y)); lia. }
    lia.
Qed.

(** ** Powers of two *)

Lemma two_neq_0 : ~ 2 == 0.
Proof. discriminate. Qed.

Lemma pow2_pos (e : Z) : 0 < 2 ^ e.
Proof. apply Qpower_0_lt. reflexivity. Qed.

Lemma pow2_add (a b : Z) : 2 ^ (a + b) == 2 ^ a * 2 ^ b.
Proof. apply Qpower_plus, two_neq_0. Qed.

Lemma pow2_inv (e : Z) : 2 ^ e * 2 ^ (- e) == 1.
Proof.
  rewrite <- pow2_add. replace (e + - e)%Z with 0%Z by lia. reflexivity.
Qed.

Lemma pow2_le (a b : Z) : (a <= b)%Z -> 2 ^ a <= 2 ^ b.
Proof. intros H. apply Qpower_le_compat_l; [exact H|]. discriminate. Qed.

Lemma pow2_lt (a b : Z) : (a < b)%Z -> 2 ^ a < 2 ^ b.
Proof. intros H. apply Qpower_lt_compat_l; [exact H|]. reflexivity. Qed.

Lemma pow2_Z (n : Z) : (0 <= n)%Z -> 2 ^ n == inject_Z (2 ^ n).
Proof. intros H. rewrite (Zpower_Qpower 2 n H). reflexivity. Qed.

Lemma pow2_succ (e : Z) : 2 ^ (e + 1) == 2 * 2 ^ e.
Proof. rewrite pow2_add. change (2 ^ 1) with 2. ring. Qed.

(** ** The binary exponent *)

Lemma Qdiv_le_cross (N D A B : Z) :
  (0 < D)%Z -> (0 < B)%Z -> (N * B <= A * D)%Z ->
  inject_Z N / inject_Z D <= inject_Z A / inject_Z B.
Proof.
  intros HD HB H.
  assert (HD' : inject_Z 0 < inject_Z D) by (rewrite <- Zlt_Qlt; exact HD).
  change (0 < inject_Z D) in HD'.
  assert (HB' : inject_Z 0 < inject_Z B) by (rewrite <- Zlt_Qlt; exact HB).
  change (0 < inject_Z B) in HB'.
  apply Qle_shift_div_l; [exact HB'|].
  assert (E : inject_Z N / inject_Z D * inject_Z B
              == inject_Z N * inject_Z B / inject_Z D)
    by (field; intros E; rewrite E in HD'; discriminate).
  rewrite E.
  apply Qle_shift_div_r; [exact HD'|].
  rewrite <- !inject_Z_mult, <- Zle_Qle. exact H.
Qed.

Lemma Qdiv_lt_cross (N D A B : Z) :
  (0 < D)%Z -> (0 < B)%Z -> (N * B < A * D)%Z ->
  inject_Z N / inject_Z D < inject_Z A / inject_Z B.
Proof.
  intros HD HB H.
  assert (HD' : inject_Z 0 < inject_Z D) by (rewrite <- Zlt_Qlt; exact HD).
  change (0 < inject_Z D) in HD'.
  assert (HB' : inject_Z 0 < inject_Z B) by (rewrite <- Zlt_Qlt; exact HB).
  change (0 < inject_Z B) in HB'.
  apply Qlt_shift_div_l; [exact HB'|].
  assert (E : inject_Z N / inject_Z D * inject_Z B
              == inject_Z N * inject_Z B / inject_Z D)
    by (field; intros E; rewrite E in HD'; discriminate).
  rewrite E.
  apply Qlt_shift_div_r; [exact HD'|].
  rewrite <- !inject_Z_mult, <- Zlt_Qlt. exact H.
Qed.

Lemma pow2_sub_Z (a b : Z) :
  (0 <= a)%Z -> (0 <= b)%Z ->
  2 ^ (a - b) == inject_Z (2 ^ a) / inject_Z (2 ^ b).
Proof.
  intros Ha Hb. unfold Z.sub. rewrite pow2_add, Qpower_opp.
  rewrite (pow2_Z a Ha), (pow2_Z b Hb). reflexivity.
Qed.

Lemma ilog2_spec (x : Q) :
  ~ x == 0 -> 2 ^ ilog2 x <= Qabs x /\ Qabs x < 2 ^ (ilog2 x + 1).
Proof.
  intros Hx. destruct x as [n d].
  assert (Hn : (0 < Z.abs n)%Z).
  { assert (n <> 0%Z); [|lia]. intros ->. apply Hx. reflexivity. }
  unfold ilog2. cbn [Qnum Qden].
  set (a := Z.log2 (Z.abs n)). set (b := Z.log2 (Z.pos d)).
  assert (Ha := Z.log2_spec (Z.abs n) Hn). fold a in Ha.
  assert (Hb := Z.log2_spec (Z.pos d) ltac:(lia)). fold b in Hb.
  assert (Ha0 : (0 <= a)%Z) by apply Z.log2_nonneg.
  assert (Hb0 : (0 <= b)%Z) by apply Z.log2_nonneg.
  assert (Habs : Qabs (n # d) == inject_Z (Z.abs n) / inject_Z (Z.pos d)).
  { change (Qabs (n # d)) with (Z.abs n # d). apply Qmake_Qdiv. }
  assert (Pa : (0 < 2 ^ a)%Z) by (apply Z.pow_pos_nonneg; lia).
  assert (Pb : (0 < 2 ^ b)%Z) by (apply Z.pow_pos_nonneg; lia).
  assert (Pb1 : (0 < 2 ^ (b + 1))%Z) by (apply Z.pow_pos_nonneg; lia).
  assert (Hup : Qabs (n # d) < 2 ^ (a - b + 1)).
  { replace (a - b + 1)%Z with ((a + 1) - b)%Z by lia.
    rewrite (pow2_sub_Z (a + 1) b) by lia. rewrite Habs.
    apply Qdiv_lt_cross; [lia|lia|]. nia. }
  assert (Hlow : 2 ^ (a - b - 1) <= Qabs (n # d)).
  { replace (a - b - 1)%Z with (a - (b + 1))%Z by lia.
    rewrite (pow2_sub_Z a (b + 1)) by lia. rewrite Habs.
    apply Qdiv_le_cross; [lia|lia|]. nia. }
  destruct (Qle_bool (2 ^ (a - b)) (Qabs (n # d))) eqn:Hc.
  - apply Qle_bool_iff in Hc. split; assumption.
  - split; [exact Hlow|].
    replace (a - b - 1 + 1)%Z with (a - b)%Z by lia.
    apply Qnot_le_lt. intros Hle. apply Qle_bool_iff in Hle. congruence.
Qed.

Lemma ilog2_unique (x : Q) (e : Z) :
  2 ^ e <= Qabs x -> Qabs x < 2 ^ (e + 1) -> ilog2 x = e.
Proof.
  intros Hlo Hhi.
  assert (Hx : ~ x == 0).
  { intros E. rewrite E in Hlo. pose proof (pow2_pos e).
    change (Qabs 0) with 0 in Hlo. lra. }
  destruct (ilog2_spec x Hx) as [Hlo' Hhi'].
  destruct (Z.lt_trichotomy (ilog2 x) e) as [L|[E|G]]; [exfalso| exact E |exfalso].
  - pose proof (pow2_le (ilog2 x + 1) e ltac:(lia)). lra.
  - pose proof (pow2_le (e + 1) (ilog2 x) ltac:(lia)). lra.
Qed.

Lemma ilog2_comp (x y : Q) : ~ x == 0 -> x == y -> ilog2 x = ilog2 y.
Proof.
  intros Hx E. symmetry. destruct (ilog2_spec x Hx) as [Hlo Hhi].
  apply ilog2_unique; rewrite <- E; assumption.
Qed.

Lemma ilog2_le (x y : Q) :
  ~ x == 0 -> Qabs x <= Qabs y -> (ilog2 x <= ilog2 y)%Z.
Proof.
  intros Hx H.
  assert (Hy : ~ y == 0).
  { intros E. rewrite E in H. change (Qabs 0) with 0 in H.
    apply Hx. revert H. apply Qabs_case; intros; lra. }
  destruct (ilog2_spec x Hx) as [Hlo Hhi].
  destruct (ilog2_spec y Hy) as [Hlo' Hhi'].
  destruct (Z_lt_le_dec (ilog2 y) (ilog2 x)) as [L|G]; [exfalso|exact G].
  pose proof (pow2_le (ilog2 y + 1) (ilog2 x) ltac:(lia)). lra.
Qed.

(** ** Rounding to a multiple of a power of two *)

Lemma round_to_eq (e : Z) (x : Q) :
  round_to e x == inject_Z (round_half_even (x * 2 ^ (- e))) * 2 ^ e.
Proof. unfold round_to. apply Qred_correct. Qed.

Lemma round_to_comp (e : Z) (x y : Q) : x == y -> round_to e x = round_to e y.
Proof.
  intros H. unfold round_to.
  rewrite (round_half_even_comp (x * 2 ^ (- e)) (y * 2 ^ (- e))); [reflexivity|].
  rewrite H. reflexivity.
Qed.

Lemma round_to_le (e : Z) (x y : Q) : x <= y -> round_to e x <= round_to e y.
Proof.
  intros H. rewrite !round_to_eq.
  apply Qmult_le_compat_r; [|apply Qlt_le_weak, pow2_pos].
  rewrite <- Zle_Qle. apply round_half_even_le.
  apply Qmult_le_compat_r; [exact H|apply Qlt_le_weak, pow2_pos].
Qed.

Lemma round_to_exact (e : Z) (x : Q) (m : Z) :
  x == inject_Z m * 2 ^ e -> round_to e x == x.
Proof.
  intros H. rewrite round_to_eq.
  rewrite (round_half_even_comp (x * 2 ^ (- e)) (inject_Z m)).
  - rewrite round_half_even_Z. symmetry. exact H.
  - rewrite H, <- Qmult_assoc, pow2_inv. ring.
Qed.


(** ** Rounding to 53 bits *)

Lemma scaled_range (x : Q) :
  ~ x == 0 ->
  2 ^ 52 <= Qabs x * 2 ^ (- (ilog2 x - 52)) /\
  Qabs x * 2 ^ (- (ilog2 x - 52)) < 2 ^ 53.
Proof.
  intros Hx. destruct (ilog2_spec x Hx) as [Hlo Hhi].
  pose proof (pow2_pos (- (ilog2 x - 52))) as Hp.
  split.
  - assert (E : 2 ^ 52 == 2 ^ ilog2 x * 2 ^ (- (ilog2 x - 52))).
    { rewrite <- pow2_add. replace (ilog2 x + - (ilog2 x - 52))%Z with 52%Z by lia.
      reflexivity. }
    rewrite E. apply Qmult_le_compat_r; lra.
  - assert (E : 2 ^ 53 == 2 ^ (ilog2 x + 1) * 2 ^ (- (ilog2 x - 52))).
    { rewrite <- pow2_add.
      replace (ilog2 x + 1 + - (ilog2 x - 52))%Z with 53%Z by lia. reflexivity. }
    rewrite E. apply Qmult_lt_compat_r; lra.
Qed.

Lemma round53_0 (x : Q) : x == 0 -> round53 x = 0.
Proof.
  intros H. unfold round53. apply Qeq_bool_iff in H. rewrite H. reflexivity.
Qed.

Lemma round53_nonzero (x : Q) :
  ~ x == 0 -> round53 x = round_to (ilog2 x - 52) x.
Proof.
  intros H. unfold round53. destruct (Qeq_bool x 0) eqn:E; [|reflexivity].
  apply Qeq_bool_iff in E. contradiction.
Qed.


Lemma round53_pos (x : Q) :
  0 < x -> 2 ^ ilog2 x <= round53 x /\ round53 x <= 2 ^ (ilog2 x + 1).
Proof.
  intros Hx. assert (Nx : ~ x == 0) by lra.
  rewrite (round53_nonzero x Nx), round_to_eq.
  destruct (scaled_range x Nx) as [Hlo Hhi].
  rewrite (Qabs_pos x) in Hlo, Hhi by lra.
  set (E := (ilog2 x - 52)%Z) in *.
  pose proof (pow2_pos E) as Hp.
  assert (H52 : (2 ^ 52 <= round_half_even (x * 2 ^ (- E)))%Z).
  { rewrite <- (round_half_even_Z (2 ^ 52)). apply round_half_even_le.
    rewrite <- (pow2_Z 52) by lia. exact Hlo. }
  assert (H53 : (round_half_even (x * 2 ^ (- E)) <= 2 ^ 53)%Z).
  { rewrite <- (round_half_even_Z (2 ^ 53)). apply round_half_even_le.
    rewrite <- (pow2_Z 53) by lia. lra. }
  rewrite Zle_Qle in H52, H53.
  rewrite <- (pow2_Z 52) in H52 by lia. rewrite <- (pow2_Z 53) in H53 by lia.
  split.
  - assert (Eq : 2 ^ ilog2 x == 2 ^ 52 * 2 ^ E).
    { rewrite <- pow2_add. unfold E. replace (52 + (ilog2 x - 52))%Z with (ilog2 x) by lia.
      reflexivity. }
    rewrite Eq. apply Qmult_le_compat_r; lra.
  - assert (Eq : 2 ^ (ilog2 x + 1) == 2 ^ 53 * 2 ^ E).
    { rewrite <- pow2_add. unfold E.
      replace (53 + (ilog2 x - 52))%Z with (ilog2 x + 1)%Z by lia. reflexivity. }
    rewrite Eq. apply Qmult_le_compat_r; lra.
Qed.

Lemma round53_neg (x : Q) :
  x < 0 -> - 2 ^ (ilog2 x + 1) <= round53 x /\ round53 x <= - 2 ^ ilog2 x.
Proof.
  intros Hx. assert (Nx : ~ x == 0) by lra.
  rewrite (round53_nonzero x Nx), round_to_eq.
  destruct (scaled_range x Nx) as [Hlo Hhi].
  rewrite (Qabs_neg x) in Hlo, Hhi by lra.
  set (E := (ilog2 x - 52)%Z) in *.
  pose proof (pow2_pos E) as Hp.
  assert (H52 : (round_half_even (x * 2 ^ (- E)) <= - 2 ^ 52)%Z).
  { rewrite <- (round_half_even_Z (- 2 ^ 52)). apply round_half_even_le.
    rewrite inject_Z_opp, <- (pow2_Z 52) by lia. lra. }
  assert (H53 : (- 2 ^ 53 <= round_half_even (x * 2 ^ (- E)))%Z).
  { rewrite <- (round_half_even_Z (- 2 ^ 53)). apply round_half_even_le.
    rewrite inject_Z_opp, <- (pow2_Z 53) by lia. lra. }
  rewrite Zle_Qle in H52, H53. rewrite inject_Z_opp in H52, H53.
  rewrite <- (pow2_Z 52) in H52 by lia. rewrite <- (pow2_Z 53) in H53 by lia.
  split.
  - assert (Eq : 2 ^ (ilog2 x + 1) == 2 ^ 53 * 2 ^ E).
    { rewrite <- pow2_add. unfold E.
      replace (53 + (ilog2 x - 52))%Z with (ilog2 x + 1)%Z by lia. reflexivity. }
    rewrite Eq.
    setoid_replace (- (2 ^ 53 * 2 ^ E)) with ((- 2 ^ 53) * 2 ^ E) using relation Qeq by ring.
    apply Qmult_le_compat_r; lra.
  - assert (Eq : 2 ^ ilog2 x == 2 ^ 52 * 2 ^ E).
    { rewrite <- pow2_add. unfold E. replace (52 + (ilog2 x - 52))%Z with (ilog2 x) by lia.
      reflexivity. }
    rewrite Eq.
    setoid_replace (- (2 ^ 52 * 2 ^ E)) with ((- 2 ^ 52) * 2 ^ E) using relation Qeq by ring.
    apply Qmult_le_compat_r; lra.
Qed.

Lemma round53_sign_pos (x : Q) : 0 < x -> 0 < round53 x.
Proof.
  intros H. destruct (round53_pos x H) as [Hlo _].
  pose proof (pow2_pos (ilog2 x)). lra.
Qed.

Lemma round53_sign_neg (x : Q) : x < 0 -> round53 x < 0.
Proof.
  intros H. destruct (round53_neg x H) as [_ Hhi].
  pose proof (pow2_pos (ilog2 x)). lra.
Qed.

Lemma round53_pos_iff (x : Q) : 0 < round53 x <-> 0 < x.
Proof.
  split; [|apply round53_sign_pos].
  intros H. destruct (Qlt_le_dec 0 x) as [L|G]; [exact L|exfalso].
  destruct (Qle_lt_or_eq _ _ G) as [L|E].
  - pose proof (round53_sign_neg x L). lra.
  - rewrite (round53_0 x E) in H. lra.
Qed.

Lemma round53_le (x y : Q) : x <= y -> round53 x <= round53 y.
Proof.
  intros H.
  destruct (Qlt_le_dec 0 x) as [Px|Nx].
  - (* 0 < x <= y *)
    assert (Py : 0 < y) by lra.
    assert (Hl : (ilog2 x <= ilog2 y)%Z).
    { apply ilog2_le; [lra|]. rewrite !Qabs_pos by lra. exact H. }
    destruct (Z.eq_dec (ilog2 x) (ilog2 y)) as [E|N].
    + rewrite !round53_nonzero by lra. rewrite E. apply round_to_le, H.
    + destruct (round53_pos x Px) as [_ Hx]. destruct (round53_pos y Py) as [Hy _].
      pose proof (pow2_le (ilog2 x + 1) (ilog2 y) ltac:(lia)). lra.
  - destruct (Qlt_le_dec 0 y) as [Py|Ny].
    + (* x <= 0 < y *)
      pose proof (round53_sign_pos y Py).
      destruct (Qle_lt_or_eq _ _ Nx) as [L|E].
      * pose proof (round53_sign_neg x L). lra.
      * rewrite (round53_0 x E). lra.
    + destruct (Qle_lt_or_eq _ _ Ny) as [Ly|Ey].
      * (* x <= y < 0 *)
        assert (Lx : x < 0) by lra.
        assert (Hl : (ilog2 y <= ilog2 x)%Z).
        { apply ilog2_le; [lra|]. rewrite !Qabs_neg by lra. lra. }
        destruct (Z.eq_dec (ilog2 x) (ilog2 y)) as [E|N].
        -- rewrite !round53_nonzero by lra. rewrite E. apply round_to_le, H.
        -- destruct (round53_neg x Lx) as [_ Hx].
           destruct (round53_neg y Ly) as [Hy _].
           pose proof (pow2_le (ilog2 y + 1) (ilog2 x) ltac:(lia)). lra.
      * rewrite (round53_0 y Ey).
        destruct (Qle_lt_or_eq _ _ Nx) as [L|E].
        -- pose proof (round53_sign_neg x L). lra.
        -- rewrite (round53_0 x E). lra.
Qed.

(** A number with at most 53 significant bits is left as it is. *)
Lemma round53_exact (x : Q) (m e : Z) :
  (Z.abs m < 2 ^ 53)%Z -> x == inject_Z m * 2 ^ e -> round53 x == x.
Proof.
  intros Hm Hx.
  destruct (Qeq_dec x 0) as [Z0|Nx].
  - rewrite (round53_0 x Z0). symmetry. exact Z0.
  - rewrite (round53_nonzero x Nx).
    destruct (ilog2_spec x Nx) as [Hlo _].
    assert (Habs : Qabs x < 2 ^ (53 + e)).
    { rewrite (Qabs_wd _ _ Hx), Qabs_Qmult.
      rewrite (Qabs_pos (2 ^ e)) by apply Qlt_le_weak, pow2_pos.
      rewrite pow2_add. apply Qmult_lt_compat_r; [apply pow2_pos|].
      rewrite (pow2_Z 53) by lia.
      assert (E : Qabs (inject_Z m) == inject_Z (Z.abs m)).
      { unfold inject_Z. reflexivity. }
      rewrite E, <- Zlt_Qlt. exact Hm. }
    assert (HE : (ilog2 x - 52 <= e)%Z).
    { assert (L : 2 ^ ilog2 x < 2 ^ (53 + e)) by lra.
      apply Qpower_lt_compat_l_inv in L; [lia|reflexivity]. }
    apply (round_to_exact _ _ (m * 2 ^ (e - (ilog2 x - 52)))).
    etransitivity; [exact Hx|].
    rewrite inject_Z_mult, <- (pow2_Z (e - (ilog2 x - 52))) by lia.
    rewrite <- Qmult_assoc, <- pow2_add.
    replace (e - (ilog2 x - 52) + (ilog2 x - 52))%Z with e by lia. reflexivity.
Qed.

Lemma round53_Z (n : Z) :
  (Z.abs n < 2 ^ 53)%Z -> round53 (inject_Z n) == inject_Z n.
Proof.
  intros H. apply (round53_exact _ n 0 H). change (2 ^ 0) with 1. ring.
Qed.


(** ** binary64 *)

Lemma fl_0 (x : Q) : x == 0 -> fl x = 0.
Proof.
  intros H. unfold fl. apply Qeq_bool_iff in H. rewrite H. reflexivity.
Qed.

Lemma fl_nonzero (x : Q) :
  ~ x == 0 -> fl x = round_to (Z.max (ilog2 x - 52) (-1074)) x.
Proof.
  intros H. unfold fl. destruct (Qeq_bool x 0) eqn:E; [|reflexivity].
  apply Qeq_bool_iff in E. contradiction.
Qed.

(** Every binary64 number is a multiple of [2 ^ -1074]. *)
Lemma binary64_grid (x : Q) :
  binary64 x -> exists M : Z, x == inject_Z M * 2 ^ (-1074).
Proof.
  unfold binary64. intros H.
  destruct (Qeq_dec x 0) as [Z0|Nx].
  - exists 0%Z. rewrite Z0. reflexivity.
  - rewrite (fl_nonzero x Nx), round_to_eq in H.
    set (E := Z.max (ilog2 x - 52) (-1074)) in *.
    exists (round_half_even (x * 2 ^ (- E)) * 2 ^ (E + 1074))%Z.
    rewrite <- H at 1.
    rewrite inject_Z_mult, <- (pow2_Z (E + 1074)) by lia.
    rewrite <- Qmult_assoc, <- pow2_add.
    replace (E + 1074 + -1074)%Z with E by lia. reflexivity.
Qed.

(** On the grid, rounding to 53 bits is all that happens. *)
Lemma fl_on_grid (x : Q) (M : Z) :
  x == inject_Z M * 2 ^ (-1074) -> fl x == round53 x.
Proof.
  intros H.
  destruct (Qeq_dec x 0) as [Z0|Nx].
  - rewrite (fl_0 x Z0), (round53_0 x Z0). reflexivity.
  - rewrite (fl_nonzero x Nx), (round53_nonzero x Nx).
    destruct (Z_le_gt_dec (-1074) (ilog2 x - 52)) as [L|G].
    + rewrite Z.max_l by lia. reflexivity.
    + rewrite Z.max_r by lia.
      rewrite (round_to_exact (-1074) x M H).
      symmetry. apply (round_to_exact _ _ (M * 2 ^ (-1074 - (ilog2 x - 52)))).
      etransitivity; [exact H|].
      rewrite inject_Z_mult, <- (pow2_Z (-1074 - (ilog2 x - 52))) by lia.
      rewrite <- Qmult_assoc, <- pow2_add.
      replace (-1074 - (ilog2 x - 52) + (ilog2 x - 52))%Z with (-1074)%Z by lia.
      reflexivity.
Qed.

(** Sums and differences of binary64 numbers are on the grid: [float_add]
    and [float_sub] are the binary64 operations. *)
Lemma float_sub_binary64 (a b : Q) :
  binary64 a -> binary64 b -> float_sub a b == fl (a - b).
Proof.
  intros Ha Hb. destruct (binary64_grid a Ha) as [Ma HMa].
  destruct (binary64_grid b Hb) as [Mb HMb].
  unfold float_sub. symmetry. apply (fl_on_grid _ (Ma - Mb)).
  rewrite HMa, HMb. unfold Z.sub. rewrite inject_Z_plus, inject_Z_opp. ring.
Qed.

Lemma float_add_binary64 (a b : Q) :
  binary64 a -> binary64 b -> float_add a b == fl (a + b).
Proof.
  intros Ha Hb. destruct (binary64_grid a Ha) as [Ma HMa].
  destruct (binary64_grid b Hb) as [Mb HMb].
  unfold float_add. symmetry. apply (fl_on_grid _ (Ma + Mb)).
  rewrite HMa, HMb. rewrite inject_Z_plus. ring.
Qed.

Lemma fl_comp (x y : Q) : x == y -> fl x = fl y.
Proof.
  intros H. unfold fl.
  destruct (Qeq_bool x 0) eqn:Ex.
  - apply Qeq_bool_iff in Ex. rewrite H in Ex. apply Qeq_bool_iff in Ex.
    rewrite Ex. reflexivity.
  - assert (Nx : ~ x == 0) by (intros E; apply Qeq_bool_iff in E; congruence).
    destruct (Qeq_bool y 0) eqn:Ey.
    + apply Qeq_bool_iff in Ey. rewrite <- H in Ey. contradiction.
    + rewrite (ilog2_comp x y Nx H). apply round_to_comp, H.
Qed.

(** A number with at most 53 significant bits and no bit below [2 ^ -1074]
    is a binary64 number. *)
Lemma fl_exact (x : Q) (m e : Z) :
  (Z.abs m <= 2 ^ 53)%Z -> (-1074 <= e)%Z -> x == inject_Z m * 2 ^ e ->
  binary64 x.
Proof.
  intros Hm He Hx. unfold binary64.
  rewrite (fl_on_grid x (m * 2 ^ (e + 1074))).
  - destruct (Z.eq_dec (Z.abs m) (2 ^ 53)%Z) as [E|N].
    + apply (round53_exact x (m / 2) (e + 1)).
      * assert (Z.abs (m / 2) = 2 ^ 52)%Z; [|lia].
        destruct (Z.abs_spec m) as [[_ A]|[_ A]]; rewrite A in E.
        -- rewrite E. reflexivity.
        -- replace m with (- 2 ^ 53)%Z by lia. reflexivity.
      * etransitivity; [exact Hx|]. rewrite pow2_succ.
        assert (Em : inject_Z m == inject_Z (m / 2) * 2).
        { assert (m = m / 2 * 2)%Z; [|].
          - destruct (Z.abs_spec m) as [[_ A]|[_ A]]; rewrite A in E.
            + rewrite E. reflexivity.
            + replace m with (- 2 ^ 53)%Z by lia. reflexivity.
          - rewrite H at 1. rewrite inject_Z_mult. reflexivity. }
        rewrite Em. ring.
    + apply (round53_exact x m e); [lia|exact Hx].
  - etransitivity; [exact Hx|].
    rewrite inject_Z_mult, <- (pow2_Z (e + 1074)) by lia.
    rewrite <- Qmult_assoc, <- pow2_add.
    replace (e + 1074 + -1074)%Z with e by lia. reflexivity.
Qed.

(** What [fl] returns is a binary64 number. *)
Lemma fl_binary64 (x : Q) : binary64 (fl x).
Proof.
  destruct (Qeq_dec x 0) as [Z0|Nx].
  - rewrite (fl_0 x Z0). reflexivity.
  - set (E := Z.max (ilog2 x - 52) (-1074)).
    apply (fl_exact _ (round_half_even (x * 2 ^ (- E))) E).
    + destruct (scaled_range x Nx) as [_ Hhi].
      pose proof (pow2_pos (- E)) as Hp.
      assert (Hs : Qabs (x * 2 ^ (- E)) < 2 ^ 53).
      { rewrite Qabs_Qmult, (Qabs_pos (2 ^ (- E))) by lra.
        eapply Qle_lt_trans; [|exact Hhi].
        apply Qmult_le_l.
        - destruct (ilog2_spec x Nx) as [Hlo _].
          pose proof (pow2_pos (ilog2 x)). lra.
        - apply pow2_le. unfold E. lia. }
      rewrite (pow2_Z 53) in Hs by lia.
      assert (Hlo' : (- 2 ^ 53 <= round_half_even (x * 2 ^ (- E)))%Z).
      { rewrite <- (round_half_even_Z (- 2 ^ 53)). apply round_half_even_le.
        revert Hs. apply Qabs_case; intros; rewrite inject_Z_opp; lra. }
      assert (Hhi' : (round_half_even (x * 2 ^ (- E)) <= 2 ^ 53)%Z).
      { rewrite <- (round_half_even_Z (2 ^ 53)). apply round_half_even_le.
        revert Hs. apply Qabs_case; intros; lra. }
      lia.
    + unfold E. lia.
    + rewrite (fl_nonzero x Nx). apply round_to_eq.
Qed.

Lemma binary64_comp (x y : Q) : x == y -> binary64 x -> binary64 y.
Proof.
  unfold binary64. intros E H. rewrite <- (fl_comp x y E), H. exact E.
Qed.

(** ** [overlap] *)

Lemma Qmax_cases (a b : Q) :
  (a < b /\ Qmax a b == b) \/ (b <= a /\ Qmax a b == a).
Proof. apply Q.max_spec. Qed.

Lemma Qmin_cases (a b : Q) :
  (a < b /\ Qmin a b == a) \/ (b <= a /\ Qmin a b == b).
Proof. apply Q.min_spec. Qed.

Ltac qcases :=
  repeat match goal with
  | |- context [Qmax ?a ?b] =>
      let H := fresh in
      destruct (Qmax_cases a b) as [[? H]|[? H]];
      generalize dependent (Qmax a b); intros
  | |- context [Qmin ?a ?b] =>
      let H := fresh in
      destruct (Qmin_cases a b) as [[? H]|[? H]];
      generalize dependent (Qmin a b); intros
  | _ : context [Qmax ?a ?b] |- _ =>
      let H := fresh in
      destruct (Qmax_cases a b) as [[? H]|[? H]];
      generalize dependent (Qmax a b); intros
  | _ : context [Qmin ?a ?b] |- _ =>
      let H := fresh in
      destruct (Qmin_cases a b) as [[? H]|[? H]];
      generalize dependent (Qmin a b); intros
  end.

Lemma overlap_ok a_min a_max b_min b_max :
  b_min <= b_max ->
  overlap a_min a_max b_min b_max
  = Ok (Qmax 0 (float_sub (Qmin a_max b_max) (Qmax a_min b_min))).
Proof.
  intros H. unfold overlap.
  apply Qle_bool_iff in H. rewrite H. reflexivity.
Qed.

Lemma float_sub_pos (a b : Q) : 0 < float_sub a b <-> b < a.
Proof.
  unfold float_sub. rewrite round53_pos_iff. split; intros; lra.
Qed.

Lemma float_sub_le (a b c d : Q) :
  a - b <= c - d -> float_sub a b <= float_sub c d.
Proof. apply round53_le. Qed.


(** The result of [overlap]: the rounded difference when the end lies after
    the begin, and 0 otherwise. *)
Lemma overlap_value (lo hi : Q) :
  (lo < hi /\ Qmax 0 (float_sub hi lo) == float_sub hi lo
   /\ 0 < float_sub hi lo)
  \/ (hi <= lo /\ Qmax 0 (float_sub hi lo) == 0).
Proof.
  destruct (Qlt_le_dec lo hi) as [L|G].
  - left. pose proof (proj2 (float_sub_pos hi lo) L) as Hp.
    split; [exact L|]. split; [|exact Hp].
    destruct (Qmax_cases 0 (float_sub hi lo)) as [[_ H]|[H' _]]; [exact H|lra].
  - right. split; [exact G|].
    assert (Hn : float_sub hi lo <= 0).
    { apply Qnot_lt_le. intros Hp. apply (proj1 (float_sub_pos hi lo)) in Hp. lra. }
    destruct (Qmax_cases 0 (float_sub hi lo)) as [[H' _]|[_ H]]; [lra|exact H].
Qed.

Lemma grid_comp (x y : Q) (M : Z) :
  x == y -> x == inject_Z M * 2 ^ (-1074) -> y == inject_Z M * 2 ^ (-1074).
Proof. intros E H. rewrite <- E. exact H. Qed.

Lemma Qmax_grid (a b : Q) :
  (exists M : Z, a == inject_Z M * 2 ^ (-1074)) ->
  (exists M : Z, b == inject_Z M * 2 ^ (-1074)) ->
  exists M : Z, Qmax a b == inject_Z M * 2 ^ (-1074).
Proof.
  intros [Ma Ha] [Mb Hb].
  destruct (Qmax_cases a b) as [[_ H]|[_ H]];
    [exists Mb|exists Ma]; rewrite H; assumption.
Qed.

Lemma Qmin_grid (a b : Q) :
  (exists M : Z, a == inject_Z M * 2 ^ (-1074)) ->
  (exists M : Z, b == inject_Z M * 2 ^ (-1074)) ->
  exists M : Z, Qmin a b == inject_Z M * 2 ^ (-1074).
Proof.
  intros [Ma Ha] [Mb Hb].
  destruct (Qmin_cases a b) as [[_ H]|[_ H]];
    [exists Ma|exists Mb]; rewrite H; assumption.
Qed.

(** On binary64 numbers the subtraction in [overlap] is the binary64
    subtraction. *)
Lemma overlap_binary64 (a_min a_max b_min b_max : Q) :
  binary64 a_min -> binary64 a_max -> binary64 b_min -> binary64 b_max ->
  b_min <= b_max ->
  exists v,
    overlap a_min a_max b_min b_max = Ok v /\
    v == Qmax 0 (fl (Qmin a_max b_max - Qmax a_min b_min)).
Proof.
  intros B1 B2 B3 B4 Hb. rewrite (overlap_ok _ _ _ _ Hb).
  eexists. split; [reflexivity|].
  destruct (Qmin_grid a_max b_max (binary64_grid _ B2) (binary64_grid _ B4))
    as [Mh Hh].
  destruct (Qmax_grid a_min b_min (binary64_grid _ B1) (binary64_grid _ B3))
    as [Ml Hl].
  assert (E : fl (Qmin a_max b_max - Qmax a_min b_min)
              == float_sub (Qmin a_max b_max) (Qmax a_min b_min)).
  { apply (fl_on_grid _ (Mh - Ml)). rewrite Hh, Hl. unfold Z.sub.
    rewrite inject_Z_plus, inject_Z_opp. ring. }
  rewrite E. reflexivity.
Qed.




(** ** [get_attr_lookup] and [find_attr_group_matching] *)

Lemma Qeq_bool_sym (a b : Q) : Qeq_bool a b = Qeq_bool b a.
Proof.
  destruct (Qeq_bool a b) eqn:E1, (Qeq_bool b a) eqn:E2; try reflexivity.
  - apply Qeq_bool_iff in E1. symmetry in E1. apply Qeq_bool_iff in E1. congruence.
  - apply Qeq_bool_iff in E2. symmetry in E2. apply Qeq_bool_iff in E2. congruence.
Qed.

Lemma Qeq_bool_trans_l (a b c : Q) :
  Qeq_bool a b = true -> Qeq_bool a c = Qeq_bool b c.
Proof.
  intros H. apply Qeq_bool_iff in H.
  destruct (Qeq_bool a c) eqn:E1, (Qeq_bool b c) eqn:E2; try reflexivity.
  - apply Qeq_bool_iff in E1. rewrite H in E1. apply Qeq_bool_iff in E1. congruence.
  - apply Qeq_bool_iff in E2. rewrite <- H in E2. apply Qeq_bool_iff in E2. congruence.
Qed.

Lemma Qeq_bool_refl (a : Q) : Qeq_bool a a = true.
Proof. apply Qeq_bool_iff. reflexivity. Qed.

Section Lookup.
Context {A : Type} (attr_of : A -> Q).

Lemma lookup_setdefault (k k0 : Q) (l : A) (d : list (Q * list A)) :
  lookup_getitem k (setdefault_append k0 l d)
  = if Qeq_bool k0 k
    then Ok (entry_list (lookup_getitem k d) ++ [l])
    else lookup_getitem k d.
Proof.
  induction d as [|[k' ls] d IH]; simpl.
  - destruct (Qeq_bool k0 k); reflexivity.
  - destruct (Qeq_bool k' k0) eqn:E; simpl.
    + rewrite <- (Qeq_bool_trans_l _ _ k E).
      destruct (Qeq_bool k' k); reflexivity.
    + destruct (Qeq_bool k' k) eqn:E'.
      * destruct (Qeq_bool k0 k) eqn:E''; [|reflexivity].
        rewrite (Qeq_bool_trans_l _ _ k0 E'), Qeq_bool_sym in E. congruence.
      * apply IH.
Qed.

Lemma lookup_fold (k : Q) (lines : list A) (d : list (Q * list A)) :
  lookup_getitem k
    (fold_left (fun result l => setdefault_append (attr_of l) l result) lines d)
  = let g := List.filter (fun l => Qeq_bool (attr_of l) k) lines in
    match lookup_getitem k d, g with
    | Ok ls, _ => Ok (ls ++ g)
    | Raise e, [] => Raise e
    | Raise _, _ => Ok g
    end.
Proof.
  revert d. induction lines as [|l lines IH]; intros d; simpl.
  - destruct (lookup_getitem k d); [rewrite app_nil_r|]; reflexivity.
  - rewrite IH, lookup_setdefault. simpl.
    destruct (Qeq_bool (attr_of l) k); simpl.
    + destruct (lookup_getitem k d); simpl; [rewrite <- app_assoc|]; reflexivity.
    + reflexivity.
Qed.

Lemma in_setdefault (k k0 : Q) (g : list A) (l : A) (d : list (Q * list A)) :
  In (k, g) (setdefault_append k0 l d) ->
  (exists g', In (k, g') d) \/ k = k0.
Proof.
  induction d as [|[k' ls] d IH]; simpl.
  - intros [H|[]]. inversion H. auto.
  - destruct (Qeq_bool k' k0); simpl.
    + intros [H|H]; [inversion H; subst|]; eauto.
    + intros [H|H]; [inversion H; subst; eauto|].
      destruct (IH H) as [[g' ?]|?]; eauto.
Qed.

Lemma distinct_setdefault (k0 : Q) (l : A) (d : list (Q * list A)) :
  distinct_keys d -> distinct_keys (setdefault_append k0 l d).
Proof.
  induction d as [|[k' ls] d IH]; simpl.
  - intros _. split; [intros ? ? []|exact I].
  - intros [Hk Hd]. destruct (Qeq_bool k' k0) eqn:E; simpl.
    + split; assumption.
    + split; [|auto].
      intros k g Hin. destruct (in_setdefault _ _ _ _ _ Hin) as [[g' ?]| ->]; eauto.
Qed.

Lemma distinct_get_attr_lookup (lines : list A) :
  distinct_keys (get_attr_lookup attr_of lines).
Proof.
  unfold get_attr_lookup.
  assert (H : distinct_keys (@nil (Q * list A))) by exact I.
  revert H. generalize (@nil (Q * list A)).
  induction lines as [|l lines IH]; intros d Hd; simpl; [assumption|].
  apply IH, distinct_setdefault, Hd.
Qed.

Lemma lookup_distinct (k : Q) (g : list A) (d : list (Q * list A)) :
  distinct_keys d -> In (k, g) d -> lookup_getitem k d = Ok g.
Proof.
  induction d as [|[k' ls] d IH]; simpl; [intros _ []|].
  intros [Hk Hd] [H|H].
  - inversion H; subst. rewrite Qeq_bool_refl. reflexivity.
  - rewrite (Hk _ _ H). auto.
Qed.

Lemma lookup_in (k : Q) (g : list A) (d : list (Q * list A)) :
  lookup_getitem k d = Ok g ->
  exists k', In (k', g) d /\ Qeq_bool k' k = true.
Proof.
  induction d as [|[k' ls] d IH]; simpl; [discriminate|].
  destruct (Qeq_bool k' k) eqn:E.
  - intros H; inversion H; subst. eauto.
  - intros H. destruct (IH H) as (k'' & ? & ?). eauto.
Qed.

(** The dictionary built by [get_attr_lookup] holds, under each key, the
    lines whose attribute has that value, in their order. *)
Lemma lookup_get_attr_lookup (k : Q) (lines : list A) :
  lookup_getitem k (get_attr_lookup attr_of lines)
  = match List.filter (fun l => Qeq_bool (attr_of l) k) lines with
    | [] => Raise KeyError
    | g => Ok g
    end.
Proof.
  unfold get_attr_lookup. rewrite lookup_fold. simpl.
  destruct (List.filter _ lines); reflexivity.
Qed.

Lemma entry_get_attr_lookup (k : Q) (g : list A) (lines : list A) :
  In (k, g) (get_attr_lookup attr_of lines) ->
  g = List.filter (fun l => Qeq_bool (attr_of l) k) lines /\ g <> [].
Proof.
  intros Hin.
  pose proof (lookup_distinct _ _ _ (distinct_get_attr_lookup lines) Hin) as H.
  rewrite lookup_get_attr_lookup in H.
  destruct (List.filter _ lines) eqn:E; [discriminate|].
  inversion H; subst. split; [reflexivity|discriminate].
Qed.
End Lookup.

Lemma Qeq_bool_trans_r (a b c : Q) :
  Qeq_bool b c = true -> Qeq_bool a b = Qeq_bool a c.
Proof.
  intros H. rewrite (Qeq_bool_sym a b), (Qeq_bool_sym a c).
  apply Qeq_bool_trans_l, H.
Qed.

Lemma group_matches_spec (regexes : list pattern) (g : list TextLine) :
  group_matches regexes g = true <->
  forall regex, In regex regexes -> exists l, In l g /\ regex (text l) = true.
Proof.
  unfold group_matches. rewrite forallb_forall.
  split; intros H regex Hin; specialize (H regex Hin).
  - apply existsb_exists in H. exact H.
  - apply existsb_exists. exact H.
Qed.

Section Locator.
Variables (regexes : list pattern) (attr_name : attr) (lines : list TextLine).

Let attr_of := fun l : TextLine => getattr l attr_name.
Let attr_lookup := get_attr_lookup attr_of lines.
Let found :=
  List.filter (fun g : Q * list TextLine => group_matches regexes (snd g))
    attr_lookup.

Lemma found_matching (k : Q) (g : list TextLine) :
  In (k, g) found -> matching_group regexes attr_name lines k.
Proof.
  intros Hin. apply filter_In in Hin as [Hin Hm]. simpl in Hm.
  apply entry_get_attr_lookup in Hin as [Hg Hne].
  change (g = group_of attr_name lines k) in Hg. subst g.
  split.
  - destruct (group_of attr_name lines k) as [|x g] eqn:E; [congruence|].
    assert (Hx : In x (group_of attr_name lines k)) by (rewrite E; left; reflexivity).
    apply filter_In in Hx as [Hx Hq]. apply Qeq_bool_iff in Hq. eauto.
  - apply group_matches_spec, Hm.
Qed.

Lemma matching_found (v : Q) :
  matching_group regexes attr_name lines v ->
  exists k, In (k, group_of attr_name lines v) found /\ k == v.
Proof.
  intros [(l & Hl & Hv) Hm].
  assert (Hg : In l (group_of attr_name lines v)).
  { apply filter_In. split; [assumption|]. apply Qeq_bool_iff, Hv. }
  pose proof (lookup_get_attr_lookup attr_of v lines) as Hlk.
  change (List.filter (fun l => Qeq_bool (attr_of l) v) lines)
    with (group_of attr_name lines v) in Hlk.
  destruct (group_of attr_name lines v) as [|x g] eqn:E; [destruct Hg|].
  apply lookup_in in Hlk as (k & Hin & Hk).
  exists k. split; [|apply Qeq_bool_iff, Hk].
  apply filter_In. split; [exact Hin|]. simpl.
  apply group_matches_spec. exact Hm.
Qed.

Lemma distinct_found : distinct_keys found.
Proof.
  unfold found. generalize (distinct_get_attr_lookup attr_of lines).
  fold attr_lookup. generalize attr_lookup. intros d.
  induction d as [|[k g] d IH]; simpl; [auto|].
  intros [Hk Hd]. destruct (group_matches regexes g); simpl; [|auto].
  split; [|auto]. intros k' g' Hin. apply filter_In in Hin as [Hin _]. eauto.
Qed.

Lemma find_attr_group_matching_found :
  find_attr_group_matching regexes attr_name lines
  = match found with
    | [] => Raise GroupNotFound
    | [(k, _)] => Ok k
    | _ => Raise (RuntimeError "more than one group found matching")
    end.
Proof.
  unfold find_attr_group_matching. fold attr_of. fold attr_lookup. fold found.
  destruct found as [|[k g] [|e f]]; reflexivity.
Qed.

(** C2: [find_attr_group_matching] returns the coordinate of the one group
    in which every pattern is matched; it raises [GroupNotFound] when no
    group matches, and a [RuntimeError] when two or more groups match. *)
Theorem find_attr_group_matching_trichotomy :
  ((forall v, ~ matching_group regexes attr_name lines v) ->
   find_attr_group_matching regexes attr_name lines = Raise GroupNotFound)
  /\
  (forall v,
      matching_group regexes attr_name lines v ->
      (forall v', matching_group regexes attr_name lines v' -> v' == v) ->
      exists k, find_attr_group_matching regexes attr_name lines = Ok k
                /\ k == v)
  /\
  (forall v1 v2,
      matching_group regexes attr_name lines v1 ->
      matching_group regexes attr_name lines v2 ->
      ~ v1 == v2 ->
      find_attr_group_matching regexes attr_name lines
      = Raise (RuntimeError "more than one group found matching")).
Proof.
  rewrite find_attr_group_matching_found.
  pose proof found_matching as Hfm.
  pose proof matching_found as Hmf.
  pose proof distinct_found as Hd.
  destruct found as [|[k g] [|[k2 g2] f]].
  - split; [reflexivity|split].
    + intros v Hv _. destruct (Hmf v Hv) as (? & [] & _).
    + intros v1 v2 Hv _ _. destruct (Hmf v1 Hv) as (? & [] & _).
  - split; [|split].
    + intros Hno. exfalso. apply (Hno k), (Hfm k g). left; reflexivity.
    + intros v Hv _. destruct (Hmf v Hv) as (k' & [Hin|[]] & Hk).
      inversion Hin; subst. eauto.
    + intros v1 v2 H1 H2 Hne. exfalso. apply Hne.
      destruct (Hmf v1 H1) as (k1 & [Hin1|[]] & Hk1).
      destruct (Hmf v2 H2) as (k2 & [Hin2|[]] & Hk2).
      inversion Hin1; inversion Hin2; subst. rewrite <- Hk1, <- Hk2. reflexivity.
  - split; [|split].
    + intros Hno. exfalso. apply (Hno k), (Hfm k g). left; reflexivity.
    + intros v _ Huniq. exfalso.
      assert (H1 : k == v) by (apply Huniq, (Hfm k g); left; reflexivity).
      assert (H2 : k2 == v) by (apply Huniq, (Hfm k2 g2); right; left; reflexivity).
      destruct Hd as [Hk _].
      specialize (Hk k2 g2 (or_introl eq_refl)).
      assert (Qeq_bool k k2 = true); [|congruence].
      apply Qeq_bool_iff. rewrite H1, H2. reflexivity.
    + reflexivity.
Qed.
End Locator.

Lemma matching_group_inv (regexes : list pattern) (a : attr)
  (lines : list TextLine) (v : Q) (regex : pattern) :
  matching_group regexes a lines v -> In regex regexes ->
  exists l, In l lines /\ getattr l a == v /\ regex (text l) = true.
Proof.
  intros [_ H] Hin. destruct (H regex Hin) as (l & Hl & Hr).
  apply filter_In in Hl as [Hl Hq]. apply Qeq_bool_iff in Hq. eauto.
Qed.

Lemma matching_group_intro (regexes : list pattern) (a : attr)
  (lines : list TextLine) (v : Q) :
  existsb (fun l => Qeq_bool (getattr l a) v) lines = true ->
  group_matches regexes (group_of a lines v) = true ->
  matching_group regexes a lines v.
Proof.
  intros He Hm. split.
  - apply existsb_exists in He as (l & Hl & Hq). apply Qeq_bool_iff in Hq. eauto.
  - apply group_matches_spec, Hm.
Qed.

Lemma find_attr_group_matching_trichotomy_witness :
  find_attr_group_matching name_patterns Y0 page_body = Raise GroupNotFound
  /\ (exists k, find_attr_group_matching name_patterns Y0 page_one = Ok k
                /\ k == 100)
  /\ find_attr_group_matching name_patterns Y0 page_two
     = Raise (RuntimeError "more than one group found matching").
Proof.
  split; [|split].
  - apply (proj1 (find_attr_group_matching_trichotomy name_patterns Y0 page_body)).
    intros v Hv.
    destruct (matching_group_inv _ _ _ _ (literal "Last Name") Hv) as (l & Hl & _ & Hr);
      [left; reflexivity|].
    simpl in Hl. destruct Hl as [<-|[<-|[]]]; discriminate Hr.
  - apply (proj1 (proj2 (find_attr_group_matching_trichotomy name_patterns Y0 page_one))).
    + apply matching_group_intro; reflexivity.
    + intros v Hv.
      destruct (matching_group_inv _ _ _ _ (literal "Last Name") Hv) as (l & Hl & Hq & Hr);
        [left; reflexivity|].
      simpl in Hl. destruct Hl as [<-|[<-|[<-|[<-|[]]]]]; try discriminate Hr.
      symmetry. exact Hq.
  - apply (proj2 (proj2 (find_attr_group_matching_trichotomy name_patterns Y0 page_two))
             100 200).
    + apply matching_group_intro; reflexivity.
    + apply matching_group_intro; reflexivity.
    + intros H. discriminate H.
Defined.

(** ** The store monad *)

Lemma bind_ok {A B} (m : M A) (f : A -> M B) (h h' : heap) (a : A) :
  m h = (Ok a, h') -> bind m f h = f a h'.
Proof. unfold bind. intros ->. reflexivity. Qed.

Lemma bind_raise {A B} (m : M A) (f : A -> M B) (h h' : heap) (e : exn) :
  m h = (Raise e, h') -> bind m f h = (Raise e, h').
Proof. unfold bind. intros ->. reflexivity. Qed.

Lemma bind_inv_ok {A B} (m : M A) (f : A -> M B) (h h2 : heap) (b : B) :
  bind m f h = (Ok b, h2) ->
  exists a h1, m h = (Ok a, h1) /\ f a h1 = (Ok b, h2).
Proof.
  unfold bind. destruct (m h) as [[a|e] h1]; [eauto|discriminate].
Qed.

(** ** [merge_overlapping_rows]: the loop *)

Lemma list_getitem_skipn {A} (xs : list A) (i : nat) :
  (i < length xs)%nat ->
  exists x, list_getitem xs i = Ok x /\ skipn i xs = x :: skipn (i + 1) xs.
Proof.
  revert i. induction xs as [|y xs IH]; intros i Hi; simpl in Hi; [lia|].
  destruct i as [|i].
  - exists y. split; reflexivity.
  - destruct (IH i ltac:(lia)) as (x & Hx & Hs).
    exists x. split; [exact Hx|exact Hs].
Qed.

(** The fuel given by [merge_overlapping_rows] is enough: the loop is the
    walk over the rows from index [i_row] on. *)
Lemma merge_loop_walk (a b : attr) (rows : list loc) (new_rows : loc)
  (fuel i_row : nat) (row : loc) (h : heap) :
  (length rows - i_row <= fuel)%nat ->
  merge_loop fuel a b rows new_rows row i_row h
  = walk_rows a b (skipn i_row rows) new_rows row h.
Proof.
  revert i_row row h. induction fuel as [|fuel IH]; intros i row h Hf.
  - simpl. destruct (Nat.ltb_spec i (length rows)); [lia|].
    rewrite skipn_all2 by lia. reflexivity.
  - simpl. destruct (Nat.ltb_spec i (length rows)) as [Hi|Hi].
    + destruct (list_getitem_skipn rows i Hi) as (x & Hx & ->).
      simpl. rewrite Hx. unfold bind at 1. simpl.
      unfold bind. destruct (merge_step a b new_rows row x h) as [[row'|e] h'];
        [|reflexivity].
      apply IH. lia.
    + rewrite skipn_all2 by lia. reflexivity.
Qed.

(** ** Extents *)

Lemma Qltb_lt (a b : Q) : Qltb a b = true <-> a < b.
Proof.
  unfold Qltb. rewrite Qlt_alt. destruct (a ?= b); split; congruence.
Qed.

Lemma Qltb_gt_compare (a b : Q) :
  Qltb a b = match b ?= a with Gt => true | _ => false end.
Proof.
  unfold Qltb. rewrite <- (Qcompare_antisym b a). destruct (b ?= a); reflexivity.
Qed.

Lemma min_loop_num_lt (x : Q) (xs : list Q) :
  min_loop num_lt x xs = Ok (least x xs).
Proof.
  unfold least. revert x. induction xs as [|y xs IH]; intros x; simpl; [reflexivity|].
  rewrite IH. f_equal. f_equal.
  rewrite Qltb_gt_compare. unfold Qmin, GenericMinMax.gmin.
  destruct (x ?= y); reflexivity.
Qed.

Lemma min_loop_num_gt (x : Q) (xs : list Q) :
  min_loop num_gt x xs = Ok (greatest x xs).
Proof.
  unfold greatest. revert x. induction xs as [|y xs IH]; intros x; simpl; [reflexivity|].
  rewrite IH. f_equal. f_equal.
  unfold Qgtb, Qltb, Qmax, GenericMinMax.gmax.
  destruct (x ?= y); reflexivity.
Qed.

Lemma least_le (x : Q) (xs : list Q) : least x xs <= x.
Proof.
  unfold least. revert x. induction xs as [|y xs IH]; intros x; simpl.
  - apply Qle_refl.
  - eapply Qle_trans; [apply IH|]. apply Q.le_min_l.
Qed.

Lemma greatest_ge (x : Q) (xs : list Q) : x <= greatest x xs.
Proof.
  unfold greatest. revert x. induction xs as [|y xs IH]; intros x; simpl.
  - apply Qle_refl.
  - eapply Qle_trans; [|apply IH]. apply Q.le_max_l.
Qed.

Lemma read_lines_resolve (h : heap) (d : dict loc) (v : row_value) :
  resolve_items h d = Some v ->
  map_M read_line (dict_values d) h = (Ok (dict_values v), h).
Proof.
  revert v. induction d as [|[k r] d IH]; intros v; simpl.
  - intros [= <-]. reflexivity.
  - destruct (h !! r) as [[l| |]|] eqn:Er; try discriminate.
    destruct (resolve_items h d) as [v'|]; [|discriminate].
    intros [= <-]. simpl.
    unfold bind at 1. unfold read_line at 1. rewrite Er.
    unfold bind at 1. rewrite (IH v' eq_refl). reflexivity.
Qed.

Lemma read_dict_value (h : heap) (r : loc) (v : row_value) :
  value_at h r = Some v ->
  exists d, h !! r = Some (ODict d) /\ resolve_items h d = Some v.
Proof.
  unfold value_at. destruct (h !! r) as [[| |d]|]; try discriminate. eauto.
Qed.

Lemma get_row_extent_value (a b : attr) (h : heap) (r : loc) (v : row_value) :
  value_at h r = Some v ->
  get_row_extent a b r h = (extent_outcome a b v, h).
Proof.
  intros Hv. destruct (read_dict_value _ _ _ Hv) as (d & Hd & Hr).
  unfold get_row_extent, extent_outcome, extent_of.
  unfold bind at 1. unfold read_dict. rewrite Hd.
  unfold bind at 1. rewrite (read_lines_resolve _ _ _ Hr).
  destruct (dict_values v) as [|l ls]; [reflexivity|].
  unfold bind, lift. simpl. rewrite min_loop_num_lt, min_loop_num_gt. reflexivity.
Qed.

Lemma truthy_overlap (lo hi lo' hi' : Q) :
  truthy (Qmax 0 (float_sub (Qmin hi hi') (Qmax lo lo')))
  = extents_overlap (lo, hi) (lo', hi').
Proof.
  unfold truthy, extents_overlap. simpl.
  destruct (overlap_value (Qmax lo lo') (Qmin hi hi'))
    as [(Hlt & Hv & Hp)|(Hle & Hv)].
  - rewrite (proj2 (Qltb_lt _ _) Hlt). apply negb_true_iff.
    destruct (Qeq_bool _ 0) eqn:E'; [|reflexivity].
    apply Qeq_bool_iff in E'. exfalso. rewrite Hv in E'. lra.
  - destruct (Qltb (Qmax lo lo') (Qmin hi hi')) eqn:E.
    + apply Qltb_lt in E. lra.
    + apply negb_false_iff, Qeq_bool_iff. exact Hv.
Qed.

Lemma row_ok_spec (a b : attr) (h : heap) (r : loc) :
  row_ok a b h r = true ->
  exists v e, value_at h r = Some v /\ extent_of a b v = Some e
              /\ fst e <= snd e
              /\ Forall (fun l => getattr l a <= getattr l b) (dict_values v).
Proof.
  unfold row_ok. destruct (value_at h r) as [[|[k l] v]|]; try discriminate.
  intros H. exists ((k, l) :: v). eexists. split; [reflexivity|].
  split; [reflexivity|].
  assert (HF : Forall (fun l0 => getattr l0 a <= getattr l0 b) (l :: dict_values v)).
  { apply Forall_forall. intros x Hx. apply Qle_bool_iff.
    rewrite forallb_forall in H. apply H. apply list_elem_of_In, Hx. }
  split; [|exact HF]. simpl.
  eapply Qle_trans; [apply least_le|].
  eapply Qle_trans; [|apply greatest_ge].
  inversion HF; assumption.
Qed.

Lemma row_ok_intro (a b : attr) (h : heap) (r : loc) (v : row_value) :
  value_at h r = Some v -> v <> [] ->
  Forall (fun l => getattr l a <= getattr l b) (dict_values v) ->
  row_ok a b h r = true.
Proof.
  intros Hv Hne HF. unfold row_ok. rewrite Hv.
  destruct v as [|[k l] v]; [congruence|].
  apply forallb_forall. intros x Hx. apply Qle_bool_iff.
  rewrite Forall_forall in HF. apply HF, list_elem_of_In, Hx.
Qed.

(** What one turn of the loop does: the documented overlap test decides
    between merging and closing the accumulator. *)
Lemma merge_step_value (a b : attr) (h : heap) (new_rows row next_row : loc)
  (v v' : row_value) :
  value_at h row = Some v ->
  row_ok a b h row = true ->
  value_at h next_row = Some v' ->
  row_ok a b h next_row = true ->
  merge_step a b new_rows row next_row h
  = if rows_overlap a b v v'
    then (let* _ := py_update row next_row in ret row)%M h
    else (let* _ := py_append new_rows row in ret next_row)%M h.
Proof.
  intros Hv Hok Hv' Hok'.
  destruct (row_ok_spec _ _ _ _ Hok) as (w & [lo hi] & Hw & He & _ & _).
  destruct (row_ok_spec _ _ _ _ Hok') as (w' & [lo' hi'] & Hw' & He' & Hle & _).
  rewrite Hv in Hw. rewrite Hv' in Hw'. injection Hw as <-. injection Hw' as <-.
  unfold merge_step.
  rewrite (bind_ok _ _ _ _ _ (eq_trans (get_row_extent_value a b h row v Hv)
             ltac:(unfold extent_outcome; rewrite He; reflexivity))).
  rewrite (bind_ok _ _ _ _ _ (eq_trans (get_row_extent_value a b h next_row v' Hv')
             ltac:(unfold extent_outcome; rewrite He'; reflexivity))).
  simpl in Hle.
  unfold bind at 1, lift. rewrite (overlap_ok _ _ _ _ Hle).
  rewrite truthy_overlap. unfold rows_overlap. rewrite He, He'.
  destruct (extents_overlap (lo, hi) (lo', hi')); reflexivity.
Qed.

(** ** Writes that leave the [TextLine] objects alone *)

Lemma py_update_dicts (h : heap) (row next_row : loc) (d d' : dict loc) :
  h !! row = Some (ODict d) -> h !! next_row = Some (ODict d') ->
  py_update row next_row h = (Ok tt, <[row := ODict (dict_update d d')]> h).
Proof.
  intros Hd Hd'. unfold py_update, bind, read_dict, write.
  rewrite Hd', Hd. reflexivity.
Qed.

Lemma py_append_list (h : heap) (r x : loc) (xs : list loc) :
  h !! r = Some (OList xs) ->
  py_append r x h = (Ok tt, <[r := OList (xs ++ [x])]> h).
Proof.
  intros Hr. unfold py_append, bind, read_list, write. rewrite Hr. reflexivity.
Qed.

Lemma lookup_insert_line (h : heap) (x r : loc) (o : obj) (l : TextLine) :
  (forall l', h !! x <> Some (OTextLine l')) ->
  (forall l', o <> OTextLine l') ->
  <[x := o]> h !! r = Some (OTextLine l) <-> h !! r = Some (OTextLine l).
Proof.
  intros Hx Ho. destruct (decide (x = r)) as [<-|Hne].
  - destruct (decide (x < length h)%nat) as [Hlt|Hge].
    + rewrite list_lookup_insert_eq by exact Hlt.
      split; intros H; [injection H as ->; destruct (Ho l eq_refl)
                       |destruct (Hx l H)].
    + rewrite list_insert_ge by lia. reflexivity.
  - rewrite list_lookup_insert_ne by exact Hne. reflexivity.
Qed.

Lemma resolve_items_insert (h : heap) (x : loc) (o : obj) (d : dict loc) :
  (forall l', h !! x <> Some (OTextLine l')) ->
  (forall l', o <> OTextLine l') ->
  resolve_items (<[x := o]> h) d = resolve_items h d.
Proof.
  intros Hx Ho. induction d as [|[k r] d IH]; simpl; [reflexivity|].
  rewrite IH.
  destruct (h !! r) as [[l| |]|] eqn:E.
  - rewrite (proj2 (lookup_insert_line h x r o l Hx Ho) E). reflexivity.
  - destruct (<[x:=o]> h !! r) as [[l| |]|] eqn:E'; try reflexivity.
    apply (lookup_insert_line h x r o l Hx Ho) in E'. congruence.
  - destruct (<[x:=o]> h !! r) as [[l| |]|] eqn:E'; try reflexivity.
    apply (lookup_insert_line h x r o l Hx Ho) in E'. congruence.
  - destruct (<[x:=o]> h !! r) as [[l| |]|] eqn:E'; try reflexivity.
    apply (lookup_insert_line h x r o l Hx Ho) in E'. congruence.
Qed.

Lemma value_at_insert_ne (h : heap) (x r : loc) (o : obj) :
  (forall l', h !! x <> Some (OTextLine l')) ->
  (forall l', o <> OTextLine l') ->
  x <> r ->
  value_at (<[x := o]> h) r = value_at h r.
Proof.
  intros Hx Ho Hne. unfold value_at.
  rewrite list_lookup_insert_ne by exact Hne.
  destruct (h !! r) as [[| |d]|]; try reflexivity.
  apply resolve_items_insert; assumption.
Qed.

Lemma value_at_insert_dict (h : heap) (x : loc) (d d2 : dict loc) :
  h !! x = Some (ODict d) ->
  value_at (<[x := ODict d2]> h) x = resolve_items h d2.
Proof.
  intros Hx. unfold value_at.
  rewrite list_lookup_insert_eq by (eapply lookup_lt_Some, Hx).
  apply resolve_items_insert; [rewrite Hx|]; discriminate.
Qed.

(** ** Dictionaries *)

Section Dict.
Context {V : Type}.

Lemma dict_get_setitem (k key : string) (v : V) (d : dict V) :
  dict_get k (dict_setitem key v d)
  = if String.eqb key k then Some v else dict_get k d.
Proof.
  induction d as [|[k' w] d IH]; simpl.
  - reflexivity.
  - destruct (String.eqb k' key) eqn:E; simpl.
    + apply String.eqb_eq in E. subst k'.
      destruct (String.eqb key k); reflexivity.
    + rewrite IH. destruct (String.eqb k' k) eqn:E'; [|reflexivity].
      apply String.eqb_eq in E'. subst k'. rewrite String.eqb_sym, E. reflexivity.
Qed.

Lemma dict_get_None (k : string) (d : dict V) :
  ~ In k (dict_keys d) -> dict_get k d = None.
Proof.
  induction d as [|[k' w] d IH]; simpl; [reflexivity|].
  intros H. destruct (String.eqb k' k) eqn:E.
  - apply String.eqb_eq in E. tauto.
  - apply IH. tauto.
Qed.

(** [d.update(other)]: the entries of [other] win. *)
Lemma dict_get_update (k : string) (d other : dict V) :
  NoDup (dict_keys other) ->
  dict_get k (dict_update d other)
  = match dict_get k other with
    | Some v => Some v
    | None => dict_get k d
    end.
Proof.
  unfold dict_update. revert d.
  induction other as [|[k' w] other IH]; intros d Hnd; simpl; [reflexivity|].
  apply NoDup_cons in Hnd as [Hnotin Hnd'].
  rewrite (IH _ Hnd'), dict_get_setitem.
  destruct (String.eqb k' k) eqn:E; [|reflexivity].
  apply String.eqb_eq in E. subst k'.
  rewrite dict_get_None; [reflexivity|].
  intros Hin. apply Hnotin, list_elem_of_In, Hin.
Qed.

Lemma in_keys_setitem (k key : string) (v : V) (d : dict V) :
  In k (dict_keys (dict_setitem key v d)) <-> k = key \/ In k (dict_keys d).
Proof.
  induction d as [|[k' w] d IH]; simpl.
  - intuition congruence.
  - destruct (String.eqb k' key) eqn:E; simpl.
    + apply String.eqb_eq in E. subst k'. intuition congruence.
    + rewrite IH. intuition congruence.
Qed.

Lemma in_keys_update (k : string) (d other : dict V) :
  In k (dict_keys (dict_update d other))
  <-> In k (dict_keys d) \/ In k (dict_keys other).
Proof.
  unfold dict_update. revert d.
  induction other as [|[k' w] other IH]; intros d; simpl; [tauto|].
  rewrite IH, in_keys_setitem. intuition congruence.
Qed.

Lemma in_values_setitem (x : V) (key : string) (v : V) (d : dict V) :
  In x (dict_values (dict_setitem key v d)) -> x = v \/ In x (dict_values d).
Proof.
  induction d as [|[k' w] d IH]; simpl.
  - intuition congruence.
  - destruct (String.eqb k' key); simpl; [intuition congruence|].
    intros [H|H]; [auto|]. destruct (IH H); auto.
Qed.

Lemma in_values_update (x : V) (d other : dict V) :
  In x (dict_values (dict_update d other))
  -> In x (dict_values d) \/ In x (dict_values other).
Proof.
  unfold dict_update. revert d.
  induction other as [|[k' w] other IH]; intros d; simpl; [tauto|].
  intros H. destruct (IH _ H) as [H'|H']; [|auto].
  destruct (in_values_setitem _ _ _ _ H'); auto.
Qed.

Lemma setitem_not_nil (key : string) (v : V) (d : dict V) :
  dict_setitem key v d <> [].
Proof. destruct d as [|[k w] d]; simpl; [|destruct (String.eqb k key)]; discriminate. Qed.

Lemma update_not_nil (d other : dict V) : d <> [] -> dict_update d other <> [].
Proof.
  unfold dict_update. revert d.
  induction other as [|[k' w] other IH]; intros d Hd; simpl; [exact Hd|].
  apply IH, setitem_not_nil.
Qed.
End Dict.

Lemma resolve_items_keys (h : heap) (d : dict loc) (v : row_value) :
  resolve_items h d = Some v -> dict_keys v = dict_keys d.
Proof.
  revert v. induction d as [|[k r] d IH]; intros v; simpl.
  - intros [= <-]. reflexivity.
  - destruct (h !! r) as [[l| |]|]; try discriminate.
    destruct (resolve_items h d) as [v'|]; [|discriminate].
    intros [= <-]. simpl. f_equal. apply IH. reflexivity.
Qed.

Lemma resolve_items_setitem (h : heap) (d : dict loc) (v : row_value)
  (k : string) (r : loc) (l : TextLine) :
  resolve_items h d = Some v -> h !! r = Some (OTextLine l) ->
  resolve_items h (dict_setitem k r d) = Some (dict_setitem k l v).
Proof.
  intros Hd Hr. revert v Hd. induction d as [|[k' r'] d IH]; intros v; simpl.
  - intros [= <-]. simpl. rewrite Hr. reflexivity.
  - destruct (h !! r') as [[l'| |]|] eqn:E; try discriminate.
    destruct (resolve_items h d) as [v'|] eqn:E'; [|discriminate].
    intros [= <-]. simpl. destruct (String.eqb k' k); simpl.
    + rewrite Hr, E'. reflexivity.
    + rewrite E, (IH v' eq_refl). reflexivity.
Qed.

Lemma resolve_items_update (h : heap) (d d' : dict loc) (v v' : row_value) :
  resolve_items h d = Some v -> resolve_items h d' = Some v' ->
  resolve_items h (dict_update d d') = Some (dict_update v v').
Proof.
  unfold dict_update. intros Hd Hd'. revert d v v' Hd Hd'.
  induction d' as [|[k r] d' IH]; intros d v v' Hd; simpl.
  - intros [= <-]. exact Hd.
  - destruct (h !! r) as [[l| |]|] eqn:E; try discriminate.
    destruct (resolve_items h d') as [w|] eqn:E'; [|discriminate].
    intros [= <-]. simpl. apply IH; [|reflexivity].
    apply resolve_items_setitem; assumption.
Qed.

(** ** Rows under writes *)

Lemma row_ok_value (a b : attr) (h h' : heap) (r : loc) :
  value_at h' r = value_at h r -> row_ok a b h' r = row_ok a b h r.
Proof. unfold row_ok. intros ->. reflexivity. Qed.

Lemma value_at_dict (h : heap) (r : loc) (v : row_value) :
  value_at h r = Some v -> exists d, h !! r = Some (ODict d).
Proof. intros H. destruct (read_dict_value _ _ _ H) as (d & ? & _). eauto. Qed.

Lemma values_at_ext (h h' : heap) (rs : list loc) :
  (forall r, In r rs -> value_at h' r = value_at h r) ->
  values_at h' rs = values_at h rs.
Proof.
  induction rs as [|r rs IH]; intros H; simpl; [reflexivity|].
  rewrite (H r (or_introl eq_refl)), IH; [reflexivity|].
  intros r' Hr'. apply H. right. exact Hr'.
Qed.

Lemma values_at_app (h : heap) (rs rs' : list loc) :
  values_at h (rs ++ rs')
  = match values_at h rs, values_at h rs' with
    | Some vs, Some vs' => Some (vs ++ vs')
    | _, _ => None
    end.
Proof.
  induction rs as [|r rs IH]; simpl.
  - destruct (values_at h rs'); reflexivity.
  - rewrite IH. destruct (value_at h r), (values_at h rs), (values_at h rs');
      reflexivity.
Qed.

Lemma values_at_in (h : heap) (rs : list loc) (vs : list row_value) (r : loc) :
  values_at h rs = Some vs -> In r rs -> exists v, value_at h r = Some v.
Proof.
  revert vs. induction rs as [|r' rs IH]; intros vs; simpl; [intros _ []|].
  destruct (value_at h r') as [v|] eqn:E; [|discriminate].
  destruct (values_at h rs) as [vs'|]; [|discriminate].
  intros _ [<-|Hin]; eauto.
Qed.

Lemma resolve_items_app (h ext : heap) (d : dict loc) (v : row_value) :
  resolve_items h d = Some v -> resolve_items (h ++ ext) d = Some v.
Proof.
  revert v. induction d as [|[k r] d IH]; intros v; simpl; [auto|].
  destruct (h !! r) as [[l| |]|] eqn:E; try discriminate.
  destruct (resolve_items h d) as [v'|]; [|discriminate].
  intros [= <-].
  rewrite (lookup_app_l_Some _ _ _ _ E), (IH v' eq_refl). reflexivity.
Qed.

Lemma value_at_app (h ext : heap) (r : loc) (v : row_value) :
  value_at h r = Some v -> value_at (h ++ ext) r = Some v.
Proof.
  intros H. destruct (read_dict_value _ _ _ H) as (d & Hd & Hr).
  unfold value_at. rewrite (lookup_app_l_Some _ _ _ _ Hd).
  apply resolve_items_app, Hr.
Qed.

Lemma values_at_app_heap (h ext : heap) (rs : list loc) (vs : list row_value) :
  values_at h rs = Some vs -> values_at (h ++ ext) rs = Some vs.
Proof.
  revert vs. induction rs as [|r rs IH]; intros vs; simpl; [auto|].
  destruct (value_at h r) as [v|] eqn:E; [|discriminate].
  destruct (values_at h rs) as [vs'|]; [|discriminate].
  intros [= <-]. rewrite (value_at_app _ _ _ _ E), (IH vs' eq_refl). reflexivity.
Qed.

Lemma row_ok_app (a b : attr) (h ext : heap) (r : loc) :
  row_ok a b h r = true -> row_ok a b (h ++ ext) r = true.
Proof.
  intros H. destruct (row_ok_spec _ _ _ _ H) as (v & _ & Hv & _).
  rewrite <- H. apply row_ok_value.
  rewrite Hv. apply value_at_app, Hv.
Qed.

(** Writing a list object changes the value of no row. *)
Lemma value_at_insert_list (h : heap) (x r : loc) (xs ys : list loc) :
  h !! x = Some (OList xs) ->
  value_at (<[x := OList ys]> h) r = value_at h r.
Proof.
  intros Hx. destruct (decide (x = r)) as [<-|Hne].
  - unfold value_at.
    rewrite list_lookup_insert_eq by (eapply lookup_lt_Some, Hx).
    rewrite Hx. reflexivity.
  - apply value_at_insert_ne; [rewrite Hx; discriminate|discriminate|exact Hne].
Qed.

(** Updating a row dictionary changes the value of no other row. *)
Lemma value_at_insert_other (h : heap) (x r : loc) (d d2 : dict loc) :
  h !! x = Some (ODict d) -> x <> r ->
  value_at (<[x := ODict d2]> h) r = value_at h r.
Proof.
  intros Hx Hne.
  apply value_at_insert_ne; [rewrite Hx; discriminate|discriminate|exact Hne].
Qed.

Lemma merge_step_overlap (a b : attr) (h : heap) (new_rows row next_row : loc)
  (v v' : row_value) :
  value_at h row = Some v -> row_ok a b h row = true ->
  value_at h next_row = Some v' -> row_ok a b h next_row = true ->
  rows_overlap a b v v' = true ->
  exists d d',
    h !! row = Some (ODict d) /\
    h !! next_row = Some (ODict d') /\
    merge_step a b new_rows row next_row h
    = (Ok row, <[row := ODict (dict_update d d')]> h) /\
    value_at (<[row := ODict (dict_update d d')]> h) row
    = Some (dict_update v v').
Proof.
  intros Hv Hok Hv' Hok' Hov.
  destruct (read_dict_value _ _ _ Hv) as (d & Hd & Hr).
  destruct (read_dict_value _ _ _ Hv') as (d' & Hd' & Hr').
  exists d, d'. split; [exact Hd|]. split; [exact Hd'|]. split.
  - rewrite (merge_step_value a b h new_rows row next_row v v' Hv Hok Hv' Hok'), Hov.
    rewrite (bind_ok _ _ _ _ _ (py_update_dicts h row next_row d d' Hd Hd')).
    reflexivity.
  - rewrite (value_at_insert_dict h row d _ Hd).
    apply resolve_items_update; assumption.
Qed.

Lemma merge_step_apart (a b : attr) (h : heap) (new_rows row next_row : loc)
  (v v' : row_value) (done : list loc) :
  value_at h row = Some v -> row_ok a b h row = true ->
  value_at h next_row = Some v' -> row_ok a b h next_row = true ->
  rows_overlap a b v v' = false ->
  h !! new_rows = Some (OList done) ->
  merge_step a b new_rows row next_row h
  = (Ok next_row, <[new_rows := OList (done ++ [row])]> h).
Proof.
  intros Hv Hok Hv' Hok' Hov Hn.
  rewrite (merge_step_value a b h new_rows row next_row v v' Hv Hok Hv' Hok'), Hov.
  rewrite (bind_ok _ _ _ _ _ (py_append_list h new_rows row done Hn)).
  reflexivity.
Qed.

(** A merged row is again a row the loop can handle. *)
Lemma row_ok_update (a b : attr) (h : heap) (row next_row : loc)
  (d d' : dict loc) :
  row_ok a b h row = true -> row_ok a b h next_row = true ->
  h !! row = Some (ODict d) -> h !! next_row = Some (ODict d') ->
  row_ok a b (<[row := ODict (dict_update d d')]> h) row = true.
Proof.
  intros Hok Hok' Hd Hd'.
  destruct (row_ok_spec _ _ _ _ Hok) as (v & _ & Hv & _ & _ & HF).
  destruct (row_ok_spec _ _ _ _ Hok') as (v' & _ & Hv' & _ & _ & HF').
  destruct (read_dict_value _ _ _ Hv) as (d0 & Hd0 & Hr).
  destruct (read_dict_value _ _ _ Hv') as (d0' & Hd0' & Hr').
  rewrite Hd in Hd0. rewrite Hd' in Hd0'. injection Hd0 as <-. injection Hd0' as <-.
  apply (row_ok_intro a b _ row (dict_update v v')).
  - rewrite (value_at_insert_dict h row d _ Hd).
    apply resolve_items_update; assumption.
  - apply update_not_nil. intros ->.
    unfold row_ok in Hok. rewrite Hv in Hok. discriminate.
  - apply Forall_forall. intros x Hx. apply list_elem_of_In in Hx.
    rewrite Forall_forall in HF, HF'.
    destruct (in_values_update _ _ _ Hx) as [H|H];
      [apply HF|apply HF']; apply list_elem_of_In, H.
Qed.

(** ** The loop against the documented walk *)

Lemma walk_refines (a b : attr) (new_rows : loc) (rest : list loc) :
  forall (row : loc) (h : heap) (done : list loc) (v : row_value)
         (vs : list row_value),
    h !! new_rows = Some (OList done) ->
    NoDup (row :: rest) ->
    Forall (fun r => row_ok a b h r = true) (row :: rest) ->
    value_at h row = Some v ->
    values_at h rest = Some vs ->
    exists last h' outs,
      walk_rows a b rest new_rows row h = (Ok last, h') /\
      h' !! new_rows = Some (OList (done ++ outs)) /\
      values_at h' (outs ++ [last]) = Some (merge_walk a b v vs) /\
      (forall r, ~ In r (row :: rest) -> value_at h' r = value_at h r).
Proof.
  induction rest as [|next rest IH]; intros row h done v vs Hn Hnd Hok Hv Hvs.
  - simpl in Hvs. injection Hvs as <-.
    exists row, h, []. simpl. rewrite app_nil_r, Hv. auto.
  - simpl in Hvs.
    destruct (value_at h next) as [v'|] eqn:Hv'; [|discriminate].
    destruct (values_at h rest) as [vs'|] eqn:Hvs'; [|discriminate].
    injection Hvs as <-.
    apply NoDup_cons in Hnd as [Hrow Hnd].
    pose proof Hnd as Hnd'. apply NoDup_cons in Hnd' as [Hnext Hnd'].
    inversion Hok as [|? ? Hokr Hok1]; subst.
    inversion Hok1 as [|? ? Hokn Hok2]; subst.
    assert (Hrn : row <> next).
    { intros ->. apply Hrow. left. }
    simpl. destruct (rows_overlap a b v v') eqn:Hov.
    + destruct (merge_step_overlap a b h new_rows row next v v' Hv Hokr Hv' Hokn Hov)
        as (d & d' & Hd & Hd' & Hstep & Hval).
      set (h2 := <[row := ODict (dict_update d d')]> h) in *.
      assert (Hother : forall r, row <> r -> value_at h2 r = value_at h r).
      { intros r Hr. apply (value_at_insert_other h row r d _ Hd Hr). }
      assert (Hrest : forall r, In r rest -> row <> r).
      { intros r Hin ->. apply Hrow. right. apply list_elem_of_In, Hin. }
      destruct (IH row h2 done (dict_update v v') vs')
        as (last & h' & outs & Hw & Hn' & Hvals & Hfr).
      * unfold h2. rewrite list_lookup_insert_ne; [exact Hn|].
        intros ->. rewrite Hd in Hn. discriminate.
      * apply NoDup_cons. split; [|exact Hnd'].
        intros Hin. apply Hrow. right. exact Hin.
      * constructor.
        -- apply (row_ok_update a b h row next d d'); assumption.
        -- apply Forall_forall. intros r Hr.
           rewrite (row_ok_value a b h h2 r).
           ++ rewrite Forall_forall in Hok2. apply Hok2, Hr.
           ++ apply Hother, Hrest, list_elem_of_In, Hr.
      * exact Hval.
      * rewrite <- Hvs'. apply values_at_ext. intros r Hr. apply Hother, Hrest, Hr.
      * exists last, h', outs. rewrite (bind_ok _ _ _ _ _ Hstep).
        split; [exact Hw|]. split; [exact Hn'|]. split; [exact Hvals|].
        intros r Hr. rewrite Hfr.
        -- apply Hother. intros ->. apply Hr. left. reflexivity.
        -- intros [<-|Hin]; apply Hr; [left; reflexivity|right; right; exact Hin].
    + pose proof (merge_step_apart a b h new_rows row next v v' done
                    Hv Hokr Hv' Hokn Hov Hn) as Hstep.
      set (h2 := <[new_rows := OList (done ++ [row])]> h) in *.
      assert (Hsame : forall r, value_at h2 r = value_at h r).
      { intros r. apply (value_at_insert_list h new_rows r done _ Hn). }
      destruct (IH next h2 (done ++ [row]) v' vs')
        as (last & h' & outs & Hw & Hn' & Hvals & Hfr).
      * unfold h2. apply list_lookup_insert_eq. eapply lookup_lt_Some, Hn.
      * exact Hnd.
      * apply Forall_forall. intros r Hr.
        rewrite (row_ok_value a b h h2 r (Hsame r)).
        rewrite Forall_forall in Hok1. apply Hok1, Hr.
      * rewrite Hsame. exact Hv'.
      * rewrite <- Hvs'. apply values_at_ext. intros r _. apply Hsame.
      * exists last, h', (row :: outs). rewrite (bind_ok _ _ _ _ _ Hstep).
        split; [exact Hw|]. split; [rewrite Hn', <- app_assoc; reflexivity|].
        split.
        -- simpl. rewrite Hvals, Hfr, Hsame, Hv; [reflexivity|].
           intros Hin. apply Hrow, list_elem_of_In, Hin.
        -- intros r Hr. rewrite Hfr; [apply Hsame|].
           intros Hin. apply Hr. right. exact Hin.
Qed.

Lemma values_at_ok (a b : attr) (h : heap) (rs : list loc) :
  Forall (fun r => row_ok a b h r = true) rs ->
  exists vs, values_at h rs = Some vs.
Proof.
  induction 1 as [|r rs Hr _ [vs IH]]; simpl; [eauto|].
  destruct (row_ok_spec _ _ _ _ Hr) as (v & _ & -> & _).
  rewrite IH. eauto.
Qed.

Lemma merge_overlapping_rows_unfold (a b : attr) (h : heap) (rows : loc)
  (row : loc) (rest : list loc) :
  h !! rows = Some (OList (row :: rest)) ->
  merge_overlapping_rows rows a b h
  = (let* last := walk_rows a b rest (length h) row in
     let* _ := py_append (length h) last in
     ret (length h))%M (h ++ [OList []]).
Proof.
  intros Hr. unfold merge_overlapping_rows.
  unfold bind at 1. unfold read_list. rewrite Hr.
  unfold bind at 1. unfold alloc.
  unfold bind at 1 3.
  rewrite merge_loop_walk by (simpl; lia).
  reflexivity.
Qed.

(** C6: [merge_overlapping_rows] is the documented walk.  On rows that are
    distinct objects, not empty and made of well-formed fragments, the rows
    it returns have the values [merge_rows_spec] computes from the values
    of the given rows: an overlapping next row is merged into the
    accumulator, its entries winning on a key collision; otherwise the
    accumulator is closed and the next row takes over; the last accumulator
    is always added; and an empty list is returned as it is. *)
Theorem merge_overlapping_rows_walk (a b : attr) (h : heap) (rows : loc)
  (rs : list loc) :
  h !! rows = Some (OList rs) ->
  NoDup rs ->
  forallb (row_ok a b h) rs = true ->
  (exists out h' outs vs,
      merge_overlapping_rows rows a b h = (Ok out, h') /\
      h' !! out = Some (OList outs) /\
      values_at h rs = Some vs /\
      values_at h' outs = Some (merge_rows_spec a b vs) /\
      (rs = [] -> out = rows /\ h' = h))
  /\
  (forall (acc next : row_value) (k : string),
      NoDup (dict_keys next) ->
      dict_get k (dict_update acc next)
      = match dict_get k next with
        | Some l => Some l
        | None => dict_get k acc
        end).
Proof.
  intros Hr Hnd Hok. split; [|intros acc next k; apply dict_get_update].
  assert (HF : Forall (fun r => row_ok a b h r = true) rs).
  { apply Forall_forall. intros r Hin. rewrite forallb_forall in Hok.
    apply Hok, list_elem_of_In, Hin. }
  destruct rs as [|row rest].
  - exists rows, h, [], []. unfold merge_overlapping_rows, bind, read_list.
    rewrite Hr. simpl. repeat split; reflexivity.
  - destruct (values_at_ok a b h _ HF) as [vs Hvs].
    pose proof Hvs as Hvs0. simpl in Hvs.
    destruct (value_at h row) as [v|] eqn:Hv; [|discriminate].
    destruct (values_at h rest) as [vs'|] eqn:Hvs'; [|discriminate].
    injection Hvs as <-.
    set (h1 := h ++ [OList []]).
    destruct (walk_refines a b (length h) rest row h1 [] v vs')
      as (last & h' & outs & Hw & Hn & Hvals & _).
    + unfold h1. rewrite lookup_app_r by lia.
      replace (length h - length h)%nat with 0%nat by lia. reflexivity.
    + exact Hnd.
    + apply Forall_forall. intros r Hin. apply row_ok_app.
      rewrite Forall_forall in HF. apply HF, Hin.
    + apply value_at_app, Hv.
    + apply values_at_app_heap, Hvs'.
    + simpl in Hn.
      exists (length h), (<[length h := OList (outs ++ [last])]> h'),
        (outs ++ [last]), (v :: vs').
      split; [|split; [|split; [|split]]].
      * rewrite (merge_overlapping_rows_unfold a b h rows row rest Hr).
        fold h1. rewrite (bind_ok _ _ _ _ _ Hw).
        rewrite (bind_ok _ _ _ _ _ (py_append_list h' _ last outs Hn)).
        reflexivity.
      * apply list_lookup_insert_eq. eapply lookup_lt_Some, Hn.
      * exact Hvs0.
      * unfold merge_rows_spec. rewrite <- Hvals. apply values_at_ext. intros r _.
        apply (value_at_insert_list h' (length h) r outs _ Hn).
      * discriminate.
Qed.

Lemma merge_overlapping_rows_walk_witness :
  (exists out h' outs vs,
      merge_overlapping_rows 6%nat Y0 Y1 heap_rows = (Ok out, h') /\
      h' !! out = Some (OList outs) /\
      values_at heap_rows [3%nat; 4%nat; 5%nat] = Some vs /\
      values_at h' outs = Some (merge_rows_spec Y0 Y1 vs) /\
      ([3%nat; 4%nat; 5%nat] = [] -> out = 6%nat /\ h' = heap_rows))
  /\
  (forall (acc next : row_value) (k : string),
      NoDup (dict_keys next) ->
      dict_get k (dict_update acc next)
      = match dict_get k next with
        | Some l => Some l
        | None => dict_get k acc
        end).
Proof.
  apply (merge_overlapping_rows_walk Y0 Y1 heap_rows 6%nat [3%nat; 4%nat; 5%nat]).
  - reflexivity.
  - apply (bool_decide_unpack _). vm_compute. exact I.
  - vm_compute. reflexivity.
Defined.

(** ** The loop of [merge_overlapping_rows] ends *)

Lemma fuel_free_ret {A} (a : A) : fuel_free (ret a).
Proof. intros h. discriminate. Qed.

Lemma fuel_free_lift {A} (x : outcome A) :
  x <> Raise OutOfFuel -> fuel_free (lift x).
Proof. intros Hx h. exact Hx. Qed.

Lemma fuel_free_bind {A B} (m : M A) (f : A -> M B) :
  fuel_free m -> (forall a, fuel_free (f a)) -> fuel_free (bind m f).
Proof.
  intros Hm Hf h. unfold bind. specialize (Hm h).
  destruct (m h) as [[a|e] h1]; [apply Hf|].
  simpl in *. intros [= ->]. apply Hm. reflexivity.
Qed.

Lemma fuel_free_read_line (r : loc) : fuel_free (read_line r).
Proof.
  intros h. unfold read_line. destruct (h !! r) as [[| |]|]; discriminate.
Qed.

Lemma fuel_free_read_list (r : loc) : fuel_free (read_list r).
Proof.
  intros h. unfold read_list. destruct (h !! r) as [[| |]|]; discriminate.
Qed.

Lemma fuel_free_read_dict (r : loc) : fuel_free (read_dict r).
Proof.
  intros h. unfold read_dict. destruct (h !! r) as [[| |]|]; discriminate.
Qed.

Lemma fuel_free_write (r : loc) (o : obj) : fuel_free (write r o).
Proof. intros h. discriminate. Qed.

Lemma fuel_free_alloc (o : obj) : fuel_free (alloc o).
Proof. intros h. discriminate. Qed.

Lemma fuel_free_map_M {A B} (f : A -> M B) (xs : list A) :
  (forall x, fuel_free (f x)) -> fuel_free (map_M f xs).
Proof.
  intros Hf. induction xs as [|x xs IH]; simpl.
  - apply fuel_free_ret.
  - apply fuel_free_bind; [apply Hf|]. intros y.
    apply fuel_free_bind; [exact IH|]. intros ys. apply fuel_free_ret.
Qed.

Lemma py_min_num_lt_fuel (xs : list Q) : py_min num_lt xs <> Raise OutOfFuel.
Proof.
  destruct xs as [|x xs]; simpl; [discriminate|].
  rewrite min_loop_num_lt. discriminate.
Qed.

Lemma py_max_num_gt_fuel (xs : list Q) : py_max num_gt xs <> Raise OutOfFuel.
Proof.
  destruct xs as [|x xs]; simpl; [discriminate|].
  rewrite min_loop_num_gt. discriminate.
Qed.

Lemma overlap_fuel (a b c d : Q) : overlap a b c d <> Raise OutOfFuel.
Proof. unfold overlap. destruct (Qle_bool c d); discriminate. Qed.

Lemma fuel_free_get_row_extent (a b : attr) (r : loc) :
  fuel_free (get_row_extent a b r).
Proof.
  unfold get_row_extent.
  apply fuel_free_bind; [apply fuel_free_read_dict|]. intros d.
  apply fuel_free_bind; [apply fuel_free_map_M, fuel_free_read_line|]. intros ls.
  apply fuel_free_bind; [apply fuel_free_lift, py_min_num_lt_fuel|]. intros lo.
  apply fuel_free_bind; [apply fuel_free_lift, py_max_num_gt_fuel|]. intros hi.
  apply fuel_free_ret.
Qed.

Lemma fuel_free_py_append (r x : loc) : fuel_free (py_append r x).
Proof.
  unfold py_append.
  apply fuel_free_bind; [apply fuel_free_read_list|]. intros xs.
  apply fuel_free_write.
Qed.

Lemma fuel_free_py_update (r other : loc) : fuel_free (py_update r other).
Proof.
  unfold py_update.
  apply fuel_free_bind; [apply fuel_free_read_dict|]. intros o.
  apply fuel_free_bind; [apply fuel_free_read_dict|]. intros d.
  apply fuel_free_write.
Qed.

Lemma fuel_free_merge_step (a b : attr) (new_rows row next_row : loc) :
  fuel_free (merge_step a b new_rows row next_row).
Proof.
  unfold merge_step.
  apply fuel_free_bind; [apply fuel_free_get_row_extent|]. intros [lo hi].
  apply fuel_free_bind; [apply fuel_free_get_row_extent|]. intros [lo' hi'].
  apply fuel_free_bind; [apply fuel_free_lift, overlap_fuel|]. intros ovl.
  destruct (truthy ovl).
  - apply fuel_free_bind; [apply fuel_free_py_update|]. intros _. apply fuel_free_ret.
  - apply fuel_free_bind; [apply fuel_free_py_append|]. intros _. apply fuel_free_ret.
Qed.

Lemma fuel_free_walk_rows (a b : attr) (rest : list loc) (new_rows : loc) :
  forall row, fuel_free (walk_rows a b rest new_rows row).
Proof.
  induction rest as [|next rest IH]; intros row; simpl.
  - apply fuel_free_ret.
  - apply fuel_free_bind; [apply fuel_free_merge_step|]. exact IH.
Qed.

(** Whatever the store holds, the fuel [len(rows)] is enough for the loop:
    [merge_overlapping_rows] returns or raises a Python exception. *)
Lemma merge_overlapping_rows_ends (rows : loc) (a b : attr) :
  fuel_free (merge_overlapping_rows rows a b).
Proof.
  intros h. destruct (h !! rows) as [[|[|row rest]|]|] eqn:E;
    try (unfold merge_overlapping_rows, bind, read_list; rewrite E; discriminate).
  rewrite (merge_overlapping_rows_unfold a b h rows row rest E).
  apply fuel_free_bind; [apply fuel_free_walk_rows|]. intros last.
  apply fuel_free_bind; [apply fuel_free_py_append|]. intros _.
  apply fuel_free_ret.
Qed.

(** ** Rows that are already merged *)

Lemma walk_apart (a b : attr) (h0 : heap) (rest : list loc) :
  forall (row : loc) (done : list loc) (v : row_value) (vs : list row_value),
    Forall (fun r => row_ok a b h0 r = true) (row :: rest) ->
    value_at h0 row = Some v ->
    values_at h0 rest = Some vs ->
    fully_merged a b (v :: vs) = true ->
    exists last outs,
      walk_rows a b rest (length h0) row (h0 ++ [OList done])
      = (Ok last, h0 ++ [OList (done ++ outs)]) /\
      outs ++ [last] = row :: rest.
Proof.
  induction rest as [|next rest IH]; intros row done v vs Hok Hv Hvs Hfm.
  - exists row, []. simpl. rewrite app_nil_r. auto.
  - simpl in Hvs.
    destruct (value_at h0 next) as [v'|] eqn:Hv'; [|discriminate].
    destruct (values_at h0 rest) as [vs'|] eqn:Hvs'; [|discriminate].
    injection Hvs as <-.
    inversion Hok as [|? ? Hokr Hok1]; subst.
    inversion Hok1 as [|? ? Hokn Hok2]; subst.
    simpl in Hfm. apply andb_true_iff in Hfm as [Hov Hfm].
    apply negb_true_iff in Hov.
    destruct (IH next (done ++ [row]) v' vs' Hok1 Hv' eq_refl Hfm)
      as (last & outs & Hw & Hout).
    exists last, (row :: outs). split; [|simpl; rewrite Hout; reflexivity].
    simpl.
    rewrite (bind_ok _ _ _ _ _
               (merge_step_apart a b (h0 ++ [OList done]) (length h0) row next
                  v v' done
                  (value_at_app _ _ _ _ Hv) (row_ok_app _ _ _ _ _ Hokr)
                  (value_at_app _ _ _ _ Hv') (row_ok_app _ _ _ _ _ Hokn)
                  Hov (list_lookup_middle _ _ _ _ eq_refl))).
    rewrite insert_app_r_alt by lia.
    replace (length h0 - length h0)%nat with 0%nat by lia. simpl.
    rewrite Hw, <- app_assoc. reflexivity.
Qed.

(** C7: on a sequence of rows in which no two adjacent rows overlap,
    [merge_overlapping_rows] returns the same rows in the same order and
    changes none of them: the store only gains the list that is returned. *)
Theorem merge_overlapping_rows_fully_merged (a b : attr) (h : heap)
  (rows : loc) (rs : list loc) (vs : list row_value) :
  h !! rows = Some (OList rs) ->
  forallb (row_ok a b h) rs = true ->
  values_at h rs = Some vs ->
  fully_merged a b vs = true ->
  merge_overlapping_rows rows a b h
  = match rs with
    | [] => (Ok rows, h)
    | _ :: _ => (Ok (length h), h ++ [OList rs])
    end.
Proof.
  intros Hr Hok Hvs Hfm.
  assert (HF : Forall (fun r => row_ok a b h r = true) rs).
  { apply Forall_forall. intros r Hin. rewrite forallb_forall in Hok.
    apply Hok, list_elem_of_In, Hin. }
  destruct rs as [|row rest].
  - unfold merge_overlapping_rows, bind, read_list. rewrite Hr. reflexivity.
  - simpl in Hvs.
    destruct (value_at h row) as [v|] eqn:Hv; [|discriminate].
    destruct (values_at h rest) as [vs'|] eqn:Hvs'; [|discriminate].
    injection Hvs as <-.
    destruct (walk_apart a b h rest row [] v vs' HF Hv Hvs' Hfm)
      as (last & outs & Hw & Hout).
    rewrite (merge_overlapping_rows_unfold a b h rows row rest Hr).
    rewrite (bind_ok _ _ _ _ _ Hw). simpl.
    rewrite (bind_ok _ _ _ _ _
               (py_append_list _ _ last outs (list_lookup_middle _ _ _ _ eq_refl))).
    unfold ret. rewrite insert_app_r_alt by lia.
    replace (length h - length h)%nat with 0%nat by lia. simpl.
    rewrite Hout. reflexivity.
Qed.

Lemma merge_overlapping_rows_fully_merged_witness :
  merge_overlapping_rows 3%nat Y0 Y1 heap_merged
  = (Ok 5%nat, heap_merged ++ [OList [2%nat; 4%nat]]).
Proof.
  apply (merge_overlapping_rows_fully_merged Y0 Y1 heap_merged 3%nat
           [2%nat; 4%nat]
           [[("A"%string, text_line "a" 0 0 1 5)];
            [("A"%string, text_line "c" 0 6 1 9)]]);
    reflexivity.
Defined.

(** ** Header keys through the merge *)

Lemma keys_at_value (h : heap) (r : loc) (v : row_value) :
  value_at h r = Some v -> keys_at h r = dict_keys v.
Proof.
  intros H. destruct (read_dict_value _ _ _ H) as (d & Hd & Hr).
  unfold keys_at. rewrite Hd. symmetry. apply resolve_items_keys with h, Hr.
Qed.

Lemma keys_at_insert_list (h : heap) (x r : loc) (xs ys : list loc) :
  h !! x = Some (OList xs) ->
  keys_at (<[x := OList ys]> h) r = keys_at h r.
Proof.
  intros Hx. unfold keys_at. destruct (decide (x = r)) as [<-|Hne].
  - rewrite list_lookup_insert_eq by (eapply lookup_lt_Some, Hx).
    rewrite Hx. reflexivity.
  - rewrite list_lookup_insert_ne by exact Hne. reflexivity.
Qed.

Lemma keys_at_insert_dict (h : heap) (x r : loc) (d d2 : dict loc) :
  h !! x = Some (ODict d) ->
  keys_at (<[x := ODict d2]> h) r
  = if decide (x = r) then dict_keys d2 else keys_at h r.
Proof.
  intros Hx. unfold keys_at. destruct (decide (x = r)) as [<-|Hne].
  - rewrite list_lookup_insert_eq by (eapply lookup_lt_Some, Hx). reflexivity.
  - rewrite list_lookup_insert_ne by exact Hne. reflexivity.
Qed.

Lemma keys_of_values (h : heap) (rs : list loc) (vs : list row_value)
  (k : string) :
  values_at h rs = Some vs ->
  In k (keys_of vs) <-> exists r, In r rs /\ In k (keys_at h r).
Proof.
  revert vs. induction rs as [|r rs IH]; intros vs; simpl.
  - intros [= <-]. simpl. split; [intros []|intros (? & [] & _)].
  - destruct (value_at h r) as [v|] eqn:Hv; [|discriminate].
    destruct (values_at h rs) as [vs'|]; [|discriminate].
    intros [= <-]. unfold keys_of. simpl. rewrite in_app_iff.
    fold (keys_of vs'). rewrite (IH vs' eq_refl), <- (keys_at_value _ _ _ Hv).
    split.
    + intros [H|(r' & ? & ?)]; eauto.
    + intros (r' & [<-|H] & Hk); eauto.
Qed.

Lemma walk_keys (a b : attr) (new_rows : loc) (rest : list loc) :
  forall (row : loc) (h : heap) (done : list loc),
    h !! new_rows = Some (OList done) ->
    Forall (fun r => row_ok a b h r = true) (row :: rest) ->
    exists last h' outs,
      walk_rows a b rest new_rows row h = (Ok last, h') /\
      h' !! new_rows = Some (OList (done ++ outs)) /\
      (forall r, row_ok a b h r = true -> row_ok a b h' r = true) /\
      (forall r k, In k (keys_at h r) -> In k (keys_at h' r)) /\
      (forall r k, In k (keys_at h' r) ->
                   In k (keys_at h r)
                   \/ exists r', In r' (row :: rest) /\ In k (keys_at h r')) /\
      (forall r k, In r (row :: rest) -> In k (keys_at h r) ->
                   exists r', In r' (outs ++ [last]) /\ In k (keys_at h' r')) /\
      (forall r, In r (outs ++ [last]) -> In r (row :: rest)).
Proof.
  induction rest as [|next rest IH]; intros row h done Hn Hok.
  - exists row, h, []. simpl. rewrite app_nil_r.
    repeat split; auto.
    intros r k [<-|[]] Hk. eauto.
  - inversion Hok as [|? ? Hokr Hok1]; subst.
    inversion Hok1 as [|? ? Hokn Hok2]; subst.
    destruct (row_ok_spec _ _ _ _ Hokr) as (v & _ & Hv & _).
    destruct (row_ok_spec _ _ _ _ Hokn) as (v' & _ & Hv' & _).
    simpl. destruct (rows_overlap a b v v') eqn:Hov.
    + destruct (merge_step_overlap a b h new_rows row next v v' Hv Hokr Hv' Hokn Hov)
        as (d & d' & Hd & Hd' & Hstep & Hval).
      set (h2 := <[row := ODict (dict_update d d')]> h) in *.
      assert (Hok2r : forall r, row_ok a b h r = true -> row_ok a b h2 r = true).
      { intros r Hr. destruct (decide (row = r)) as [<-|Hne].
        - apply (row_ok_update a b h row next d d'); assumption.
        - rewrite (row_ok_value a b h h2 r); [exact Hr|].
          apply (value_at_insert_other h row r d _ Hd Hne). }
      assert (Hk2 : forall r k, In k (keys_at h2 r) <->
                               if decide (row = r)
                               then In k (keys_at h row) \/ In k (keys_at h next)
                               else In k (keys_at h r)).
      { intros r k. unfold h2. rewrite (keys_at_insert_dict h row r d _ Hd).
        destruct (decide (row = r)); [|reflexivity].
        rewrite in_keys_update. unfold keys_at. rewrite Hd, Hd'. reflexivity. }
      destruct (IH row h2 done) as (last & h' & outs & Hw & Hn' & HA & HB & HC & HD & HE).
      * unfold h2. rewrite list_lookup_insert_ne; [exact Hn|].
        intros ->. rewrite Hd in Hn. discriminate.
      * constructor; [apply Hok2r, Hokr|].
        apply Forall_forall. intros r Hr. apply Hok2r.
        rewrite Forall_forall in Hok2. apply Hok2, Hr.
      * exists last, h', outs. rewrite (bind_ok _ _ _ _ _ Hstep).
        split; [exact Hw|]. split; [exact Hn'|].
        split; [|split; [|split; [|split]]].
        -- intros r Hr. apply HA, Hok2r, Hr.
        -- intros r k Hk. apply HB, Hk2.
           destruct (decide (row = r)) as [<-|]; auto.
        -- intros r k Hk.
           assert (Hlift : forall x, In k (keys_at h2 x) ->
                                     In k (keys_at h x)
                                     \/ In k (keys_at h row) \/ In k (keys_at h next)).
           { intros x Hx. apply Hk2 in Hx.
             destruct (decide (row = x)); tauto. }
           destruct (HC r k Hk) as [H|(r' & Hin & H)].
           ++ destruct (Hlift _ H) as [?|[?|?]]; [auto| |];
                right; [exists row|exists next]; simpl; auto.
           ++ destruct (Hlift _ H) as [?|[?|?]];
                right; [exists r'|exists row|exists next]; simpl; auto.
              destruct Hin; auto.
        -- intros r k Hin Hk.
           destruct Hin as [<-|[<-|Hin]].
           ++ apply (HD row k); [left; reflexivity|].
              apply Hk2. destruct (decide (row = row)); [auto|congruence].
           ++ apply (HD row k); [left; reflexivity|].
              apply Hk2. destruct (decide (row = row)); [auto|congruence].
           ++ apply (HD r k); [right; exact Hin|].
              apply Hk2. destruct (decide (row = r)) as [<-|]; auto.
        -- intros r Hr. destruct (HE r Hr) as [<-|H]; simpl; auto.
    + pose proof (merge_step_apart a b h new_rows row next v v' done
                    Hv Hokr Hv' Hokn Hov Hn) as Hstep.
      set (h2 := <[new_rows := OList (done ++ [row])]> h) in *.
      assert (Hsame : forall r, value_at h2 r = value_at h r).
      { intros r. apply (value_at_insert_list h new_rows r done _ Hn). }
      assert (Hks : forall r, keys_at h2 r = keys_at h r).
      { intros r. apply (keys_at_insert_list h new_rows r done _ Hn). }
      destruct (IH next h2 (done ++ [row]))
        as (last & h' & outs & Hw & Hn' & HA & HB & HC & HD & HE).
      * unfold h2. apply list_lookup_insert_eq. eapply lookup_lt_Some, Hn.
      * apply Forall_forall. intros r Hr.
        rewrite (row_ok_value a b h h2 r (Hsame r)).
        rewrite Forall_forall in Hok1. apply Hok1, Hr.
      * exists last, h', (row :: outs). rewrite (bind_ok _ _ _ _ _ Hstep).
        split; [exact Hw|]. split; [rewrite Hn', <- app_assoc; reflexivity|].
        split; [|split; [|split; [|split]]].
        -- intros r Hr. apply HA. rewrite (row_ok_value a b h h2 r (Hsame r)). exact Hr.
        -- intros r k Hk. apply HB. rewrite Hks. exact Hk.
        -- intros r k Hk. destruct (HC r k Hk) as [H|(r' & Hin & H)].
           ++ left. rewrite <- Hks. exact H.
           ++ right. exists r'. rewrite <- Hks. split; [right; exact Hin|exact H].
        -- intros r k [<-|Hin] Hk.
           ++ exists row. split; [left; reflexivity|]. apply HB. rewrite Hks. exact Hk.
           ++ destruct (HD r k Hin) as (r' & Hr' & Hk'); [rewrite Hks; exact Hk|].
              exists r'. split; [right; exact Hr'|exact Hk'].
        -- intros r [<-|Hr]; [left; reflexivity|right; apply HE, Hr].
Qed.

(** C10: merging loses no header key and invents none: the keys that occur
    in the rows returned are those that occur in the rows given. *)
Theorem merge_overlapping_rows_keys (a b : attr) (h : heap) (rows : loc)
  (rs : list loc) :
  h !! rows = Some (OList rs) ->
  forallb (row_ok a b h) rs = true ->
  exists out h' outs vs vs',
    merge_overlapping_rows rows a b h = (Ok out, h') /\
    h' !! out = Some (OList outs) /\
    values_at h rs = Some vs /\
    values_at h' outs = Some vs' /\
    forall k, In k (keys_of vs') <-> In k (keys_of vs).
Proof.
  intros Hr Hok.
  assert (HF : Forall (fun r => row_ok a b h r = true) rs).
  { apply Forall_forall. intros r Hin. rewrite forallb_forall in Hok.
    apply Hok, list_elem_of_In, Hin. }
  destruct (values_at_ok a b h _ HF) as [vs Hvs].
  destruct rs as [|row rest].
  - exists rows, h, [], []. eexists. unfold merge_overlapping_rows, bind, read_list.
    rewrite Hr. simpl. repeat split; auto.
  - set (h1 := h ++ [OList []]).
    assert (Hk1 : forall r, In r (row :: rest) -> keys_at h1 r = keys_at h r).
    { intros r Hin. rewrite Forall_forall in HF.
      destruct (row_ok_spec _ _ _ _ (HF r (proj2 (list_elem_of_In _ _) Hin)))
        as (v & _ & Hv & _).
      rewrite (keys_at_value _ _ _ Hv).
      apply keys_at_value, value_at_app, Hv. }
    destruct (walk_keys a b (length h) rest row h1 [])
      as (last & h' & outs & Hw & Hn & HA & HB & HC & HD & HE).
    { unfold h1. apply list_lookup_middle. reflexivity. }
    { apply Forall_forall. intros r Hin. apply row_ok_app.
      rewrite Forall_forall in HF. apply HF, Hin. }
    simpl in Hn.
    set (h2 := <[length h := OList (outs ++ [last])]> h').
    assert (Hv2 : forall r, value_at h2 r = value_at h' r).
    { intros r. apply (value_at_insert_list h' (length h) r outs _ Hn). }
    assert (Hk2 : forall r, keys_at h2 r = keys_at h' r).
    { intros r. apply (keys_at_insert_list h' (length h) r outs _ Hn). }
    destruct (values_at_ok a b h2 (outs ++ [last])) as [vs' Hvs'].
    { apply Forall_forall. intros r Hin. apply list_elem_of_In in Hin.
      rewrite (row_ok_value a b h' h2 r (Hv2 r)). apply HA, row_ok_app.
      rewrite Forall_forall in HF. apply HF, list_elem_of_In, HE, Hin. }
    exists (length h), h2, (outs ++ [last]), vs, vs'.
    split; [|split; [|split; [|split]]].
    + rewrite (merge_overlapping_rows_unfold a b h rows row rest Hr).
      fold h1. rewrite (bind_ok _ _ _ _ _ Hw).
      rewrite (bind_ok _ _ _ _ _ (py_append_list h' _ last outs Hn)).
      reflexivity.
    + apply list_lookup_insert_eq. eapply lookup_lt_Some, Hn.
    + exact Hvs.
    + exact Hvs'.
    + intros k. rewrite (keys_of_values _ _ _ k Hvs'), (keys_of_values _ _ _ k Hvs).
      split.
      * intros (r & Hin & Hk). rewrite Hk2 in Hk.
        destruct (HC r k Hk) as [H|(r' & Hin' & H)].
        -- exists r. split; [apply HE, Hin|]. rewrite <- Hk1; [exact H|apply HE, Hin].
        -- exists r'. split; [exact Hin'|]. rewrite <- Hk1; assumption.
      * intros (r & Hin & Hk).
        destruct (HD r k Hin) as (r' & Hin' & Hk'); [rewrite Hk1; assumption|].
        exists r'. split; [exact Hin'|]. rewrite Hk2. exact Hk'.
Qed.

Lemma merge_overlapping_rows_keys_witness :
  exists out h' outs vs vs',
    merge_overlapping_rows 6%nat Y0 Y1 heap_rows = (Ok out, h') /\
    h' !! out = Some (OList outs) /\
    values_at heap_rows [3%nat; 4%nat; 5%nat] = Some vs /\
    values_at h' outs = Some vs' /\
    forall k, In k (keys_of vs') <-> In k (keys_of vs).
Proof.
  apply (merge_overlapping_rows_keys Y0 Y1 heap_rows 6%nat [3%nat; 4%nat; 5%nat]);
    reflexivity.
Defined.

(** ** [find_table] leaves the objects it is given alone *)

Lemma keeps_ret {A} (h0 : heap) (a : A) : keeps h0 (ret a).
Proof. intros fresh. exists fresh. reflexivity. Qed.

Lemma keeps_raise {A} (h0 : heap) (e : exn) : keeps h0 (@raise A e).
Proof. intros fresh. exists fresh. reflexivity. Qed.

Lemma keeps_lift {A} (h0 : heap) (x : outcome A) : keeps h0 (lift x).
Proof. intros fresh. exists fresh. reflexivity. Qed.

Lemma keeps_read_line (h0 : heap) (r : loc) : keeps h0 (read_line r).
Proof.
  intros fresh. exists fresh. unfold read_line.
  destruct ((h0 ++ fresh) !! r) as [[| |]|]; reflexivity.
Qed.

Lemma keeps_read_list (h0 : heap) (r : loc) : keeps h0 (read_list r).
Proof.
  intros fresh. exists fresh. unfold read_list.
  destruct ((h0 ++ fresh) !! r) as [[| |]|]; reflexivity.
Qed.

Lemma keeps_read_dict (h0 : heap) (r : loc) : keeps h0 (read_dict r).
Proof.
  intros fresh. exists fresh. unfold read_dict.
  destruct ((h0 ++ fresh) !! r) as [[| |]|]; reflexivity.
Qed.

Lemma keeps_bind {A B} (h0 : heap) (m : M A) (f : A -> M B) :
  keeps h0 m -> (forall a, keeps h0 (f a)) -> keeps h0 (bind m f).
Proof.
  intros Hm Hf fresh. destruct (Hm fresh) as [fresh1 H1].
  unfold bind. destruct (m (h0 ++ fresh)) as [[a|e] h1]; simpl in H1; subst h1.
  - apply Hf.
  - exists fresh1. reflexivity.
Qed.

(** A new object gets a reference beyond [h0]. *)
Lemma keeps_alloc {B} (h0 : heap) (o : obj) (f : loc -> M B) :
  (forall r, (length h0 <= r)%nat -> keeps h0 (f r)) ->
  keeps h0 (bind (alloc o) f).
Proof.
  intros Hf fresh. unfold bind, alloc.
  rewrite <- app_assoc. apply Hf. rewrite length_app. lia.
Qed.

(** A write beyond [h0] keeps [h0]. *)
Lemma keeps_write (h0 : heap) (r : loc) (o : obj) :
  (length h0 <= r)%nat -> keeps h0 (write r o).
Proof.
  intros Hr fresh. unfold write. simpl.
  rewrite insert_app_r_alt by exact Hr. eauto.
Qed.

Lemma keeps_map_M {A B} (h0 : heap) (f : A -> M B) (xs : list A) :
  (forall x, keeps h0 (f x)) -> keeps h0 (map_M f xs).
Proof.
  intros Hf. induction xs as [|x xs IH]; simpl.
  - apply keeps_ret.
  - apply keeps_bind; [apply Hf|]. intros y.
    apply keeps_bind; [exact IH|]. intros ys. apply keeps_ret.
Qed.

Lemma keeps_for_each {A} (h0 : heap) (body : A -> M unit) (xs : list A) :
  (forall x, keeps h0 (body x)) -> keeps h0 (for_each xs body).
Proof.
  intros Hb. induction xs as [|x xs IH]; simpl.
  - apply keeps_ret.
  - apply keeps_bind; [apply Hb|]. intros _. exact IH.
Qed.

Lemma keeps_read_lines (h0 : heap) (r : loc) : keeps h0 (read_lines r).
Proof.
  unfold read_lines. apply keeps_bind; [apply keeps_read_list|]. intros xs.
  apply keeps_map_M. intros x.
  apply keeps_bind; [apply keeps_read_line|]. intros l. apply keeps_ret.
Qed.

Lemma keeps_py_append (h0 : heap) (r x : loc) :
  (length h0 <= r)%nat -> keeps h0 (py_append r x).
Proof.
  intros Hr. unfold py_append.
  apply keeps_bind; [apply keeps_read_list|]. intros xs. apply keeps_write, Hr.
Qed.

Lemma keeps_py_contains (h0 : heap) (r : loc) (key : string) :
  keeps h0 (py_contains r key).
Proof.
  unfold py_contains.
  apply keeps_bind; [apply keeps_read_dict|]. intros d. apply keeps_ret.
Qed.

Lemma keeps_py_setitem (h0 : heap) (r : loc) (key : string) (v : loc) :
  (length h0 <= r)%nat -> keeps h0 (py_setitem r key v).
Proof.
  intros Hr. unfold py_setitem.
  apply keeps_bind; [apply keeps_read_dict|]. intros d. apply keeps_write, Hr.
Qed.

Lemma keeps_assign_line (h0 : heap) (headers : list href) (c0 c1 : attr)
  (bias : string) (row : loc) (l : href) :
  (length h0 <= row)%nat -> keeps h0 (assign_line headers c0 c1 bias row l).
Proof.
  intros Hr. unfold assign_line.
  apply keeps_bind; [apply keeps_lift|]. intros hd.
  apply keeps_bind; [apply keeps_py_contains|]. intros [|].
  - apply keeps_raise.
  - apply keeps_py_setitem, Hr.
Qed.

Lemma keeps_build_row (h0 : heap) (headers : list href)
  (row_lookup : list (Q * list href)) (c0 c1 : attr) (bias : string)
  (rows : loc) (k : Q) :
  (length h0 <= rows)%nat ->
  keeps h0 (build_row headers row_lookup c0 c1 bias rows k).
Proof.
  intros Hr. unfold build_row.
  apply keeps_bind; [apply keeps_lift|]. intros row_lines.
  apply keeps_alloc. intros row Hrow.
  apply keeps_bind; [apply keeps_py_append, Hr|]. intros _.
  apply keeps_for_each. intros l. apply keeps_assign_line, Hrow.
Qed.

Lemma keeps_find_table (h0 : heap) (headers lines : loc) (r0 r1 c0 c1 : attr)
  (reverse_sort : bool) (bias : string) :
  keeps h0 (find_table headers lines r0 r1 c0 c1 reverse_sort bias).
Proof.
  unfold find_table.
  apply keeps_bind; [apply keeps_read_lines|]. intros hs.
  apply keeps_bind; [apply keeps_read_lines|]. intros ls.
  apply keeps_alloc. intros rows Hrows.
  apply keeps_bind; [|intros _; apply keeps_ret].
  apply keeps_for_each. intros k. apply keeps_build_row, Hrows.
Qed.

(** C9: [find_table] does not modify what it is given.  Whatever it is
    called with and whether it returns or raises, the store after the call
    is the store before it followed by new objects: the list of headers
    (sorted in a copy), the list of lines and every [TextLine] are as they
    were. *)
Theorem find_table_keeps_inputs (h : heap) (headers lines : loc)
  (r0 r1 c0 c1 : attr) (reverse_sort : bool) (bias : string) :
  exists fresh,
    snd (find_table headers lines r0 r1 c0 c1 reverse_sort bias h) = h ++ fresh.
Proof.
  destruct (keeps_find_table h headers lines r0 r1 c0 c1 reverse_sort bias [])
    as [fresh H].
  rewrite app_nil_r in H. eauto.
Qed.

(** ** [find_table]: one entry per line *)

Lemma dict_contains_in {V} (key : string) (d : dict V) :
  dict_contains key d = true <-> In key (dict_keys d).
Proof.
  unfold dict_contains, dict_keys. rewrite existsb_exists, in_map_iff.
  split.
  - intros (kv & Hin & He). apply String.eqb_eq in He. eauto.
  - intros (kv & He & Hin). exists kv. split; [exact Hin|]. apply String.eqb_eq, He.
Qed.

Lemma dict_setitem_new {V} (key : string) (v : V) (d : dict V) :
  dict_contains key d = false -> dict_setitem key v d = d ++ [(key, v)].
Proof.
  induction d as [|[k w] d IH]; simpl; [reflexivity|].
  destruct (String.eqb k key); simpl; [discriminate|].
  intros H. rewrite (IH H). reflexivity.
Qed.

Lemma snd_read_lines (r : loc) (h : heap) : snd (read_lines r h) = h.
Proof.
  unfold read_lines, bind, read_list.
  destruct (h !! r) as [[|xs|]|]; try reflexivity.
  induction xs as [|x xs IH]; simpl; [reflexivity|].
  unfold bind at 1. unfold bind at 1. unfold read_line.
  destruct (h !! x) as [[l| |]|]; try reflexivity.
  simpl. unfold bind. destruct (map_M _ xs h) as [[ys|e] h'] eqn:E;
    simpl in IH; subst h'; reflexivity.
Qed.

(** The duplicate check of the loop body. *)
Lemma assign_line_duplicate (headers : list href) (c0 c1 : attr)
  (bias : string) (row : loc) (l hd : href) (h : heap) (d : dict loc) :
  h !! row = Some (ODict d) ->
  select_header headers (snd l) c0 c1 bias = Ok hd ->
  dict_contains (text (snd hd)) d = true ->
  assign_line headers c0 c1 bias row l h
  = (Raise (ValueError (duplicate_message (text (snd hd)))), h).
Proof.
  intros Hd Hs Hc. unfold assign_line, bind, lift. rewrite Hs.
  unfold py_contains, bind, read_dict. rewrite Hd. simpl. rewrite Hc.
  reflexivity.
Qed.

Lemma assign_line_ok (headers : list href) (c0 c1 : attr) (bias : string)
  (row : loc) (l : href) (h h' : heap) :
  assign_line headers c0 c1 bias row l h = (Ok tt, h') ->
  exists d hd,
    h !! row = Some (ODict d) /\
    select_header headers (snd l) c0 c1 bias = Ok hd /\
    dict_contains (text (snd hd)) d = false /\
    h' = <[row := ODict (d ++ [(text (snd hd), fst l)])]> h.
Proof.
  unfold assign_line, bind, lift.
  destruct (select_header headers (snd l) c0 c1 bias) as [hd|e]; [|discriminate].
  unfold py_contains, bind, read_dict.
  destruct (h !! row) as [[| |d]|] eqn:Hd; try discriminate.
  simpl. destruct (dict_contains (text (snd hd)) d) eqn:Hc; [discriminate|].
  unfold py_setitem, bind, read_dict, write. rewrite Hd.
  intros [= <-]. exists d, hd.
  rewrite (dict_setitem_new _ _ _ Hc). auto.
Qed.

Lemma assign_loop_ok (headers : list href) (c0 c1 : attr) (bias : string)
  (row : loc) (row_lines : list href) :
  forall (h h' : heap) (d0 : dict loc),
    h !! row = Some (ODict d0) ->
    NoDup (dict_keys d0) ->
    for_each row_lines (assign_line headers c0 c1 bias row) h = (Ok tt, h') ->
    exists d1,
      h' = <[row := ODict (d0 ++ d1)]> h /\
      NoDup (dict_keys (d0 ++ d1)) /\
      Forall2 (entry_for headers c0 c1 bias) d1 row_lines.
Proof.
  induction row_lines as [|l row_lines IH]; intros h h' d0 Hd Hnd; simpl.
  - intros [= <-]. exists []. rewrite app_nil_r.
    split; [symmetry; apply list_insert_id, Hd|]. split; [exact Hnd|constructor].
  - intros H. apply bind_inv_ok in H as ([] & h1 & Hl & Hrest).
    apply assign_line_ok in Hl as (d & hd & Hd' & Hs & Hc & ->).
    rewrite Hd in Hd'. injection Hd' as <-.
    assert (Hnd' : NoDup (dict_keys (d0 ++ [(text (snd hd), fst l)]))).
    { unfold dict_keys. rewrite map_app. simpl. apply NoDup_app.
      split; [exact Hnd|]. split; [|apply NoDup_singleton].
      intros k Hk Hk'. apply list_elem_of_singleton in Hk'. subst k.
      apply list_elem_of_In, dict_contains_in in Hk. congruence. }
    destruct (IH _ _ (d0 ++ [(text (snd hd), fst l)])
                (list_lookup_insert_eq _ _ _ (lookup_lt_Some _ _ _ Hd))
                Hnd' Hrest) as (d1 & -> & Hnd1 & HF).
    exists ((text (snd hd), fst l) :: d1).
    rewrite list_insert_insert_eq, <- app_assoc in *. simpl in *.
    split; [reflexivity|]. split; [exact Hnd1|].
    constructor; [|exact HF]. split; [reflexivity|eauto].
Qed.

Lemma row_holds_lookup (headers : list href) (c0 c1 : attr) (bias : string)
  (h h' : heap) (r : loc) (row_lines : list href) :
  h' !! r = h !! r ->
  row_holds headers c0 c1 bias h r row_lines ->
  row_holds headers c0 c1 bias h' r row_lines.
Proof. intros He (d & Hd & H). exists d. rewrite He. auto. Qed.

Lemma build_row_ok (headers : list href) (row_lookup : list (Q * list href))
  (c0 c1 : attr) (bias : string) (rows : loc) (k : Q) (h h' : heap)
  (rs : list loc) :
  h !! rows = Some (OList rs) ->
  build_row headers row_lookup c0 c1 bias rows k h = (Ok tt, h') ->
  exists row_lines,
    lookup_getitem k row_lookup = Ok row_lines /\
    h' !! rows = Some (OList (rs ++ [length h])) /\
    row_holds headers c0 c1 bias h' (length h) row_lines /\
    (forall r, (r < length h)%nat -> r <> rows -> h' !! r = h !! r).
Proof.
  intros Hr. unfold build_row. unfold bind at 1. unfold lift.
  destruct (lookup_getitem k row_lookup) as [row_lines|e]; [|discriminate].
  unfold bind at 1. unfold alloc.
  assert (Hlt : (rows < length h)%nat) by (eapply lookup_lt_Some, Hr).
  rewrite (bind_ok _ _ _ _ _
             (py_append_list (h ++ [ODict []]) rows (length h) rs
                (lookup_app_l_Some _ _ _ _ Hr))).
  set (h2 := <[rows := OList (rs ++ [length h])]> (h ++ [ODict []])).
  assert (Hrow : h2 !! length h = Some (ODict [])).
  { unfold h2. rewrite list_lookup_insert_ne by lia.
    apply list_lookup_middle. reflexivity. }
  intros Hloop.
  destruct (assign_loop_ok headers c0 c1 bias (length h) row_lines h2 h' []
              Hrow (NoDup_nil_2) Hloop) as (d1 & -> & Hnd & HF).
  exists row_lines. split; [reflexivity|]. simpl in *.
  split; [|split].
  - rewrite list_lookup_insert_ne by lia. unfold h2.
    apply list_lookup_insert_eq. rewrite length_app. simpl. lia.
  - exists d1. split; [|split; assumption].
    apply list_lookup_insert_eq. eapply lookup_lt_Some, Hrow.
  - intros r Hlt' Hne.
    rewrite list_lookup_insert_ne by lia. unfold h2.
    rewrite list_lookup_insert_ne by congruence.
    apply lookup_app_l. exact Hlt'.
Qed.

Lemma build_rows_ok (headers : list href) (row_lookup : list (Q * list href))
  (c0 c1 : attr) (bias : string) (rows : loc) (ks : list Q) :
  forall (h h' : heap) (rs : list loc) (cls : list (list href)),
    h !! rows = Some (OList rs) ->
    Forall2 (row_holds headers c0 c1 bias h) rs cls ->
    for_each ks (build_row headers row_lookup c0 c1 bias rows) h = (Ok tt, h') ->
    exists rs' cls',
      omap (fun k => lookup_getitem k row_lookup) ks = Ok cls' /\
      h' !! rows = Some (OList (rs ++ rs')) /\
      Forall2 (row_holds headers c0 c1 bias h') (rs ++ rs') (cls ++ cls').
Proof.
  induction ks as [|k ks IH]; intros h h' rs cls Hr HF; simpl.
  - intros [= <-]. exists [], []. rewrite !app_nil_r. auto.
  - intros H. apply bind_inv_ok in H as ([] & h1 & Hk & Hrest).
    destruct (build_row_ok _ _ _ _ _ _ _ _ _ _ Hr Hk)
      as (row_lines & Hl & Hr1 & Hrow & Hold).
    assert (HF1 : Forall2 (row_holds headers c0 c1 bias h1)
                    (rs ++ [length h]) (cls ++ [row_lines])).
    { apply Forall2_app; [|constructor; [exact Hrow|constructor]].
      eapply Forall2_impl; [exact HF|].
      intros r cl Hrc. cbv beta. pose proof Hrc as (d & Hd & _).
      apply (row_holds_lookup headers c0 c1 bias h h1 r cl); [|exact Hrc].
      apply Hold; [eapply lookup_lt_Some, Hd|].
      intros ->. rewrite Hr in Hd. discriminate. }
    destruct (IH _ _ _ _ Hr1 HF1 Hrest) as (rs' & cls' & Ho & Hr' & HF').
    exists (length h :: rs'), (row_lines :: cls').
    rewrite Hl. simpl. rewrite Ho. simpl.
    rewrite <- !app_assoc in *. simpl in *. auto.
Qed.

(** ** Header selection away from ties

    The three [min]/[max] selections of [find_table] do what their comments
    say as long as no two different headers give tuples with equal
    numbers. *)

Lemma Qltb_false_le (a b : Q) : Qltb a b = false -> b <= a.
Proof.
  intros H. apply Qnot_lt_le. intros Hlt. apply Qltb_lt in Hlt. congruence.
Qed.

Lemma min_loop_tuple_lt (rest : list (Q * href)) :
  forall cur,
    no_tie (cur :: rest) ->
    exists m, min_loop tuple_lt cur rest = Ok m /\ In m (cur :: rest)
              /\ forall x, In x (cur :: rest) -> fst m <= fst x.
Proof.
  induction rest as [|item rest IH]; intros cur Hnt.
  - exists cur. simpl. split; [reflexivity|]. split; [auto|].
    intros x [<-|[]]. apply Qle_refl.
  - destruct Hnt as [Hcur [Hitem Hnt]].
    inversion Hcur as [|? ? Hic Hcur']; subst.
    simpl. unfold tuple_lt at 1.
    destruct (Qeq_bool (fst item) (fst cur)) eqn:E.
    + destruct Hic as [Hic|Hic]; [congruence|].
      rewrite Hic, Nat.eqb_refl. simpl.
      destruct (IH cur (conj Hcur' Hnt)) as (m & Hm & Hin & Hle).
      exists m. split; [exact Hm|]. split.
      * destruct Hin as [<-|Hin]; [left; reflexivity|right; right; exact Hin].
      * intros x [<-|[<-|Hx]].
        -- apply Hle. left. reflexivity.
        -- apply Qeq_bool_iff in E. rewrite E. apply Hle. left. reflexivity.
        -- apply Hle. right. exact Hx.
    + simpl. destruct (Qltb (fst item) (fst cur)) eqn:Hlt.
      * apply Qltb_lt in Hlt.
        destruct (IH item (conj Hitem Hnt)) as (m & Hm & Hin & Hle).
        exists m. split; [exact Hm|]. split; [right; exact Hin|].
        intros x [<-|Hx]; [|apply Hle, Hx].
        eapply Qle_trans; [apply Hle; left; reflexivity|]. apply Qlt_le_weak, Hlt.
      * apply Qltb_false_le in Hlt.
        destruct (IH cur (conj Hcur' Hnt)) as (m & Hm & Hin & Hle).
        exists m. split; [exact Hm|]. split.
        -- destruct Hin as [<-|Hin]; [left; reflexivity|right; right; exact Hin].
        -- intros x [<-|[<-|Hx]].
           ++ apply Hle. left. reflexivity.
           ++ eapply Qle_trans; [apply Hle; left; reflexivity|exact Hlt].
           ++ apply Hle. right. exact Hx.
Qed.

Lemma min_loop_tuple_gt (rest : list (Q * href)) :
  forall cur,
    no_tie (cur :: rest) ->
    exists m, min_loop tuple_gt cur rest = Ok m /\ In m (cur :: rest)
              /\ forall x, In x (cur :: rest) -> fst x <= fst m.
Proof.
  induction rest as [|item rest IH]; intros cur Hnt.
  - exists cur. simpl. split; [reflexivity|]. split; [auto|].
    intros x [<-|[]]. apply Qle_refl.
  - destruct Hnt as [Hcur [Hitem Hnt]].
    inversion Hcur as [|? ? Hic Hcur']; subst.
    simpl. unfold tuple_gt at 1.
    destruct (Qeq_bool (fst item) (fst cur)) eqn:E.
    + destruct Hic as [Hic|Hic]; [congruence|].
      rewrite Hic, Nat.eqb_refl. simpl.
      destruct (IH cur (conj Hcur' Hnt)) as (m & Hm & Hin & Hle).
      exists m. split; [exact Hm|]. split.
      * destruct Hin as [<-|Hin]; [left; reflexivity|right; right; exact Hin].
      * intros x [<-|[<-|Hx]].
        -- apply Hle. left. reflexivity.
        -- apply Qeq_bool_iff in E. rewrite E. apply Hle. left. reflexivity.
        -- apply Hle. right. exact Hx.
    + simpl. unfold Qgtb. destruct (Qltb (fst cur) (fst item)) eqn:Hlt.
      * apply Qltb_lt in Hlt.
        destruct (IH item (conj Hitem Hnt)) as (m & Hm & Hin & Hle).
        exists m. split; [exact Hm|]. split; [right; exact Hin|].
        intros x [<-|Hx]; [|apply Hle, Hx].
        eapply Qle_trans; [apply Qlt_le_weak, Hlt|]. apply Hle. left. reflexivity.
      * apply Qltb_false_le in Hlt.
        destruct (IH cur (conj Hcur' Hnt)) as (m & Hm & Hin & Hle).
        exists m. split; [exact Hm|]. split.
        -- destruct Hin as [<-|Hin]; [left; reflexivity|right; right; exact Hin].
        -- intros x [<-|[<-|Hx]].
           ++ apply Hle. left. reflexivity.
           ++ eapply Qle_trans; [exact Hlt|]. apply Hle. left. reflexivity.
           ++ apply Hle. right. exact Hx.
Qed.

Lemma overlaps_and_headers_ok (c0 c1 : attr) (l : TextLine)
  (headers : list href) :
  getattr l c0 <= getattr l c1 ->
  omap (fun h : href =>
          (let* ovl := overlap (getattr (snd h) c0) (getattr (snd h) c1)
                         (getattr l c0) (getattr l c1) in
           Ok (ovl, h))%out) headers
  = Ok (overlaps_of c0 c1 l headers).
Proof.
  intros Hl. induction headers as [|h headers IH]; simpl; [reflexivity|].
  rewrite (overlap_ok _ _ _ _ Hl), IH. reflexivity.
Qed.

(** [select_header], with the list of overlapping headers made explicit. *)
Lemma select_header_cases (headers : list href) (l : TextLine)
  (c0 c1 : attr) (bias : string) :
  getattr l c0 <= getattr l c1 ->
  select_header headers l c0 c1 bias
  = match possible_of c0 c1 l headers with
    | [] =>
        if String.eqb bias "centered" then
          (let* m := py_min tuple_lt (center_distances c0 c1 l headers) in
           Ok (snd m))%out
        else if String.eqb bias "min" then
          (let* m := py_max tuple_gt (left_candidates c0 l headers) in
           Ok (snd m))%out
        else Raise (ValueError "unrecognized heading bias")
    | [(_, h)] => Ok h
    | possible =>
        (let* m := py_min tuple_lt (leftmost_candidates c0 possible) in
         Ok (snd m))%out
    end.
Proof.
  intros Hl. unfold select_header.
  rewrite (proj2 (Qle_bool_iff _ _) Hl). simpl negb. cbv iota.
  rewrite (overlaps_and_headers_ok c0 c1 l headers Hl). cbn [obind].
  unfold possible_of.
  destruct (List.filter _ (overlaps_of c0 c1 l headers)) as [|[q h] [|p0 l1]];
    reflexivity.
Qed.

(** Several overlapping headers, no two of them with the same column
    minimum: the leftmost one is chosen. *)
Lemma select_header_leftmost (headers : list href) (l : TextLine)
  (c0 c1 : attr) (bias : string) :
  getattr l c0 <= getattr l c1 ->
  (2 <= length (possible_of c0 c1 l headers))%nat ->
  no_tie (leftmost_candidates c0 (possible_of c0 c1 l headers)) ->
  exists oh,
    select_header headers l c0 c1 bias = Ok (snd oh) /\
    In oh (possible_of c0 c1 l headers) /\
    forall oh', In oh' (possible_of c0 c1 l headers) ->
                getattr (snd (snd oh)) c0 <= getattr (snd (snd oh')) c0.
Proof.
  intros Hl Hlen Hnt. rewrite (select_header_cases headers l c0 c1 bias Hl).
  destruct (possible_of c0 c1 l headers) as [|[q1 h1] [|p2 ps]];
    [simpl in Hlen; lia|simpl in Hlen; lia|].
  set (possible := (q1, h1) :: p2 :: ps) in *.
  set (rest := leftmost_candidates c0 (p2 :: ps)).
  change (leftmost_candidates c0 possible)
    with ((getattr (snd h1) c0, h1) :: rest) in *.
  destruct (min_loop_tuple_lt rest _ Hnt) as (m & Hm & Hin & Hle).
  unfold py_min. rewrite Hm. cbn [obind].
  change ((getattr (snd h1) c0, h1) :: rest)
    with (leftmost_candidates c0 possible) in Hin, Hle.
  unfold leftmost_candidates in Hin, Hle.
  apply in_map_iff in Hin as (oh & <- & Hoh).
  exists oh. split; [reflexivity|]. split; [exact Hoh|].
  intros oh' Hoh'.
  apply (Hle (getattr (snd (snd oh')) c0, snd oh')).
  apply in_map_iff. eauto.
Qed.


(** No overlapping header, bias "min", no two candidate headers with the
    same column minimum: the candidate furthest right is chosen; without a
    candidate the call fails. *)
Lemma select_header_min (headers : list href) (l : TextLine) (c0 c1 : attr) :
  getattr l c0 <= getattr l c1 ->
  possible_of c0 c1 l headers = [] ->
  no_tie (left_candidates c0 l headers) ->
  match left_candidates c0 l headers with
  | [] =>
      select_header headers l c0 c1 "min"
      = Raise (ValueError "max() arg is an empty sequence")
  | _ :: _ =>
      exists h,
        select_header headers l c0 c1 "min" = Ok h /\
        In h headers /\
        getattr (snd h) c0 <= getattr l c0 /\
        forall h', In h' headers -> getattr (snd h') c0 <= getattr l c0 ->
                   getattr (snd h') c0 <= getattr (snd h) c0
  end.
Proof.
  intros Hl Hp Hnt.
  rewrite (select_header_cases headers l c0 c1 _ Hl), Hp. simpl String.eqb.
  cbv iota.
  destruct (left_candidates c0 l headers) as [|c cs] eqn:Hc; [reflexivity|].
  destruct (min_loop_tuple_gt cs c Hnt) as (m & Hm & Hin & Hle).
  exists (snd m). unfold py_max. rewrite Hm. simpl.
  rewrite <- Hc in Hin, Hle. unfold left_candidates in Hin, Hle.
  apply in_map_iff in Hin as (h & <- & Hh). simpl.
  apply filter_In in Hh as [Hh Hq]. apply Qle_bool_iff in Hq.
  split; [reflexivity|]. split; [exact Hh|]. split; [exact Hq|].
  intros h' Hh' Hq'.
  apply (Hle (getattr (snd h') c0, h')).
  apply in_map_iff. exists h'. split; [reflexivity|].
  apply filter_In. split; [exact Hh'|]. apply Qle_bool_iff, Hq'.
Qed.

(** ** The calls of the documentation and their neighbours *)

(** A line inside the span of A and outside that of B goes to A. *)
Example find_row_table_inside_A :
  find_row_table 3%nat 4%nat "centered" heap_AB
  = (Ok 5%nat, heap_AB ++ [OList [6%nat]; ODict [("A"%string, 2%nat)]]).
Proof. vm_compute. reflexivity. Qed.

(** Two lines of one row under the same header end the call. *)
Example find_row_table_twice :
  find_row_table 4%nat 5%nat "centered" heap_twice
  = (Raise (ValueError "duplicate assignment of key 'A'"),
     heap_twice ++ [OList [7%nat]; ODict [("A"%string, 2%nat)]]).
Proof. vm_compute. reflexivity. Qed.

(** Without a header that starts at or before the line, the bias "min"
    has nothing to choose from. *)
Example find_row_table_min_none :
  fst (find_row_table 3%nat 4%nat "min"
         [ line "A" 7 0 8 0; line "C" 9 0 10 0; line "x" 5 (-5) 6 (-5);
           OList [0%nat; 1%nat]; OList [2%nat] ])
  = Raise (ValueError "max() arg is an empty sequence").
Proof. vm_compute. reflexivity. Qed.

(** The center distances are those of floating-point arithmetic.  The line
    [4.0, 6.000000000000001] has the center 5.0 after rounding, at 3.5 from
    both headers, and the comparison of the two tuples fails. *)
Example find_row_table_rounded_tie :
  fst (find_row_table 3%nat 4%nat "centered"
         [ line "A" 0 0 3 0; line "B" 7 0 10 0;
           line "x" 4 (-5) (float_literal 6000000000000001 1000000000000000) (-5);
           OList [0%nat; 1%nat]; OList [2%nat] ])
  = Raise (unorderable "<").
Proof. vm_compute. reflexivity. Qed.

(** The centers of A [2.2, 3.5] and B [4.4, 5.3] are equally far from that
    of the line [3.7, 4.0] as decimals; as floats the distances are 1.0 and
    0.9999999999999996, and the line goes to B without an error. *)
Example find_row_table_rounded_apart :
  exists h',
    find_row_table 3%nat 4%nat "centered"
      [ line "A" (float_literal 22 10) 0 (float_literal 35 10) 0;
        line "B" (float_literal 44 10) 0 (float_literal 53 10) 0;
        line "x" (float_literal 37 10) (-5) 4 (-5);
        OList [0%nat; 1%nat]; OList [2%nat] ]
    = (Ok 5%nat, h') /\
    h' !! 6%nat = Some (ODict [("B"%string, 2%nat)]).
Proof. eexists. split; vm_compute; reflexivity. Qed.

(** The floats 4.9, 5.18 (A), 6.36, 8.66 (B) and 6.24, 6.31 (the line): the
    center of A is the nearer one exactly, the computed distances are
    1.2350000000000003 for A and 1.2349999999999994 for B, and the line goes
    to B. *)
Example find_row_table_rounded_order :
  exists h',
    find_row_table 3%nat 4%nat "centered"
      [ line "A" (float_literal 49 10) 0 (float_literal 518 100) 0;
        line "B" (float_literal 636 100) 0 (float_literal 866 100) 0;
        line "x" (float_literal 624 100) (-5) (float_literal 631 100) (-5);
        OList [0%nat; 1%nat]; OList [2%nat] ]
    = (Ok 5%nat, h') /\
    h' !! 6%nat = Some (ODict [("B"%string, 2%nat)]).
Proof. eexists. split; vm_compute; reflexivity. Qed.

(** The header test of the demo, [abs(l.y0 - top_y0) < 5], is one on the
    rounded difference: 2.4999999999999996 is less than 5 away from -2.5,
    and the computed distance is 5.0. *)
Example headers_of_rounded :
  Qabs (float_literal 24999999999999996 10000000000000000 - - (5 # 2)) < 5 /\
  headers_of (- (5 # 2))
    [(0%nat, text_line "h" 0 (float_literal 24999999999999996 10000000000000000)
               1 3)]
  = [].
Proof. split; vm_compute; reflexivity. Qed.

(** C1: two headers at the same center distance from a line that overlaps
    neither.  The claim has the first header in sorted order chosen and no
    error; the call raises [TypeError], because [min] goes on to compare the
    two [TextLine] objects of the tied tuples. *)
Theorem find_row_table_centered_tie :
  fst (find_row_table 3%nat 4%nat "centered" heap_between)
  = Raise (unorderable "<").
Proof. vm_compute. reflexivity. Qed.

(** C4: a line that overlaps two headers with the same column minimum.  The
    claim has a header with the smallest column minimum chosen; the call
    raises [TypeError] from the comparison of the two tied tuples. *)
Theorem find_row_table_overlap_tie :
  fst (find_row_table 3%nat 4%nat "centered" heap_stacked)
  = Raise (unorderable "<").
Proof. vm_compute. reflexivity. Qed.

(** C5: bias "min", a line to the right of three headers, two of which
    start at the same place.  The claim has the header with the largest
    column minimum, C, chosen; the call raises [TypeError] when [max]
    compares the tuples of A and B. *)
Theorem find_row_table_min_tie :
  fst (find_row_table 4%nat 5%nat "min" heap_right)
  = Raise (unorderable ">").
Proof. vm_compute. reflexivity. Qed.

(** ** [sorted] *)

Lemma sorted_insert_perm {A} (key : A -> Q) (reverse : bool) (x : A)
  (ys : list A) :
  sorted_insert key reverse x ys ≡ₚ x :: ys.
Proof.
  induction ys as [|y ys IH]; simpl; [reflexivity|].
  destruct (if reverse then _ else _); [reflexivity|].
  rewrite IH. apply Permutation_swap.
Qed.

Lemma sorted_perm {A} (key : A -> Q) (reverse : bool) (xs : list A) :
  sorted key reverse xs ≡ₚ xs.
Proof.
  induction xs as [|x xs IH]; simpl; [reflexivity|].
  rewrite sorted_insert_perm, IH. reflexivity.
Qed.

Lemma in_order_total {A} (key : A -> Q) (reverse : bool) (x y : A) :
  (if reverse then Qle_bool (key y) (key x) else Qle_bool (key x) (key y)) = false ->
  in_order key reverse y x.
Proof.
  unfold in_order. destruct reverse; intros H.
  - destruct (Qlt_le_dec (key x) (key y)) as [Hlt|Hle].
    + apply Qlt_le_weak, Hlt.
    + apply Qle_bool_iff in Hle. congruence.
  - destruct (Qlt_le_dec (key y) (key x)) as [Hlt|Hle].
    + apply Qlt_le_weak, Hlt.
    + apply Qle_bool_iff in Hle. congruence.
Qed.

Lemma in_order_trans {A} (key : A -> Q) (reverse : bool) (x y z : A) :
  in_order key reverse x y -> in_order key reverse y z -> in_order key reverse x z.
Proof.
  unfold in_order. destruct reverse; intros H1 H2; eapply Qle_trans; eassumption.
Qed.

Lemma sorted_insert_sorted {A} (key : A -> Q) (reverse : bool) (x : A)
  (ys : list A) :
  StronglySorted (in_order key reverse) ys ->
  StronglySorted (in_order key reverse) (sorted_insert key reverse x ys).
Proof.
  induction 1 as [|y ys Hs IH Hy]; simpl.
  - constructor; constructor.
  - destruct (if reverse then _ else _) eqn:E.
    + constructor; [constructor; assumption|].
      assert (Hxy : in_order key reverse x y).
      { unfold in_order. destruct reverse; apply Qle_bool_iff, E. }
      constructor; [exact Hxy|].
      eapply Forall_impl; [exact Hy|].
      intros z Hz. cbv beta. eapply in_order_trans; eassumption.
    + constructor; [exact IH|].
      apply (in_order_total key reverse) in E.
      rewrite (sorted_insert_perm key reverse x ys).
      constructor; assumption.
Qed.

Lemma sorted_sorted {A} (key : A -> Q) (reverse : bool) (xs : list A) :
  StronglySorted (in_order key reverse) (sorted key reverse xs).
Proof.
  induction xs as [|x xs IH]; simpl; [constructor|].
  apply sorted_insert_sorted, IH.
Qed.

(** ** What [find_table] returns *)

Lemma map_M_read_ok (h h' : heap) (xs : list loc) (ls : list href) :
  map_M (fun x => let* l := read_line x in ret (x, l))%M xs h = (Ok ls, h') ->
  h' = h /\ map fst ls = xs
  /\ Forall (fun l : href => h !! fst l = Some (OTextLine (snd l))) ls.
Proof.
  revert ls h'. induction xs as [|x xs IH]; intros ls h'; simpl.
  - intros [= <- <-]. auto.
  - intros H. apply bind_inv_ok in H as ([x' l] & h1 & Hx & H).
    apply bind_inv_ok in H as (ls' & h2 & Hxs & H).
    injection H as <- <-.
    unfold bind, read_line in Hx.
    destruct (h !! x) as [[l0| |]|] eqn:E; try discriminate.
    injection Hx as <- <- <-.
    destruct (IH _ _ Hxs) as (-> & Hm & HF).
    split; [reflexivity|]. split; [simpl; rewrite Hm; reflexivity|].
    constructor; [exact E|exact HF].
Qed.

Lemma read_lines_ok (r : loc) (h h' : heap) (ls : list href) :
  read_lines r h = (Ok ls, h') ->
  h' = h /\ h !! r = Some (OList (map fst ls))
  /\ Forall (fun l : href => h !! fst l = Some (OTextLine (snd l))) ls.
Proof.
  unfold read_lines. intros H. apply bind_inv_ok in H as (xs & h1 & Hr & H).
  unfold read_list in Hr. destruct (h !! r) as [[|ys|]|] eqn:E; try discriminate.
  injection Hr as <- <-.
  destruct (map_M_read_ok _ _ _ _ H) as (-> & Hm & HF).
  rewrite Hm. auto.
Qed.

Lemma build_row_shape (headers : list href) (row_lookup : list (Q * list href))
  (c0 c1 : attr) (bias : string) (rows : loc) (k : Q) (h h' : heap)
  (rs : list loc) :
  h !! rows = Some (OList rs) ->
  build_row headers row_lookup c0 c1 bias rows k h = (Ok tt, h') ->
  exists row_lines d,
    lookup_getitem k row_lookup = Ok row_lines /\
    h' = <[length h := ODict d]>
           (<[rows := OList (rs ++ [length h])]> (h ++ [ODict []])) /\
    NoDup (dict_keys d) /\
    Forall2 (entry_for headers c0 c1 bias) d row_lines.
Proof.
  intros Hr. unfold build_row. unfold bind at 1. unfold lift.
  destruct (lookup_getitem k row_lookup) as [row_lines|e]; [|discriminate].
  unfold bind at 1. unfold alloc.
  assert (Hlt : (rows < length h)%nat) by (eapply lookup_lt_Some, Hr).
  rewrite (bind_ok _ _ _ _ _
             (py_append_list (h ++ [ODict []]) rows (length h) rs
                (lookup_app_l_Some _ _ _ _ Hr))).
  set (h2 := <[rows := OList (rs ++ [length h])]> (h ++ [ODict []])).
  assert (Hrow : h2 !! length h = Some (ODict [])).
  { unfold h2. rewrite list_lookup_insert_ne by lia.
    apply list_lookup_middle. reflexivity. }
  intros Hloop.
  destruct (assign_loop_ok headers c0 c1 bias (length h) row_lines h2 h' []
              Hrow (NoDup_nil_2) Hloop) as (d1 & -> & Hnd & HF).
  exists row_lines, d1. auto.
Qed.

Lemma build_rows_shape (headers : list href) (row_lookup : list (Q * list href))
  (c0 c1 : attr) (bias : string) (rows : loc) (ks : list Q) :
  forall (h h' : heap) (rs : list loc),
    h !! rows = Some (OList rs) ->
    for_each ks (build_row headers row_lookup c0 c1 bias rows) h = (Ok tt, h') ->
    h' !! rows = Some (OList (rs ++ seq (length h) (length ks))) /\
    length h' = (length h + length ks)%nat /\
    (forall r, (r < length h)%nat -> r <> rows -> h' !! r = h !! r).
Proof.
  induction ks as [|k ks IH]; intros h h' rs Hr; simpl.
  - intros [= <-]. rewrite app_nil_r. split; [exact Hr|]. split; [lia|auto].
  - intros H. apply bind_inv_ok in H as ([] & h1 & Hk & Hrest).
    destruct (build_row_shape _ _ _ _ _ _ _ _ _ _ Hr Hk)
      as (row_lines & d & _ & Hh1 & _ & _).
    assert (Hlt : (rows < length h)%nat) by (eapply lookup_lt_Some, Hr).
    assert (Hlen : length h1 = S (length h)).
    { rewrite Hh1, !length_insert, length_app. simpl. lia. }
    assert (Hr1 : h1 !! rows = Some (OList (rs ++ [length h]))).
    { rewrite Hh1. rewrite list_lookup_insert_ne by lia.
      apply list_lookup_insert_eq. rewrite length_app. simpl. lia. }
    destruct (IH _ _ _ Hr1 Hrest) as (Hr' & Hlen' & Hold).
    rewrite Hlen in *. rewrite <- app_assoc in Hr'.
    split; [exact Hr'|]. split; [lia|].
    intros r Hr0 Hne. rewrite Hold by (lia || exact Hne).
    rewrite Hh1. rewrite list_lookup_insert_ne by lia.
    rewrite list_lookup_insert_ne by congruence.
    apply lookup_app_l. exact Hr0.
Qed.

Lemma omap_length {A B} (f : A -> outcome B) (xs : list A) (ys : list B) :
  omap f xs = Ok ys -> length ys = length xs.
Proof.
  revert ys. induction xs as [|x xs IH]; intros ys; simpl.
  - intros [= <-]. reflexivity.
  - destruct (f x) as [y|e]; [|discriminate]. simpl.
    destruct (omap f xs) as [ys'|e]; [|discriminate]. simpl.
    intros [= <-]. simpl. rewrite (IH ys' eq_refl). reflexivity.
Qed.

Lemma find_table_returns (h h' : heap) (headers lines rows : loc)
  (r0 r1 c0 c1 : attr) (reverse_sort : bool) (bias : string) :
  find_table headers lines r0 r1 c0 c1 reverse_sort bias h = (Ok rows, h') ->
  exists hs ls cls fresh,
    read_lines headers h = (Ok hs, h) /\
    read_lines lines h = (Ok ls, h) /\
    clusters r0 reverse_sort ls = Ok cls /\
    rows = length h /\
    h' = h ++ fresh /\
    h' !! rows = Some (OList (seq (S (length h)) (length cls))) /\
    Forall2
      (row_holds (sorted (fun hd : href => getattr (snd hd) c0) false hs)
         c0 c1 bias h')
      (seq (S (length h)) (length cls)) cls.
Proof.
  intros H.
  destruct (keeps_find_table h headers lines r0 r1 c0 c1 reverse_sort bias [])
    as [fresh Hfresh].
  rewrite app_nil_r, H in Hfresh. simpl in Hfresh.
  unfold find_table in H.
  apply bind_inv_ok in H as (hs & h1 & Hhs & H).
  destruct (read_lines_ok _ _ _ _ Hhs) as (-> & _ & _).
  apply bind_inv_ok in H as (ls & h1 & Hls & H).
  destruct (read_lines_ok _ _ _ _ Hls) as (-> & _ & _).
  unfold bind at 1 in H. unfold alloc in H.
  apply bind_inv_ok in H as ([] & h2 & Hloop & H).
  injection H as <- <-.
  pose proof (list_lookup_middle h [] (OList []) (length h) eq_refl) as Hrows.
  destruct (build_rows_ok _ _ _ _ _ _ _ _ _ [] [] Hrows (Forall2_nil_2 _ _ _) Hloop)
    as (rs & cls & Ho & Hr & HF).
  destruct (build_rows_shape _ _ _ _ _ _ _ _ _ _ Hrows Hloop) as (Hr' & _ & _).
  simpl in Hr, Hr', HF. rewrite Hr' in Hr. injection Hr as <-.
  rewrite length_app in *. simpl in *.
  replace (length h + 1)%nat with (S (length h)) in * by lia.
  rewrite <- (omap_length _ _ _ Ho) in *.
  exists hs, ls, cls, fresh. unfold clusters. auto 10.
Qed.

Lemma sorted_insert_before (reverse : bool) (x : Q) (ys : list Q) :
  StronglySorted (before reverse) ys ->
  (forall y, In y ys -> ~ x == y) ->
  StronglySorted (before reverse) (sorted_insert (fun k : Q => k) reverse x ys).
Proof.
  induction 1 as [|y ys Hs IH Hy]; intros Hx; simpl.
  - constructor; constructor.
  - assert (Hxy : ~ x == y) by (apply Hx; left; reflexivity).
    destruct (if reverse then _ else _) eqn:E.
    + assert (Hb : before reverse x y).
      { unfold before. destruct reverse; apply Qle_bool_iff in E; lra. }
      constructor; [constructor; assumption|].
      constructor; [exact Hb|].
      eapply Forall_impl; [exact Hy|].
      intros z Hz. cbv beta. unfold before in *. destruct reverse; lra.
    + constructor; [apply IH; intros z Hz; apply Hx; right; exact Hz|].
      rewrite (sorted_insert_perm (fun k : Q => k) reverse x ys).
      constructor; [|exact Hy].
      unfold before. destruct reverse.
      * destruct (Qlt_le_dec x y) as [Hlt|Hle]; [exact Hlt|].
        apply Qle_bool_iff in Hle. congruence.
      * destruct (Qlt_le_dec y x) as [Hlt|Hle]; [exact Hlt|].
        apply Qle_bool_iff in Hle. congruence.
Qed.

Lemma row_keys_before (r0 : attr) (reverse_sort : bool) (ls : list href) :
  StronglySorted (before reverse_sort) (row_keys r0 reverse_sort ls).
Proof.
  unfold row_keys.
  pose proof (distinct_get_attr_lookup (fun l : href => getattr (snd l) r0) ls) as Hd.
  induction (get_attr_lookup (fun l : href => getattr (snd l) r0) ls)
    as [|[k g] d IH]; simpl; [constructor|].
  destruct Hd as [Hk Hd].
  apply sorted_insert_before; [apply IH, Hd|].
  intros y Hy Heq.
  apply (Permutation_in _ (sorted_perm _ _ _)) in Hy.
  apply in_map_iff in Hy as ([k' g'] & <- & Hin). simpl in Heq.
  apply Qeq_bool_iff in Heq. rewrite (Hk _ _ Hin) in Heq. discriminate.
Qed.

Lemma omap_map {A B} (f : A -> outcome B) (g : A -> B) (xs : list A) :
  (forall x, In x xs -> f x = Ok (g x)) -> omap f xs = Ok (map g xs).
Proof.
  induction xs as [|x xs IH]; intros H; simpl; [reflexivity|].
  rewrite (H x (or_introl eq_refl)), IH; [reflexivity|].
  intros y Hy. apply H. right. exact Hy.
Qed.

(** Every cluster is the list of the lines at one row coordinate. *)
Lemma clusters_by_key (r0 : attr) (reverse_sort : bool) (ls : list href) :
  clusters r0 reverse_sort ls
  = Ok (map (fun k => List.filter
                        (fun l : href => Qeq_bool (getattr (snd l) r0) k) ls)
          (row_keys r0 reverse_sort ls)).
Proof.
  unfold clusters, row_keys. apply omap_map. intros k Hk.
  apply (Permutation_in _ (sorted_perm _ _ _)) in Hk.
  apply in_map_iff in Hk as ([k' g] & <- & Hin). simpl.
  rewrite (lookup_distinct _ _ _ (distinct_get_attr_lookup _ ls) Hin).
  destruct (entry_get_attr_lookup _ _ _ _ Hin) as [-> _]. reflexivity.
Qed.

Lemma row_keys_cover (r0 : attr) (reverse_sort : bool) (ls : list href)
  (l : href) :
  In l ls ->
  exists k, In k (row_keys r0 reverse_sort ls) /\ getattr (snd l) r0 == k.
Proof.
  intros Hl.
  pose proof (lookup_get_attr_lookup (fun l : href => getattr (snd l) r0)
                (getattr (snd l) r0) ls) as Hlk.
  destruct (List.filter _ ls) as [|x g] eqn:E.
  - exfalso. assert (Hin : In l []); [|destruct Hin].
    rewrite <- E. apply filter_In. split; [exact Hl|apply Qeq_bool_refl].
  - apply lookup_in in Hlk as (k & Hin & Hk).
    exists k. split.
    + unfold row_keys. apply (Permutation_in _ (Permutation_sym (sorted_perm _ _ _))).
      apply in_map_iff. exists (k, x :: g). auto.
    + apply Qeq_bool_iff. rewrite Qeq_bool_sym. exact Hk.
Qed.

Lemma row_keys_occur (r0 : attr) (reverse_sort : bool) (ls : list href)
  (k : Q) :
  In k (row_keys r0 reverse_sort ls) ->
  List.filter (fun l : href => Qeq_bool (getattr (snd l) r0) k) ls <> [].
Proof.
  unfold row_keys. intros Hk.
  apply (Permutation_in _ (sorted_perm _ _ _)) in Hk.
  apply in_map_iff in Hk as ([k' g] & <- & Hin). simpl.
  destruct (entry_get_attr_lookup _ _ _ _ Hin) as [<- Hne]. exact Hne.
Qed.

Lemma entries_values (headers : list href) (c0 c1 : attr) (bias : string)
  (d : dict loc) (row_lines : list href) :
  Forall2 (entry_for headers c0 c1 bias) d row_lines ->
  dict_values d = map fst row_lines.
Proof.
  unfold dict_values.
  induction 1 as [|kv l d ls [Hv _] _ IH]; simpl; [reflexivity|].
  rewrite Hv, IH. reflexivity.
Qed.

Lemma Forall2_map_right {A B C} (P : A -> C -> Prop) (g : B -> C)
  (xs : list A) (ys : list B) :
  Forall2 P xs (map g ys) -> Forall2 (fun x y => P x (g y)) xs ys.
Proof.
  revert xs. induction ys as [|y ys IH]; intros xs H; simpl in H.
  - inversion H. constructor.
  - inversion H; subst. constructor; auto.
Qed.

(** The rows of a table, one for each row coordinate. *)
Lemma find_table_rows_by_key (h h' : heap) (headers lines rows : loc)
  (r0 r1 c0 c1 : attr) (reverse_sort : bool) (bias : string) :
  find_table headers lines r0 r1 c0 c1 reverse_sort bias h = (Ok rows, h') ->
  exists ls rs,
    read_lines lines h = (Ok ls, h) /\
    h' !! rows = Some (OList rs) /\
    Forall2
      (fun r k =>
         exists d, h' !! r = Some (ODict d) /\ d <> [] /\
                   dict_values d
                   = map fst (List.filter
                                (fun l : href => Qeq_bool (getattr (snd l) r0) k)
                                ls))
      rs (row_keys r0 reverse_sort ls).
Proof.
  intros H.
  destruct (find_table_returns _ _ _ _ _ _ _ _ _ _ _ H)
    as (hs & ls & cls & fresh & _ & Hls & Hcl & _ & _ & Hrows & HF).
  rewrite clusters_by_key in Hcl. injection Hcl as <-.
  exists ls, (seq (S (length h)) (length (row_keys r0 reverse_sort ls))).
  rewrite length_map in *.
  split; [exact Hls|]. split; [exact Hrows|].
  apply Forall2_map_right in HF.
  apply Forall2_same_length_lookup. split; [rewrite length_seq; reflexivity|].
  intros i r k Hr Hk.
  destruct (Forall2_lookup_lr _ _ _ _ _ _ HF Hr Hk) as (d & Hd & Hnd & He).
  exists d. split; [exact Hd|]. pose proof (entries_values _ _ _ _ _ _ He) as Hv.
  split; [|exact Hv].
  intros ->. simpl in Hv. symmetry in Hv. apply map_eq_nil in Hv.
  apply (row_keys_occur r0 reverse_sort ls k); [|exact Hv].
  apply list_elem_of_In. eapply list_elem_of_lookup_2, Hk.
Qed.

(** X1: the rows of the table follow the row coordinate, and each holds the
    lines at its coordinate in the order in which they were given. *)
Theorem find_table_rows_in_order (h h' : heap) (headers lines rows : loc)
  (r0 r1 c0 c1 : attr) (reverse_sort : bool) (bias : string) :
  find_table headers lines r0 r1 c0 c1 reverse_sort bias h = (Ok rows, h') ->
  exists ls ks rs,
    read_lines lines h = (Ok ls, h) /\
    h' !! rows = Some (OList rs) /\
    StronglySorted (before reverse_sort) ks /\
    (forall l, In l ls -> exists k, In k ks /\ getattr (snd l) r0 == k) /\
    Forall2
      (fun r k =>
         exists d, h' !! r = Some (ODict d) /\ d <> [] /\
                   dict_values d
                   = map fst (List.filter
                                (fun l : href => Qeq_bool (getattr (snd l) r0) k)
                                ls))
      rs ks.
Proof.
  intros H.
  destruct (find_table_rows_by_key _ _ _ _ _ _ _ _ _ _ _ H)
    as (ls & rs & Hls & Hrows & HF).
  exists ls, (row_keys r0 reverse_sort ls), rs.
  split; [exact Hls|]. split; [exact Hrows|].
  split; [apply row_keys_before|]. split; [intros l; apply row_keys_cover|].
  exact HF.
Qed.

Lemma find_row_table_page :
  find_row_table 5%nat 6%nat "centered" heap_page = (Ok 7%nat, heap_page_table).
Proof. vm_compute. reflexivity. Qed.

Lemma find_table_rows_in_order_witness :
  exists ls ks rs,
    read_lines 6%nat heap_page = (Ok ls, heap_page) /\
    heap_page_table !! 7%nat = Some (OList rs) /\
    StronglySorted (before true) ks /\
    (forall l, In l ls -> exists k, In k ks /\ getattr (snd l) Y0 == k) /\
    Forall2
      (fun r k =>
         exists d, heap_page_table !! r = Some (ODict d) /\ d <> [] /\
                   dict_values d
                   = map fst (List.filter
                                (fun l : href => Qeq_bool (getattr (snd l) Y0) k)
                                ls))
      rs ks.
Proof.
  exact (find_table_rows_in_order heap_page heap_page_table 5%nat 6%nat 7%nat
           Y0 Y1 X0 X1 true "centered" find_row_table_page).
Defined.

(** ** No line is lost *)

Section Groups.
Context {A : Type} (f : A -> Q).

Lemma concat_groups_cons (l : A) (ls : list A) (ks : list Q) :
  StronglySorted (fun a b => ~ a == b) ks ->
  concat (map (fun k => List.filter (fun x => Qeq_bool (f x) k) (l :: ls)) ks)
  ≡ₚ (if existsb (fun k => Qeq_bool (f l) k) ks then [l] else [])
     ++ concat (map (fun k => List.filter (fun x => Qeq_bool (f x) k) ls) ks).
Proof.
  induction 1 as [|k ks Hs IH Hk]; simpl; [reflexivity|].
  rewrite IH. destruct (Qeq_bool (f l) k) eqn:E; simpl.
  - assert (Hno : existsb (fun k0 => Qeq_bool (f l) k0) ks = false).
    { apply not_true_is_false. intros He.
      apply existsb_exists in He as (k' & Hin & Hq).
      rewrite Forall_forall in Hk. apply (Hk k' (proj2 (list_elem_of_In _ _) Hin)).
      apply Qeq_bool_iff in E, Hq. rewrite <- E, <- Hq. reflexivity. }
    rewrite Hno. reflexivity.
  - destruct (existsb _ ks); simpl; [|reflexivity].
    symmetry. apply Permutation_middle.
Qed.

Lemma concat_groups (ls : list A) (ks : list Q) :
  StronglySorted (fun a b => ~ a == b) ks ->
  (forall l, In l ls -> exists k, In k ks /\ f l == k) ->
  concat (map (fun k => List.filter (fun x => Qeq_bool (f x) k) ls) ks) ≡ₚ ls.
Proof.
  intros Hs. induction ls as [|l ls IH]; intros Hc.
  - clear. induction ks as [|k ks IHk]; simpl; [reflexivity|exact IHk].
  - rewrite (concat_groups_cons l ls ks Hs).
    destruct (Hc l (or_introl eq_refl)) as (k & Hin & Hk).
    assert (He : existsb (fun k0 => Qeq_bool (f l) k0) ks = true).
    { apply existsb_exists. exists k. split; [exact Hin|apply Qeq_bool_iff, Hk]. }
    rewrite He. simpl. apply Permutation_cons; [reflexivity|].
    apply IH. intros l' Hl'. apply Hc. right. exact Hl'.
Qed.
End Groups.

Lemma before_distinct (reverse : bool) (ks : list Q) :
  StronglySorted (before reverse) ks ->
  StronglySorted (fun a b => ~ a == b) ks.
Proof.
  induction 1 as [|k ks Hs IH Hk]; constructor; [exact IH|].
  eapply Forall_impl; [exact Hk|].
  intros k' Hb. cbv beta. unfold before in Hb. destruct reverse; lra.
Qed.

(** X2: when [find_table] returns, every line it was given is in exactly one
    row: the values of all rows together are the given lines, each as often
    as it was given. *)
Theorem find_table_partition (h h' : heap) (headers lines rows : loc)
  (r0 r1 c0 c1 : attr) (reverse_sort : bool) (bias : string) :
  find_table headers lines r0 r1 c0 c1 reverse_sort bias h = (Ok rows, h') ->
  exists refs rs ds,
    h !! lines = Some (OList refs) /\
    h' !! rows = Some (OList rs) /\
    Forall2 (fun r d => h' !! r = Some (ODict d)) rs ds /\
    concat (map dict_values ds) ≡ₚ refs.
Proof.
  intros H.
  destruct (find_table_rows_by_key _ _ _ _ _ _ _ _ _ _ _ H)
    as (ls & rs & Hls & Hrows & HF).
  pose proof (row_keys_before r0 reverse_sort ls) as Hs.
  pose proof (row_keys_cover r0 reverse_sort ls) as Hc.
  remember (row_keys r0 reverse_sort ls) as ks eqn:Hks. clear Hks.
  destruct (read_lines_ok _ _ _ _ Hls) as (_ & Hrefs & _).
  exists (map fst ls), rs.
  assert (Hds : exists ds,
             Forall2 (fun r d => h' !! r = Some (ODict d)) rs ds /\
             map dict_values ds
             = map (fun k => map fst
                               (List.filter
                                  (fun l : href => Qeq_bool (getattr (snd l) r0) k)
                                  ls)) ks).
  { clear -HF. induction HF as [|r k rs ks (d & Hd & _ & Hv) _ (ds & Hds & Hm)].
    - exists []. split; constructor.
    - exists (d :: ds). split; [constructor; assumption|].
      simpl. rewrite Hv, Hm. reflexivity. }
  destruct Hds as (ds & Hds & Hm).
  exists ds. split; [exact Hrefs|]. split; [exact Hrows|]. split; [exact Hds|].
  rewrite Hm.
  transitivity
    (map fst (concat (map (fun k => List.filter
                                      (fun l : href =>
                                         Qeq_bool (getattr (snd l) r0) k) ls)
                        ks))).
  - clear. induction ks as [|k ks IH]; simpl; [reflexivity|].
    rewrite map_app, IH. reflexivity.
  - apply Permutation_map.
    apply (concat_groups (fun l : href => getattr (snd l) r0) ls ks
             (before_distinct _ _ Hs) Hc).
Qed.

Lemma find_table_partition_witness :
  exists refs rs ds,
    heap_page !! 6%nat = Some (OList refs) /\
    heap_page_table !! 7%nat = Some (OList rs) /\
    Forall2 (fun r d => heap_page_table !! r = Some (ODict d)) rs ds /\
    concat (map dict_values ds) ≡ₚ refs.
Proof.
  exact (find_table_partition heap_page heap_page_table 5%nat 6%nat 7%nat
           Y0 Y1 X0 X1 true "centered" find_row_table_page).
Defined.

(** ** Keys and values of the rows *)

Lemma min_loop_in {A} (lt : A -> A -> outcome bool) (rest : list A) :
  forall cur m, min_loop lt cur rest = Ok m -> In m (cur :: rest).
Proof.
  induction rest as [|item rest IH]; intros cur m; simpl.
  - intros [= <-]. left. reflexivity.
  - destruct (lt item cur) as [b|e]; [|discriminate]. simpl.
    intros H. apply IH in H. destruct b; simpl in *; tauto.
Qed.

Lemma py_min_in {A} (lt : A -> A -> outcome bool) (items : list A) (m : A) :
  py_min lt items = Ok m -> In m items.
Proof.
  destruct items as [|x rest]; [discriminate|]. apply min_loop_in.
Qed.

Lemma py_max_in {A} (gt : A -> A -> outcome bool) (items : list A) (m : A) :
  py_max gt items = Ok m -> In m items.
Proof.
  destruct items as [|x rest]; [discriminate|]. apply min_loop_in.
Qed.

Lemma possible_of_in (c0 c1 : attr) (l : TextLine) (headers : list href)
  (oh : Q * href) :
  In oh (possible_of c0 c1 l headers) -> In (snd oh) headers /\ 0 < fst oh.
Proof.
  unfold possible_of, overlaps_of. intros H.
  apply filter_In in H as [H Ht]. apply in_map_iff in H as (hd & <- & Hin).
  split; [exact Hin|]. simpl in *.
  unfold truthy in Ht. apply negb_true_iff in Ht.
  destruct (Qmax_cases 0 (float_sub (Qmin (getattr (snd hd) c1) (getattr l c1))
                            (Qmax (getattr (snd hd) c0) (getattr l c0))))
    as [[Hlt He]|[Hle He]].
  - rewrite He. exact Hlt.
  - apply Qeq_bool_iff in He. congruence.
Qed.

(** The header chosen for a line is one of the headers, and a header can
    only be chosen for a line whose column minimum is not above its column
    maximum. *)
Lemma select_header_in (headers : list href) (l : TextLine) (c0 c1 : attr)
  (bias : string) (hd : href) :
  select_header headers l c0 c1 bias = Ok hd ->
  In hd headers /\ getattr l c0 <= getattr l c1.
Proof.
  intros H.
  assert (Hl : getattr l c0 <= getattr l c1).
  { unfold select_header in H.
    destruct (Qle_bool (getattr l c0) (getattr l c1)) eqn:E; [|discriminate].
    apply Qle_bool_iff, E. }
  split; [|exact Hl].
  rewrite (select_header_cases headers l c0 c1 bias Hl) in H.
  destruct (possible_of c0 c1 l headers) as [|[q1 h1] [|p2 ps]] eqn:Hp.
  - destruct (String.eqb bias "centered").
    + destruct (py_min tuple_lt _) as [m|e] eqn:Hm; [|discriminate].
      injection H as <-. apply py_min_in in Hm.
      unfold center_distances in Hm.
      apply in_map_iff in Hm as (x & <- & Hx). exact Hx.
    + destruct (String.eqb bias "min"); [|discriminate].
      destruct (py_max tuple_gt _) as [m|e] eqn:Hm; [|discriminate].
      injection H as <-. apply py_max_in in Hm.
      unfold left_candidates in Hm.
      apply in_map_iff in Hm as (x & <- & Hx).
      apply filter_In in Hx as [Hx _]. exact Hx.
  - injection H as <-.
    apply (possible_of_in c0 c1 l headers (q1, h1)). rewrite Hp. left. reflexivity.
  - destruct (py_min tuple_lt _) as [m|e] eqn:Hm; [|discriminate].
    injection H as <-. apply py_min_in in Hm.
    unfold leftmost_candidates in Hm.
    apply in_map_iff in Hm as (oh & <- & Hoh). simpl.
    apply (possible_of_in c0 c1 l headers oh). rewrite Hp. exact Hoh.
Qed.


(** ** [find_table]: empty input *)

(** X3: without lines the table is empty, whatever the headers are: the
    call returns a new empty list and creates nothing else. *)
Theorem find_table_no_lines (h : heap) (headers lines : loc)
  (hs : list href) (r0 r1 c0 c1 : attr) (reverse_sort : bool) (bias : string) :
  read_lines headers h = (Ok hs, h) ->
  h !! lines = Some (OList []) ->
  find_table headers lines r0 r1 c0 c1 reverse_sort bias h
  = (Ok (length h), h ++ [OList []]).
Proof.
  intros Hhs Hls. unfold find_table.
  rewrite (bind_ok _ _ _ _ _ Hhs).
  assert (Hr : read_lines lines h = (Ok [], h)).
  { unfold read_lines, bind, read_list. rewrite Hls. reflexivity. }
  rewrite (bind_ok _ _ _ _ _ Hr). reflexivity.
Qed.

Lemma find_table_no_lines_witness :
  find_table 3%nat 5%nat Y0 Y1 X0 X1 true "centered" (heap_AB ++ [OList []])
  = (Ok 6%nat, (heap_AB ++ [OList []]) ++ [OList []]).
Proof.
  apply (find_table_no_lines (heap_AB ++ [OList []]) 3%nat 5%nat
           [(0%nat, text_line "A" 0 0 10 0); (1%nat, text_line "B" 10 0 20 0)]);
    reflexivity.
Defined.

Lemma select_header_no_headers (l : TextLine) (c0 c1 : attr) (bias : string) :
  select_header [] l c0 c1 bias = Raise AssertionError
  \/ exists msg, select_header [] l c0 c1 bias = Raise (ValueError msg).
Proof.
  unfold select_header.
  destruct (Qle_bool (getattr l c0) (getattr l c1)); simpl; [|auto].
  right. destruct (String.eqb bias "centered"); [eauto|].
  destruct (String.eqb bias "min"); eauto.
Qed.

Lemma get_attr_lookup_cons {A} (f : A -> Q) (l : A) (ls : list A) :
  get_attr_lookup f (l :: ls) <> [].
Proof.
  intros H.
  pose proof (lookup_get_attr_lookup f (f l) (l :: ls)) as Hl.
  rewrite H in Hl. simpl in Hl. rewrite Qeq_bool_refl in Hl. discriminate.
Qed.

(** A line that cannot be given a header ends the row, the loops and the
    call. *)
Lemma build_row_raise (headers : list href) (row_lookup : list (Q * list href))
  (c0 c1 : attr) (bias : string) (rows : loc) (k : Q) (h : heap)
  (rs : list loc) (l : href) (g : list href) (e : exn) :
  lookup_getitem k row_lookup = Ok (l :: g) ->
  h !! rows = Some (OList rs) ->
  select_header headers (snd l) c0 c1 bias = Raise e ->
  exists h', build_row headers row_lookup c0 c1 bias rows k h = (Raise e, h').
Proof.
  intros Hg Hr He. unfold build_row.
  rewrite (bind_ok _ _ h h (l :: g)) by (unfold lift; rewrite Hg; reflexivity).
  rewrite (bind_ok _ _ h (h ++ [ODict []]) (length h)) by reflexivity.
  rewrite (bind_ok _ _ _ _ _
             (py_append_list (h ++ [ODict []]) rows (length h) rs
                (lookup_app_l_Some _ _ _ _ Hr))).
  eexists. cbn [for_each]. apply bind_raise.
  unfold assign_line. apply bind_raise. unfold lift. rewrite He. reflexivity.
Qed.

(** X4: without headers no line can be placed: on a page with at least one
    line the call raises, with [AssertionError] or [ValueError], at the
    first line it looks at. *)
Theorem find_table_no_headers (h : heap) (headers lines : loc)
  (ls : list href) (r0 r1 c0 c1 : attr) (reverse_sort : bool) (bias : string) :
  h !! headers = Some (OList []) ->
  read_lines lines h = (Ok ls, h) ->
  ls <> [] ->
  exists e h',
    find_table headers lines r0 r1 c0 c1 reverse_sort bias h = (Raise e, h')
    /\ (e = AssertionError \/ exists msg, e = ValueError msg).
Proof.
  intros Hhs Hls Hne. unfold find_table.
  assert (Hr : read_lines headers h = (Ok [], h)).
  { unfold read_lines, bind, read_list. rewrite Hhs. reflexivity. }
  rewrite (bind_ok _ _ _ _ _ Hr), (bind_ok _ _ _ _ _ Hls).
  rewrite (bind_ok _ _ h (h ++ [OList []]) (length h)) by reflexivity.
  pose proof (clusters_by_key r0 reverse_sort ls) as Hcl.
  unfold clusters in Hcl. fold (row_keys r0 reverse_sort ls) in Hcl |- *.
  destruct (row_keys r0 reverse_sort ls) as [|k ks] eqn:Hk.
  { exfalso. destruct ls as [|l ls]; [congruence|].
    apply (get_attr_lookup_cons (fun l : href => getattr (snd l) r0) l ls).
    apply (f_equal (@length Q)) in Hk. unfold row_keys in Hk.
    rewrite (Permutation_length (sorted_perm _ _ _)), length_map in Hk.
    apply length_zero_iff_nil, Hk. }
  assert (Hocc : List.filter (fun l : href => Qeq_bool (getattr (snd l) r0) k) ls
                 <> []).
  { apply (row_keys_occur r0 reverse_sort ls). rewrite Hk. left. reflexivity. }
  simpl in Hcl.
  destruct (lookup_getitem k _) as [g|e] eqn:Hg; [|discriminate]. simpl in Hcl.
  destruct (omap _ ks) as [gs|e]; [|discriminate]. simpl in Hcl.
  injection Hcl as -> _.
  destruct (List.filter _ ls) as [|l g] eqn:Hfil; [congruence|].
  assert (Hsel : exists e, select_header [] (snd l) c0 c1 bias = Raise e
                           /\ (e = AssertionError \/ exists msg, e = ValueError msg)).
  { destruct (select_header_no_headers (snd l) c0 c1 bias) as [He|[msg He]];
      eauto 6. }
  destruct Hsel as (e & He & Hkind).
  destruct (build_row_raise [] _ c0 c1 bias (length h) k (h ++ [OList []]) []
              l g e Hg (list_lookup_middle h [] (OList []) (length h) eq_refl) He)
    as [h' Hb].
  exists e, h'. split; [|exact Hkind].
  apply bind_raise. cbn [for_each]. apply bind_raise. exact Hb.
Qed.

Lemma find_table_no_headers_witness :
  exists e h',
    find_table 5%nat 4%nat Y0 Y1 X0 X1 true "centered" (heap_AB ++ [OList []])
    = (Raise e, h')
    /\ (e = AssertionError \/ exists msg, e = ValueError msg).
Proof.
  apply (find_table_no_headers (heap_AB ++ [OList []]) 5%nat 4%nat
           [(2%nat, text_line "x" 2 (-5) 8 (-5))]);
    [reflexivity|reflexivity|discriminate].
Defined.

(** ** The heading bias *)

(** A header that overlaps the line is among the possible headers. *)
Lemma possible_of_intro (c0 c1 : attr) (l : TextLine) (headers : list href)
  (hd : href) (v : Q) :
  In hd headers ->
  overlap (getattr (snd hd) c0) (getattr (snd hd) c1) (getattr l c0) (getattr l c1)
  = Ok v ->
  0 < v ->
  possible_of c0 c1 l headers <> [] /\ getattr l c0 <= getattr l c1.
Proof.
  intros Hin Ho Hv. unfold overlap in Ho.
  destruct (Qle_bool (getattr l c0) (getattr l c1)) eqn:E; [|discriminate].
  injection Ho as <-. split; [|apply Qle_bool_iff, E].
  intros Hp.
  assert (H : In (Qmax 0 (float_sub (Qmin (getattr (snd hd) c1) (getattr l c1))
                            (Qmax (getattr (snd hd) c0) (getattr l c0))), hd)
                (possible_of c0 c1 l headers)); [|rewrite Hp in H; destruct H].
  apply filter_In. split.
  - unfold overlaps_of. apply in_map_iff. eauto.
  - simpl. unfold truthy. apply negb_true_iff.
    destruct (Qeq_bool _ 0) eqn:E0; [|reflexivity].
    apply Qeq_bool_iff in E0. rewrite E0 in Hv. lra.
Qed.

Lemma select_header_bias (headers : list href) (l : TextLine) (c0 c1 : attr)
  (bias bias' : string) :
  possible_of c0 c1 l headers <> [] ->
  select_header headers l c0 c1 bias = select_header headers l c0 c1 bias'.
Proof.
  intros Hp.
  destruct (Qle_bool (getattr l c0) (getattr l c1)) eqn:E.
  - apply Qle_bool_iff in E. rewrite !(select_header_cases _ _ _ _ _ E).
    destruct (possible_of c0 c1 l headers) as [|[q1 h1] [|p2 ps]];
      [congruence|reflexivity|reflexivity].
  - unfold select_header. rewrite E. reflexivity.
Qed.

Lemma for_each_ext {A} (xs : list A) (body body' : A -> M unit) (h : heap) :
  (forall x h0, In x xs -> body x h0 = body' x h0) ->
  for_each xs body h = for_each xs body' h.
Proof.
  revert h. induction xs as [|x xs IH]; intros h Hb; simpl; [reflexivity|].
  unfold bind. rewrite (Hb x h (or_introl eq_refl)).
  destruct (body' x h) as [[[]|e] h1]; [|reflexivity].
  apply IH. intros y h0 Hy. apply Hb. right. exact Hy.
Qed.

Lemma lookup_getitem_sub {A} (f : A -> Q) (ls g : list A) (k : Q) (l : A) :
  lookup_getitem k (get_attr_lookup f ls) = Ok g -> In l g -> In l ls.
Proof.
  rewrite lookup_get_attr_lookup.
  destruct (List.filter _ ls) as [|x g'] eqn:E; [discriminate|].
  intros [= <-] Hl. rewrite <- E in Hl. apply filter_In in Hl as [Hl _]. exact Hl.
Qed.

(** X5: the heading bias is looked at only for a line that overlaps no
    header.  When every line overlaps a header, the call does the same for
    any two values of [heading_bias], recognised or not. *)
Theorem find_table_bias_unused (h : heap) (headers lines : loc)
  (hs ls : list href) (r0 r1 c0 c1 : attr) (reverse_sort : bool)
  (bias bias' : string) :
  read_lines headers h = (Ok hs, h) ->
  read_lines lines h = (Ok ls, h) ->
  (forall l, In l ls ->
     exists hd v,
       In hd hs /\
       overlap (getattr (snd hd) c0) (getattr (snd hd) c1)
         (getattr (snd l) c0) (getattr (snd l) c1) = Ok v /\
       0 < v) ->
  find_table headers lines r0 r1 c0 c1 reverse_sort bias h
  = find_table headers lines r0 r1 c0 c1 reverse_sort bias' h.
Proof.
  intros Hhs Hls Hov. unfold find_table.
  rewrite !(bind_ok _ _ _ _ _ Hhs), !(bind_ok _ _ _ _ _ Hls).
  rewrite !(bind_ok _ _ h (h ++ [OList []]) (length h)) by reflexivity.
  unfold bind.
  rewrite (for_each_ext _ _
             (build_row (sorted (fun h0 : href => getattr (snd h0) c0) false hs)
                (get_attr_lookup (fun l : href => getattr (snd l) r0) ls)
                c0 c1 bias' (length h))); [reflexivity|].
  intros k h0 _. unfold build_row. unfold bind at 1 3. unfold lift.
  destruct (lookup_getitem k _) as [g|e] eqn:Hg; [|reflexivity].
  unfold bind at 1 3. unfold alloc. unfold bind.
  destruct (py_append (length h) (length h0) (h0 ++ [ODict []])) as [[[]|e] h1];
    [|reflexivity].
  apply for_each_ext. intros l h2 Hl.
  unfold assign_line, bind, lift.
  rewrite (select_header_bias _ (snd l) c0 c1 bias bias'); [reflexivity|].
  destruct (Hov l (lookup_getitem_sub _ _ _ _ _ Hg Hl)) as (hd & v & Hin & Ho & Hv).
  apply (possible_of_intro c0 c1 (snd l) _ hd v); [|exact Ho|exact Hv].
  exact (Permutation_in _ (Permutation_sym (sorted_perm _ false hs)) Hin).
Qed.

Lemma find_table_bias_unused_witness :
  find_table 3%nat 4%nat Y0 Y1 X0 X1 true "centered" heap_AB
  = find_table 3%nat 4%nat Y0 Y1 X0 X1 true "nearest" heap_AB.
Proof.
  apply (find_table_bias_unused heap_AB 3%nat 4%nat
           [(0%nat, text_line "A" 0 0 10 0); (1%nat, text_line "B" 10 0 20 0)]
           [(2%nat, text_line "x" 2 (-5) 8 (-5))]);
    [reflexivity|reflexivity|].
  intros l [<-|[]].
  exists (0%nat, text_line "A" 0 0 10 0), 6.
  split; [left; reflexivity|]. split; [reflexivity|reflexivity].
Defined.

(** Every line of a table that was built was given a header. *)
Lemma find_table_selects (h h' : heap) (headers lines rows : loc)
  (r0 r1 c0 c1 : attr) (reverse_sort : bool) (bias : string) :
  find_table headers lines r0 r1 c0 c1 reverse_sort bias h = (Ok rows, h') ->
  exists hs ls,
    read_lines headers h = (Ok hs, h) /\
    read_lines lines h = (Ok ls, h) /\
    forall l, In l ls ->
      exists hd,
        select_header (sorted (fun hd : href => getattr (snd hd) c0) false hs)
          (snd l) c0 c1 bias = Ok hd.
Proof.
  intros H.
  destruct (find_table_returns _ _ _ _ _ _ _ _ _ _ _ H)
    as (hs & ls & cls & fresh & Hhs & Hls & Hcl & _ & _ & Hrows & HF).
  exists hs, ls. split; [exact Hhs|]. split; [exact Hls|].
  rewrite clusters_by_key in Hcl. injection Hcl as <-.
  apply Forall2_map_right in HF.
  intros l Hl.
  destruct (row_keys_cover r0 reverse_sort ls l Hl) as (k & Hk & Hq).
  apply list_elem_of_In, list_elem_of_lookup in Hk as (i & Hi).
  destruct (Forall2_lookup_r _ _ _ _ _ HF Hi) as (r & _ & d & _ & _ & He).
  assert (Hin : In l (List.filter
                        (fun l0 : href => Qeq_bool (getattr (snd l0) r0) k) ls)).
  { apply filter_In. split; [exact Hl|apply Qeq_bool_iff, Hq]. }
  apply list_elem_of_In, list_elem_of_lookup in Hin as (j & Hj).
  destruct (Forall2_lookup_r _ _ _ _ _ He Hj) as (kv & _ & _ & hd & Hs & _).
  eauto.
Qed.

(** X6: with a value of [heading_bias] that is not recognised the call can
    still return; it does so only when every line overlaps a header. *)
Theorem find_table_unknown_bias (h h' : heap) (headers lines rows : loc)
  (r0 r1 c0 c1 : attr) (reverse_sort : bool) (bias : string) :
  bias <> "centered"%string -> bias <> "min"%string ->
  find_table headers lines r0 r1 c0 c1 reverse_sort bias h = (Ok rows, h') ->
  exists hs ls,
    read_lines headers h = (Ok hs, h) /\
    read_lines lines h = (Ok ls, h) /\
    forall l, In l ls ->
      exists hd v,
        In hd hs /\
        overlap (getattr (snd hd) c0) (getattr (snd hd) c1)
          (getattr (snd l) c0) (getattr (snd l) c1) = Ok v /\
        0 < v.
Proof.
  intros Hc Hm H.
  destruct (find_table_selects _ _ _ _ _ _ _ _ _ _ _ H) as (hs & ls & Hhs & Hls & Hsel).
  exists hs, ls. split; [exact Hhs|]. split; [exact Hls|].
  intros l Hl. destruct (Hsel l Hl) as (hd0 & Hs).
  destruct (select_header_in _ _ _ _ _ _ Hs) as [_ Hle].
  rewrite (select_header_cases _ _ _ _ _ Hle) in Hs.
  apply String.eqb_neq in Hc, Hm.
  destruct (possible_of c0 c1 (snd l)
              (sorted (fun hd : href => getattr (snd hd) c0) false hs))
    as [|oh ps] eqn:Hp.
  { rewrite Hc, Hm in Hs. discriminate. }
  assert (Hin' : In oh (possible_of c0 c1 (snd l)
                    (sorted (fun hd : href => getattr (snd hd) c0) false hs)))
    by (rewrite Hp; left; reflexivity).
  destruct (possible_of_in _ _ _ _ _ Hin') as [_ Hpos].
  apply filter_In in Hin' as [Hoh _].
  unfold overlaps_of in Hoh. apply in_map_iff in Hoh as (hd & <- & Hhd).
  exists hd. eexists. split; [exact (Permutation_in _ (sorted_perm _ false hs) Hhd)|].
  split; [apply overlap_ok, Hle|exact Hpos].
Qed.

Lemma find_table_unknown_bias_witness :
  exists hs ls,
    read_lines 3%nat heap_AB = (Ok hs, heap_AB) /\
    read_lines 4%nat heap_AB = (Ok ls, heap_AB) /\
    forall l, In l ls ->
      exists hd v,
        In hd hs /\
        overlap (getattr (snd hd) X0) (getattr (snd hd) X1)
          (getattr (snd l) X0) (getattr (snd l) X1) = Ok v /\
        0 < v.
Proof.
  apply (find_table_unknown_bias heap_AB
           (heap_AB ++ [OList [6%nat]; ODict [("A"%string, 2%nat)]])
           3%nat 4%nat 5%nat Y0 Y1 X0 X1 true "nearest");
    [discriminate|discriminate|vm_compute; reflexivity].
Defined.

(** ** [merge_overlapping_rows]: what it writes and what it returns *)

Lemma snd_map_M_read_line (xs : list loc) (h : heap) :
  snd (map_M read_line xs h) = h.
Proof.
  induction xs as [|x xs IH]; simpl; [reflexivity|].
  unfold bind at 1. unfold read_line at 1.
  destruct (h !! x) as [[l| |]|]; try reflexivity.
  unfold bind. destruct (map_M read_line xs h) as [[ys|e] h'] eqn:E;
    simpl in IH; subst h'; reflexivity.
Qed.

Lemma snd_get_row_extent (a b : attr) (r : loc) (h : heap) :
  snd (get_row_extent a b r h) = h.
Proof.
  unfold get_row_extent. unfold bind at 1. unfold read_dict.
  destruct (h !! r) as [[| |d]|]; try reflexivity.
  unfold bind at 1. pose proof (snd_map_M_read_line (dict_values d) h) as E.
  destruct (map_M read_line (dict_values d) h) as [[ls|e] h'];
    simpl in E; subst h'; [|reflexivity].
  unfold bind, lift, ret.
  destruct (py_min _ _); [|reflexivity]. destruct (py_max _ _); reflexivity.
Qed.

Lemma get_row_extent_dict (a b : attr) (r : loc) (h h' : heap) (e : Q * Q) :
  get_row_extent a b r h = (Ok e, h') -> exists d, h !! r = Some (ODict d).
Proof.
  unfold get_row_extent, bind, read_dict.
  destruct (h !! r) as [[| |d]|]; try discriminate. eauto.
Qed.

(** One turn of the loop: it fails and writes nothing, or merges the next
    row into the current one, or closes the current row. *)
Lemma merge_step_cases (a b : attr) (new_rows row next_row : loc) (h : heap) :
  (exists e, merge_step a b new_rows row next_row h = (Raise e, h))
  \/ (exists d d',
        h !! row = Some (ODict d) /\ h !! next_row = Some (ODict d') /\
        merge_step a b new_rows row next_row h
        = (Ok row, <[row := ODict (dict_update d d')]> h))
  \/ (exists done d,
        h !! new_rows = Some (OList done) /\ h !! row = Some (ODict d) /\
        merge_step a b new_rows row next_row h
        = (Ok next_row, <[new_rows := OList (done ++ [row])]> h)).
Proof.
  unfold merge_step, bind, lift, ret.
  pose proof (snd_get_row_extent a b row h) as E1.
  destruct (get_row_extent a b row h) as [[[lo hi]|e] h1] eqn:G1;
    simpl in E1; subst h1; [|left; eauto].
  pose proof (snd_get_row_extent a b next_row h) as E2.
  destruct (get_row_extent a b next_row h) as [[[lo' hi']|e] h1] eqn:G2;
    simpl in E2; subst h1; [|left; eauto].
  destruct (overlap lo hi lo' hi') as [v|e]; [|left; eauto].
  destruct (get_row_extent_dict _ _ _ _ _ _ G1) as [d Hd].
  destruct (get_row_extent_dict _ _ _ _ _ _ G2) as [d' Hd'].
  destruct (truthy v).
  - right. left. exists d, d'. split; [exact Hd|]. split; [exact Hd'|].
    rewrite (py_update_dicts h row next_row d d' Hd Hd'). reflexivity.
  - destruct (h !! new_rows) as [[|done|]|] eqn:Hn;
      try (left; eexists; unfold py_append, bind, read_list; rewrite Hn;
           reflexivity).
    right. right. exists done, d. split; [reflexivity|]. split; [exact Hd|].
    rewrite (py_append_list h new_rows row done Hn). reflexivity.
Qed.

Lemma writes_only_refl (rs : list loc) (new_rows : loc) (h : heap) :
  writes_only rs new_rows h h.
Proof. intros r o _ H _. exact H. Qed.

Lemma writes_only_trans (rs : list loc) (new_rows : loc) (h1 h2 h3 : heap) :
  writes_only rs new_rows h1 h2 -> writes_only rs new_rows h2 h3 ->
  writes_only rs new_rows h1 h3.
Proof.
  intros H12 H23 r o Hne Hr Hc. apply (H23 r o Hne); [|exact Hc].
  apply (H12 r o Hne Hr Hc).
Qed.

Lemma merge_step_writes (a b : attr) (rs : list loc)
  (new_rows row next_row : loc) (h : heap) :
  In row rs ->
  writes_only rs new_rows h (snd (merge_step a b new_rows row next_row h)).
Proof.
  intros Hin.
  destruct (merge_step_cases a b new_rows row next_row h)
    as [[e ->]|[(d & d' & Hd & _ & ->)|(done & d & Hn & _ & ->)]]; simpl.
  - apply writes_only_refl.
  - intros r o _ Hr Hc. destruct (Nat.eq_dec row r) as [<-|Hne].
    + rewrite Hd in Hr. injection Hr as <-.
      destruct Hc as [Hc|Hc]; [contradiction|destruct (Hc _ eq_refl)].
    + rewrite list_lookup_insert_ne by exact Hne. exact Hr.
  - intros r o Hne Hr _. rewrite list_lookup_insert_ne by congruence. exact Hr.
Qed.

Lemma merge_step_row (a b : attr) (new_rows row next_row r : loc) (h h' : heap) :
  merge_step a b new_rows row next_row h = (Ok r, h') ->
  r = row \/ r = next_row.
Proof.
  intros H.
  destruct (merge_step_cases a b new_rows row next_row h)
    as [[e He]|[(d & d' & _ & _ & He)|(done & d & _ & _ & He)]];
    rewrite He in H; [discriminate|left|right]; congruence.
Qed.

Lemma walk_rows_writes (a b : attr) (rs : list loc) (new_rows : loc)
  (rest : list loc) :
  forall (row : loc) (h : heap),
    In row rs -> (forall r, In r rest -> In r rs) ->
    writes_only rs new_rows h (snd (walk_rows a b rest new_rows row h)).
Proof.
  induction rest as [|next rest IH]; intros row h Hrow Hrest; simpl.
  - apply writes_only_refl.
  - unfold bind.
    pose proof (merge_step_writes a b rs new_rows row next h Hrow) as Hs.
    destruct (merge_step a b new_rows row next h) as [[r|e] h1] eqn:E;
      simpl in Hs; [|exact Hs].
    apply (writes_only_trans _ _ _ _ _ Hs). apply IH.
    + destruct (merge_step_row _ _ _ _ _ _ _ _ E) as [->| ->];
        [exact Hrow|apply Hrest; left; reflexivity].
    + intros r' Hr'. apply Hrest. right. exact Hr'.
Qed.

(** X7: [merge_overlapping_rows] writes to row dictionaries of the list it
    is given and to nothing else that existed before the call: the text
    lines, the list itself and every object that is not one of its rows are
    afterwards what they were, whether the call returns or raises. *)
Theorem merge_overlapping_rows_writes (a b : attr) (h : heap) (rows : loc)
  (rs : list loc) (r : loc) (o : obj) :
  h !! rows = Some (OList rs) ->
  h !! r = Some o ->
  ~ In r rs \/ (forall d, o <> ODict d) ->
  snd (merge_overlapping_rows rows a b h) !! r = Some o.
Proof.
  intros Hrows Hr Hc.
  destruct rs as [|row rest].
  - unfold merge_overlapping_rows, bind, read_list. rewrite Hrows. exact Hr.
  - rewrite (merge_overlapping_rows_unfold a b h rows row rest Hrows).
    assert (Hlt : (r < length h)%nat) by (eapply lookup_lt_Some, Hr).
    pose proof (walk_rows_writes a b (row :: rest) (length h) rest row
                  (h ++ [OList []]) (or_introl eq_refl)
                  (fun r' Hr' => or_intror Hr')) as Hw.
    assert (Hr1 : snd (walk_rows a b rest (length h) row (h ++ [OList []])) !! r
                  = Some o).
    { apply Hw; [lia| |exact Hc]. apply lookup_app_l_Some, Hr. }
    unfold bind at 1.
    destruct (walk_rows a b rest (length h) row (h ++ [OList []]))
      as [[last|e] h1]; simpl in Hr1; [|exact Hr1].
    unfold py_append, read_list, write, bind, ret.
    destruct (h1 !! length h) as [[|xs|]|]; simpl; try exact Hr1.
    rewrite list_lookup_insert_ne by lia. exact Hr1.
Qed.

Lemma merge_overlapping_rows_writes_witness :
  snd (merge_overlapping_rows 6%nat Y0 Y1 heap_rows) !! 6%nat
  = Some (OList [3%nat; 4%nat; 5%nat]).
Proof.
  apply (merge_overlapping_rows_writes Y0 Y1 heap_rows 6%nat
           [3%nat; 4%nat; 5%nat]);
    [reflexivity|reflexivity|right; discriminate].
Defined.

Lemma walk_rows_result (a b : attr) (new_rows : loc) (rest : list loc) :
  forall (row last : loc) (h h' : heap) (done : list loc),
    h !! new_rows = Some (OList done) ->
    walk_rows a b rest new_rows row h = (Ok last, h') ->
    exists outs tl,
      h' !! new_rows = Some (OList (done ++ outs)) /\
      outs ++ [last] = row :: tl /\ sublist tl rest.
Proof.
  induction rest as [|next rest IH]; intros row last h h' done Hn; simpl.
  - intros [= <- <-]. exists [], []. rewrite app_nil_r.
    split; [exact Hn|]. split; [reflexivity|constructor].
  - intros H. apply bind_inv_ok in H as (r & h1 & Hs & Hw).
    destruct (merge_step_cases a b new_rows row next h)
      as [[e He]|[(d & d' & Hd & _ & He)|(done' & d & Hn' & _ & He)]];
      rewrite He in Hs; [discriminate| |].
    + injection Hs as <- <-.
      destruct (IH row last (<[row := ODict (dict_update d d')]> h) h' done)
        as (outs & tl & Hn1 & Ho & Hsub); [|exact Hw|].
      { rewrite list_lookup_insert_ne; [exact Hn|].
        intros ->. rewrite Hd in Hn. discriminate. }
      exists outs, tl. split; [exact Hn1|]. split; [exact Ho|].
      apply sublist_cons, Hsub.
    + injection Hs as <- <-. rewrite Hn in Hn'. injection Hn' as <-.
      destruct (IH next last (<[new_rows := OList (done ++ [row])]> h) h'
                  (done ++ [row])) as (outs & tl & Hn1 & Ho & Hsub);
        [|exact Hw|].
      { apply list_lookup_insert_eq. eapply lookup_lt_Some, Hn. }
      exists (row :: outs), (next :: tl).
      split; [rewrite Hn1, <- app_assoc; reflexivity|].
      split; [simpl; rewrite Ho; reflexivity|].
      apply sublist_skip, Hsub.
Qed.

(** X8: for a list that is not empty, [merge_overlapping_rows] returns a
    new list object, not the one it was given.  The rows in it are row
    objects of the given list, in their order and without repetition of a
    position: the first row, then some of the later ones. *)
Theorem merge_overlapping_rows_result (a b : attr) (h h' : heap)
  (rows out row : loc) (rest : list loc) :
  h !! rows = Some (OList (row :: rest)) ->
  merge_overlapping_rows rows a b h = (Ok out, h') ->
  out = length h /\ out <> rows /\
  exists tl, h' !! out = Some (OList (row :: tl)) /\ sublist tl rest.
Proof.
  intros Hrows H.
  rewrite (merge_overlapping_rows_unfold a b h rows row rest Hrows) in H.
  apply bind_inv_ok in H as (last & h1 & Hw & H).
  apply bind_inv_ok in H as ([] & h2 & Ha & H). injection H as <- <-.
  destruct (walk_rows_result a b (length h) rest row last _ h1 []
              (list_lookup_middle h [] (OList []) (length h) eq_refl) Hw)
    as (outs & tl & Hn & Ho & Hsub).
  simpl in Hn. rewrite (py_append_list _ _ _ _ Hn) in Ha. injection Ha as <-.
  split; [reflexivity|]. split.
  - apply lookup_lt_Some in Hrows. lia.
  - exists tl. rewrite <- Ho. split; [|exact Hsub].
    apply list_lookup_insert_eq. eapply lookup_lt_Some, Hn.
Qed.

Lemma merge_overlapping_rows_result_witness :
  (7%nat = length heap_rows /\ 7%nat <> 6%nat /\
   exists tl,
     (<[3%nat := ODict [("A"%string, 0%nat); ("B"%string, 1%nat)]]> heap_rows
      ++ [OList [3%nat; 5%nat]]) !! 7%nat = Some (OList (3%nat :: tl))
     /\ sublist tl [4%nat; 5%nat]).
Proof.
  apply (merge_overlapping_rows_result Y0 Y1 heap_rows _ 6%nat 7%nat 3%nat
           [4%nat; 5%nat]); [reflexivity|vm_compute; reflexivity].
Defined.

(** ** A table, then the merge of its rows *)

Lemma resolve_entries (headers : list href) (c0 c1 : attr) (bias : string)
  (h : heap) (d : dict loc) (cl : list href) :
  Forall2 (entry_for headers c0 c1 bias) d cl ->
  Forall (fun l : href => h !! fst l = Some (OTextLine (snd l))) cl ->
  exists v, resolve_items h d = Some v /\ dict_values v = map snd cl.
Proof.
  induction 1 as [|[k x] l d cl [Hv _] _ IH]; intros HF.
  - exists []. split; reflexivity.
  - inversion HF as [|? ? Hl HF']; subst. destruct (IH HF') as (v & Hr & Hvs).
    simpl in Hv. subst x. exists ((k, snd l) :: v). simpl.
    rewrite Hl, Hr. split; [reflexivity|]. unfold dict_values in *. simpl.
    rewrite Hvs. reflexivity.
Qed.

(** A row of a table is a row the merge can handle, when the boxes of the
    lines are well formed along the row axis. *)
Lemma row_holds_ok (headers : list href) (c0 c1 r0 r1 : attr) (bias : string)
  (h : heap) (r : loc) (cl : list href) :
  row_holds headers c0 c1 bias h r cl ->
  cl <> [] ->
  Forall (fun l : href => h !! fst l = Some (OTextLine (snd l))) cl ->
  Forall (fun l : href => getattr (snd l) r0 <= getattr (snd l) r1) cl ->
  row_ok r0 r1 h r = true.
Proof.
  intros (d & Hd & _ & HF2) Hne Hl Hle.
  destruct (resolve_entries _ _ _ _ _ _ _ HF2 Hl) as (v & Hr & Hvs).
  apply (row_ok_intro r0 r1 h r v).
  - unfold value_at. rewrite Hd. exact Hr.
  - intros ->. destruct cl; [congruence|discriminate].
  - rewrite Hvs. apply Forall_forall. intros x Hx.
    apply list_elem_of_In, in_map_iff in Hx as (l & <- & Hin).
    rewrite Forall_forall in Hle. apply Hle, list_elem_of_In, Hin.
Qed.

(** The loop of [merge_overlapping_rows] on distinct rows it can handle. *)
Lemma merge_rows_refines (a b : attr) (h : heap) (rows : loc) (rs : list loc) :
  h !! rows = Some (OList rs) ->
  NoDup rs ->
  Forall (fun r => row_ok a b h r = true) rs ->
  exists out h' outs vs,
    merge_overlapping_rows rows a b h = (Ok out, h') /\
    h' !! out = Some (OList outs) /\
    values_at h rs = Some vs /\
    values_at h' outs = Some (merge_rows_spec a b vs).
Proof.
  intros Hr Hnd HF.
  destruct rs as [|row rest].
  - exists rows, h, [], []. unfold merge_overlapping_rows, bind, read_list.
    rewrite Hr. simpl. repeat split; reflexivity.
  - destruct (values_at_ok a b h _ HF) as [vs Hvs].
    pose proof Hvs as Hvs0. simpl in Hvs.
    destruct (value_at h row) as [v|] eqn:Hv; [|discriminate].
    destruct (values_at h rest) as [vs'|] eqn:Hvs'; [|discriminate].
    injection Hvs as <-.
    set (h1 := h ++ [OList []]).
    destruct (walk_refines a b (length h) rest row h1 [] v vs')
      as (last & h' & outs & Hw & Hn & Hvals & _).
    + apply list_lookup_middle. reflexivity.
    + exact Hnd.
    + apply Forall_forall. intros r Hin. apply row_ok_app.
      rewrite Forall_forall in HF. apply HF, Hin.
    + apply value_at_app, Hv.
    + apply values_at_app_heap, Hvs'.
    + simpl in Hn.
      exists (length h), (<[length h := OList (outs ++ [last])]> h'),
        (outs ++ [last]), (v :: vs').
      split; [|split; [|split]].
      * rewrite (merge_overlapping_rows_unfold a b h rows row rest Hr).
        fold h1. rewrite (bind_ok _ _ _ _ _ Hw).
        rewrite (bind_ok _ _ _ _ _ (py_append_list h' _ last outs Hn)).
        reflexivity.
      * apply list_lookup_insert_eq. eapply lookup_lt_Some, Hn.
      * exact Hvs0.
      * unfold merge_rows_spec. rewrite <- Hvals. apply values_at_ext. intros r _.
        apply (value_at_insert_list h' (length h) r outs _ Hn).
Qed.

(** The rows of a table are distinct and fit for the merge, when the boxes
    of the lines are well formed along the row axis. *)
Lemma find_table_rows_ok (h h' : heap) (headers lines rows : loc)
  (ls : list href) (r0 r1 c0 c1 : attr) (reverse_sort : bool) (bias : string) :
  find_table headers lines r0 r1 c0 c1 reverse_sort bias h = (Ok rows, h') ->
  read_lines lines h = (Ok ls, h) ->
  forallb (fun l : href => Qle_bool (getattr (snd l) r0) (getattr (snd l) r1)) ls
  = true ->
  exists rs,
    h' !! rows = Some (OList rs) /\ NoDup rs /\
    Forall (fun r => row_ok r0 r1 h' r = true) rs.
Proof.
  intros H Hls Hbox.
  destruct (find_table_returns _ _ _ _ _ _ _ _ _ _ _ H)
    as (hs & ls' & cls & fresh & _ & Hls' & Hcl & _ & -> & Hrows & HF).
  rewrite Hls in Hls'. injection Hls' as <-.
  destruct (read_lines_ok _ _ _ _ Hls) as (_ & _ & Hobj).
  rewrite clusters_by_key in Hcl. injection Hcl as <-.
  rewrite length_map in *.
  exists (seq (S (length h)) (length (row_keys r0 reverse_sort ls))).
  split; [exact Hrows|]. split; [apply NoDup_seq|].
  apply Forall2_map_right in HF.
  apply Forall_forall. intros r Hr.
  apply list_elem_of_lookup in Hr as (i & Hi).
  destruct (Forall2_lookup_l _ _ _ _ _ HF Hi) as (k & Hk & Hrow).
  apply (row_holds_ok _ c0 c1 r0 r1 bias _ r _ Hrow).
  - apply row_keys_occur with (reverse_sort := reverse_sort).
    apply list_elem_of_In. eapply list_elem_of_lookup_2, Hk.
  - apply Forall_forall. intros l Hl.
    apply list_elem_of_In, filter_In in Hl as [Hl _].
    rewrite Forall_forall in Hobj.
    apply lookup_app_l_Some, Hobj, list_elem_of_In, Hl.
  - apply Forall_forall. intros l Hl.
    apply list_elem_of_In, filter_In in Hl as [Hl _].
    rewrite forallb_forall in Hbox. apply Qle_bool_iff, Hbox, Hl.
Qed.

Lemma values_not_nil (a b : attr) (h : heap) (rs : list loc) :
  Forall (fun r => row_ok a b h r = true) rs ->
  forall vs, values_at h rs = Some vs -> Forall (fun v => v <> []) vs.
Proof.
  induction 1 as [|r rs' Hr _ IH]; intros vs; simpl.
  - intros [= <-]. constructor.
  - destruct (value_at h r) as [v|] eqn:Hv; [|discriminate].
    destruct (values_at h rs') as [vs'|]; [|discriminate].
    intros [= <-]. constructor; [|apply IH; reflexivity].
    intros ->. unfold row_ok in Hr. rewrite Hv in Hr. discriminate.
Qed.

(** X9: the rows [find_table] returns can always be handed to
    [merge_overlapping_rows] along the same row axis, provided the boxes of
    the lines have [min <= max] on that axis: the rows are distinct
    dictionaries, none of them empty, so the merge returns, and its result
    is the documented walk over the rows of the table. *)
Theorem find_table_then_merge (h h' : heap) (headers lines rows : loc)
  (ls : list href) (r0 r1 c0 c1 : attr) (reverse_sort : bool) (bias : string) :
  find_table headers lines r0 r1 c0 c1 reverse_sort bias h = (Ok rows, h') ->
  read_lines lines h = (Ok ls, h) ->
  forallb (fun l : href => Qle_bool (getattr (snd l) r0) (getattr (snd l) r1)) ls
  = true ->
  exists rs vs out h'' outs,
    h' !! rows = Some (OList rs) /\
    NoDup rs /\
    values_at h' rs = Some vs /\
    Forall (fun v => v <> []) vs /\
    merge_overlapping_rows rows r0 r1 h' = (Ok out, h'') /\
    h'' !! out = Some (OList outs) /\
    values_at h'' outs = Some (merge_rows_spec r0 r1 vs).
Proof.
  intros H Hls Hbox.
  destruct (find_table_rows_ok _ _ _ _ _ _ _ _ _ _ _ _ H Hls Hbox)
    as (rs & Hrows & Hnd & Hok).
  destruct (merge_rows_refines r0 r1 _ _ rs Hrows Hnd Hok)
    as (out & h'' & outs & vs & Hm & Hout & Hvs & Hspec).
  exists rs, vs, out, h'', outs.
  split; [exact Hrows|]. split; [exact Hnd|]. split; [exact Hvs|].
  split; [exact (values_not_nil _ _ _ _ Hok vs Hvs)|auto].
Qed.

Lemma find_table_then_merge_witness :
  exists rs vs out h'' outs,
    heap_page_table !! 7%nat = Some (OList rs) /\
    NoDup rs /\
    values_at heap_page_table rs = Some vs /\
    Forall (fun v => v <> []) vs /\
    merge_overlapping_rows 7%nat Y0 Y1 heap_page_table = (Ok out, h'') /\
    h'' !! out = Some (OList outs) /\
    values_at h'' outs = Some (merge_rows_spec Y0 Y1 vs).
Proof.
  apply (find_table_then_merge heap_page heap_page_table 5%nat 6%nat 7%nat
           [(2%nat, text_line "x" 2 (-5) 8 (-3));
            (3%nat, text_line "y" 12 (-6) 18 (-4));
            (4%nat, text_line "z" 1 (-10) 9 (-9))]
           Y0 Y1 X0 X1 true "centered");
    [exact find_row_table_page|reflexivity|reflexivity].
Defined.

(** ** When [find_table] returns *)

Lemma NoDup_map_Some {A} (xs : list A) : NoDup xs -> NoDup (map Some xs).
Proof.
  induction 1 as [|x xs Hx _ IH]; simpl; constructor; [|exact IH].
  intros Hin. apply Hx. apply list_elem_of_In in Hin.
  apply in_map_iff in Hin as (y & [= ->] & Hy). apply list_elem_of_In, Hy.
Qed.

Lemma entries_texts (headers : list href) (c0 c1 : attr) (bias : string)
  (d : dict loc) (cl : list href) :
  Forall2 (entry_for headers c0 c1 bias) d cl ->
  map (header_text headers c0 c1 bias) cl = map Some (dict_keys d).
Proof.
  unfold dict_keys.
  induction 1 as [|kv l d cl [_ (hd & Hs & Hk)] _ IH]; simpl; [reflexivity|].
  unfold header_text at 1. rewrite Hs, Hk, IH. reflexivity.
Qed.

Lemma row_holds_placeable (headers : list href) (c0 c1 : attr) (bias : string)
  (h : heap) (r : loc) (cl : list href) :
  row_holds headers c0 c1 bias h r cl -> placeable headers c0 c1 bias cl.
Proof.
  intros (d & _ & Hnd & HF). split.
  - clear Hnd. induction HF as [|kv l d cl [_ (hd & Hs & _)] _ IH];
      constructor; [|exact IH].
    unfold header_text. rewrite Hs. discriminate.
  - rewrite (entries_texts _ _ _ _ _ _ HF). apply NoDup_map_Some, Hnd.
Qed.

Lemma assign_loop_runs (headers : list href) (c0 c1 : attr) (bias : string)
  (row : loc) (cl : list href) :
  forall (h : heap) (d : dict loc),
    h !! row = Some (ODict d) ->
    Forall (fun l => header_text headers c0 c1 bias l <> None) cl ->
    NoDup (map Some (dict_keys d) ++ map (header_text headers c0 c1 bias) cl) ->
    exists h',
      for_each cl (assign_line headers c0 c1 bias row) h = (Ok tt, h') /\
      forall r, r <> row -> h' !! r = h !! r.
Proof.
  induction cl as [|l cl IH]; intros h d Hd HF Hnd; simpl.
  - exists h. split; [reflexivity|auto].
  - inversion HF as [|? ? Hl HF']; subst.
    simpl in Hnd. unfold header_text at 1 in Hl. unfold header_text at 1 in Hnd.
    destruct (select_header headers (snd l) c0 c1 bias) as [hd|e] eqn:Hs;
      [|congruence].
    assert (Hc : dict_contains (text (snd hd)) d = false).
    { destruct (dict_contains (text (snd hd)) d) eqn:E; [|reflexivity]. exfalso.
      apply dict_contains_in in E.
      apply NoDup_app in Hnd as (_ & Hdisj & _).
      apply (Hdisj (Some (text (snd hd)))).
      - apply list_elem_of_In, in_map, E.
      - left. }
    assert (Hstep : assign_line headers c0 c1 bias row l h
                    = (Ok tt, <[row := ODict (d ++ [(text (snd hd), fst l)])]> h)).
    { unfold assign_line, bind, lift. rewrite Hs.
      unfold py_contains, bind, read_dict. rewrite Hd. simpl. rewrite Hc.
      unfold py_setitem, bind, read_dict, write. rewrite Hd.
      rewrite (dict_setitem_new _ _ _ Hc). reflexivity. }
    destruct (IH (<[row := ODict (d ++ [(text (snd hd), fst l)])]> h)
                (d ++ [(text (snd hd), fst l)])) as (h' & Hrun & Hfr).
    + apply list_lookup_insert_eq. eapply lookup_lt_Some, Hd.
    + exact HF'.
    + unfold dict_keys. rewrite !map_app. simpl. rewrite <- app_assoc. exact Hnd.
    + exists h'. rewrite (bind_ok _ _ _ _ _ Hstep). split; [exact Hrun|].
      intros r Hr. rewrite (Hfr r Hr). apply list_lookup_insert_ne. congruence.
Qed.

Lemma build_row_runs (headers : list href) (row_lookup : list (Q * list href))
  (c0 c1 : attr) (bias : string) (rows : loc) (k : Q) (h : heap)
  (rs : list loc) (cl : list href) :
  h !! rows = Some (OList rs) ->
  lookup_getitem k row_lookup = Ok cl ->
  placeable headers c0 c1 bias cl ->
  exists h',
    build_row headers row_lookup c0 c1 bias rows k h = (Ok tt, h') /\
    h' !! rows = Some (OList (rs ++ [length h])).
Proof.
  intros Hr Hk [HF Hnd]. unfold build_row.
  rewrite (bind_ok _ _ h h cl) by (unfold lift; rewrite Hk; reflexivity).
  unfold bind at 1. unfold alloc.
  assert (Hlt : (rows < length h)%nat) by (eapply lookup_lt_Some, Hr).
  rewrite (bind_ok _ _ _ _ _
             (py_append_list (h ++ [ODict []]) rows (length h) rs
                (lookup_app_l_Some _ _ _ _ Hr))).
  set (h2 := <[rows := OList (rs ++ [length h])]> (h ++ [ODict []])).
  destruct (assign_loop_runs headers c0 c1 bias (length h) cl h2 [])
    as (h' & Hrun & Hfr).
  - unfold h2. rewrite list_lookup_insert_ne by lia.
    apply list_lookup_middle. reflexivity.
  - exact HF.
  - exact Hnd.
  - exists h'. split; [exact Hrun|]. rewrite Hfr by lia. unfold h2.
    apply list_lookup_insert_eq. rewrite length_app. simpl. lia.
Qed.

Lemma build_rows_run (headers : list href) (row_lookup : list (Q * list href))
  (c0 c1 : attr) (bias : string) (rows : loc) (ks : list Q) :
  Forall (fun k => exists cl, lookup_getitem k row_lookup = Ok cl
                              /\ placeable headers c0 c1 bias cl) ks ->
  forall (h : heap) (rs : list loc),
    h !! rows = Some (OList rs) ->
    exists h',
      for_each ks (build_row headers row_lookup c0 c1 bias rows) h = (Ok tt, h').
Proof.
  induction 1 as [|k ks (cl & Hk & Hp) _ IH]; intros h rs Hr; simpl.
  - exists h. reflexivity.
  - destruct (build_row_runs _ _ _ _ _ _ _ _ _ _ Hr Hk Hp) as (h1 & Hb & Hr1).
    destruct (IH h1 _ Hr1) as (h' & Hrun).
    exists h'. rewrite (bind_ok _ _ _ _ _ Hb). exact Hrun.
Qed.

(** X10: [find_table] returns exactly when every row can be filled: each
    line of the row is given a header, and no two lines of the row are given
    headers with the same text.  The lines of a row are those with the same
    row coordinate. *)
Theorem find_table_returns_iff (h : heap) (headers lines : loc)
  (hs ls : list href) (r0 r1 c0 c1 : attr) (reverse_sort : bool)
  (bias : string) :
  read_lines headers h = (Ok hs, h) ->
  read_lines lines h = (Ok ls, h) ->
  (exists rows h',
      find_table headers lines r0 r1 c0 c1 reverse_sort bias h = (Ok rows, h'))
  <->
  (forall k : Q,
      placeable (sorted (fun hd : href => getattr (snd hd) c0) false hs)
        c0 c1 bias
        (List.filter (fun l : href => Qeq_bool (getattr (snd l) r0) k) ls)).
Proof.
  intros Hhs Hls. split.
  - intros (rows & h' & H) k.
    destruct (find_table_returns _ _ _ _ _ _ _ _ _ _ _ H)
      as (hs' & ls' & cls & fresh & Hhs' & Hls' & Hcl & _ & _ & _ & HF).
    rewrite Hhs in Hhs'. injection Hhs' as <-.
    rewrite Hls in Hls'. injection Hls' as <-.
    rewrite clusters_by_key in Hcl. injection Hcl as <-.
    apply Forall2_map_right in HF.
    destruct (List.filter (fun l : href => Qeq_bool (getattr (snd l) r0) k) ls)
      as [|l0 g] eqn:Hg.
    { split; constructor. }
    assert (Hl0 : In l0 (List.filter
                           (fun l : href => Qeq_bool (getattr (snd l) r0) k) ls))
      by (rewrite Hg; left; reflexivity).
    apply filter_In in Hl0 as [Hl0 Hk0].
    destruct (row_keys_cover r0 reverse_sort ls l0 Hl0) as (k' & Hk' & Hq).
    apply Qeq_bool_iff in Hq.
    assert (Hkk : Qeq_bool k k' = true).
    { rewrite <- (Qeq_bool_trans_l _ _ k' Hk0). exact Hq. }
    rewrite <- Hg.
    rewrite (filter_ext _ (fun l : href => Qeq_bool (getattr (snd l) r0) k')
               (fun l => Qeq_bool_trans_r _ _ _ Hkk) ls).
    apply list_elem_of_In, list_elem_of_lookup in Hk' as (i & Hi).
    destruct (Forall2_lookup_r _ _ _ _ _ HF Hi) as (r & _ & Hrow).
    exact (row_holds_placeable _ _ _ _ _ _ _ Hrow).
  - intros Hp. unfold find_table.
    rewrite (bind_ok _ _ _ _ _ Hhs), (bind_ok _ _ _ _ _ Hls).
    rewrite (bind_ok _ _ h (h ++ [OList []]) (length h)) by reflexivity.
    destruct (build_rows_run
                (sorted (fun hd : href => getattr (snd hd) c0) false hs)
                (get_attr_lookup (fun l : href => getattr (snd l) r0) ls)
                c0 c1 bias (length h)
                (sorted (fun k : Q => k) reverse_sort
                   (map fst (get_attr_lookup
                               (fun l : href => getattr (snd l) r0) ls))))
      with (h := h ++ [OList []]) (rs := @nil loc) as (h' & Hrun).
    + apply Forall_forall. intros k Hk. apply list_elem_of_In in Hk.
      exists (List.filter (fun l : href => Qeq_bool (getattr (snd l) r0) k) ls).
      split; [|apply Hp].
      rewrite lookup_get_attr_lookup.
      pose proof (row_keys_occur r0 reverse_sort ls k Hk) as Hne.
      destruct (List.filter _ ls); [congruence|reflexivity].
    + apply list_lookup_middle. reflexivity.
    + exists (length h), h'. rewrite (bind_ok _ _ _ _ _ Hrun). reflexivity.
Qed.

Lemma find_table_returns_iff_witness :
  (exists rows h',
      find_table 3%nat 4%nat Y0 Y1 X0 X1 true "centered" heap_AB = (Ok rows, h'))
  <->
  (forall k : Q,
      placeable
        (sorted (fun hd : href => getattr (snd hd) X0) false
           [(0%nat, text_line "A" 0 0 10 0); (1%nat, text_line "B" 10 0 20 0)])
        X0 X1 "centered"
        (List.filter (fun l : href => Qeq_bool (getattr (snd l) Y0) k)
           [(2%nat, text_line "x" 2 (-5) 8 (-5))])).
Proof.
  apply (find_table_returns_iff heap_AB 3%nat 4%nat); reflexivity.
Defined.

(** ** The duplicate key *)

Lemma for_each_app_raise {A} (body : A -> M unit) (pre : list A) (x : A)
  (post : list A) :
  forall (h h1 h2 : heap) (e : exn),
    for_each pre body h = (Ok tt, h1) ->
    body x h1 = (Raise e, h2) ->
    for_each (pre ++ x :: post) body h = (Raise e, h2).
Proof.
  induction pre as [|y pre IH]; intros h h1 h2 e; simpl.
  - intros [= <-] Hx. apply (bind_raise _ _ _ _ _ Hx).
  - intros H Hx. apply bind_inv_ok in H as ([] & h0 & Hy & Hrest).
    rewrite (bind_ok _ _ _ _ _ Hy). exact (IH _ _ _ _ Hrest Hx).
Qed.

Lemma build_rows_run_rows (headers : list href)
  (row_lookup : list (Q * list href)) (c0 c1 : attr) (bias : string)
  (rows : loc) (ks : list Q) :
  Forall (fun k => exists cl, lookup_getitem k row_lookup = Ok cl
                              /\ placeable headers c0 c1 bias cl) ks ->
  forall (h : heap) (rs : list loc),
    h !! rows = Some (OList rs) ->
    exists h' rs',
      for_each ks (build_row headers row_lookup c0 c1 bias rows) h = (Ok tt, h')
      /\ h' !! rows = Some (OList (rs ++ rs')).
Proof.
  induction 1 as [|k ks (cl & Hk & Hp) _ IH]; intros h rs Hr; simpl.
  - exists h, []. rewrite app_nil_r. auto.
  - destruct (build_row_runs _ _ _ _ _ _ _ _ _ _ Hr Hk Hp) as (h1 & Hb & Hr1).
    destruct (IH h1 _ Hr1) as (h' & rs' & Hrun & Hr').
    exists h', (length h :: rs'). rewrite (bind_ok _ _ _ _ _ Hb).
    split; [exact Hrun|]. rewrite <- app_assoc in Hr'. exact Hr'.
Qed.

Lemma dict_get_in {V} (k : string) (v : V) (d : dict V) :
  NoDup (dict_keys d) -> In (k, v) d -> dict_get k d = Some v.
Proof.
  induction d as [|[k' w] d IH]; simpl; [tauto|].
  intros Hnd Hin. apply NoDup_cons in Hnd as [Hk' Hnd].
  destruct Hin as [[= -> ->]|Hin].
  - rewrite String.eqb_refl. reflexivity.
  - destruct (String.eqb k' k) eqn:E; [|apply IH; assumption].
    apply String.eqb_eq in E. subst k'. exfalso. apply Hk'.
    apply list_elem_of_In. unfold dict_keys.
    apply in_map_iff. exists (k, v). auto.
Qed.

Lemma entry_of_line (headers : list href) (c0 c1 : attr) (bias : string)
  (d : dict loc) (cl : list href) (l : href) (key : string) :
  Forall2 (entry_for headers c0 c1 bias) d cl ->
  In l cl -> header_text headers c0 c1 bias l = Some key ->
  In (key, fst l) d.
Proof.
  induction 1 as [|kv l' d cl [Hv (hd & Hs & Hk)] _ IH]; simpl; [tauto|].
  intros [->|Hin] Ht.
  - left. unfold header_text in Ht. rewrite Hs in Ht. injection Ht as <-.
    destruct kv as [k v]. simpl in *. congruence.
  - right. apply IH; assumption.
Qed.

(** C3: a key that is already in the row being built is not assigned again.
    When [find_table] comes to a line [l] of a row cluster (the rows before
    have been built, and the lines [pre] of the cluster before [l] have been
    entered in the row) and the key chosen for [l] is the key of one of those
    earlier lines, the call ends with a [ValueError] whose message contains
    the key.  The row being built, the last of the list of rows, still holds
    exactly the entries of the earlier lines, and under the key the earlier
    line. *)
Theorem find_table_duplicate_key (h : heap) (headers lines : loc)
  (hs ls : list href) (r0 r1 c0 c1 : attr) (reverse_sort : bool)
  (bias : string) (k : Q) (before_k after_k : list Q) (pre post : list href)
  (l : href) (key : string) :
  read_lines headers h = (Ok hs, h) ->
  read_lines lines h = (Ok ls, h) ->
  row_keys r0 reverse_sort ls = before_k ++ k :: after_k ->
  (forall k', In k' before_k ->
     placeable (sorted (fun hd : href => getattr (snd hd) c0) false hs)
       c0 c1 bias
       (List.filter (fun x : href => Qeq_bool (getattr (snd x) r0) k') ls)) ->
  List.filter (fun x : href => Qeq_bool (getattr (snd x) r0) k) ls
  = pre ++ l :: post ->
  placeable (sorted (fun hd : href => getattr (snd hd) c0) false hs)
    c0 c1 bias pre ->
  header_text (sorted (fun hd : href => getattr (snd hd) c0) false hs)
    c0 c1 bias l = Some key ->
  In (Some key)
    (map (header_text (sorted (fun hd : href => getattr (snd hd) c0) false hs)
            c0 c1 bias) pre) ->
  exists (h' : heap) (rs : list loc) (row : loc) (d : dict loc) (l0 : href),
    find_table headers lines r0 r1 c0 c1 reverse_sort bias h
    = (Raise (ValueError (duplicate_message key)), h') /\
    (exists before after, duplicate_message key = before +:+ key +:+ after) /\
    h' !! length h = Some (OList (rs ++ [row])) /\
    h' !! row = Some (ODict d) /\
    Forall2
      (entry_for (sorted (fun hd : href => getattr (snd hd) c0) false hs)
         c0 c1 bias) d pre /\
    In l0 pre /\
    header_text (sorted (fun hd : href => getattr (snd hd) c0) false hs)
      c0 c1 bias l0 = Some key /\
    dict_get key d = Some (fst l0).
Proof.
  intros Hhs Hls Hkeys Hbefore Hcl [HpF HpN] Hkey Hdup.
  set (headers' := sorted (fun hd : href => getattr (snd hd) c0) false hs) in *.
  set (row_lookup := get_attr_lookup (fun l : href => getattr (snd l) r0) ls).
  (* the rows before *)
  destruct (build_rows_run_rows headers' row_lookup c0 c1 bias (length h) before_k)
    with (h := h ++ [OList []]) (rs := @nil loc) as (h1 & rs & Hrun1 & Hrows1).
  { apply Forall_forall. intros k' Hk'. apply list_elem_of_In in Hk'.
    exists (List.filter (fun x : href => Qeq_bool (getattr (snd x) r0) k') ls).
    split; [|apply Hbefore, Hk'].
    unfold row_lookup. rewrite lookup_get_attr_lookup.
    assert (Hin : In k' (row_keys r0 reverse_sort ls))
      by (rewrite Hkeys; apply in_or_app; left; exact Hk').
    pose proof (row_keys_occur r0 reverse_sort ls k' Hin) as Hne.
    revert Hne.
    destruct (List.filter (fun l1 : href => Qeq_bool (getattr (snd l1) r0) k') ls);
      [congruence|reflexivity]. }
  { apply list_lookup_middle. reflexivity. }
  simpl in Hrows1.
  assert (Hlt : (length h < length h1)%nat) by (eapply lookup_lt_Some, Hrows1).
  (* the row of [k], up to the line [l] *)
  set (h2 := <[length h := OList (rs ++ [length h1])]> (h1 ++ [ODict []])).
  assert (Hrow2 : h2 !! length h1 = Some (ODict [])).
  { unfold h2. rewrite list_lookup_insert_ne by lia.
    apply list_lookup_middle. reflexivity. }
  destruct (assign_loop_runs headers' c0 c1 bias (length h1) pre h2 []
              Hrow2 HpF HpN) as (h3 & Hrun3 & Hfr3).
  destruct (assign_loop_ok headers' c0 c1 bias (length h1) pre h2 h3 []
              Hrow2 (NoDup_nil_2) Hrun3) as (d & Hh3 & Hnd & HF).
  simpl in Hh3, Hnd.
  assert (Hrow3 : h3 !! length h1 = Some (ODict d)).
  { rewrite Hh3. apply list_lookup_insert_eq. eapply lookup_lt_Some, Hrow2. }
  unfold header_text in Hkey.
  destruct (select_header headers' (snd l) c0 c1 bias) as [hd|e] eqn:Hs;
    [|discriminate].
  injection Hkey as Hkey.
  assert (Hc : dict_contains (text (snd hd)) d = true).
  { apply dict_contains_in. rewrite Hkey.
    rewrite (entries_texts _ _ _ _ _ _ HF) in Hdup.
    apply in_map_iff in Hdup as (x & [= ->] & Hx). exact Hx. }
  pose proof (assign_line_duplicate headers' c0 c1 bias (length h1) l hd h3 d
                Hrow3 Hs Hc) as Hl.
  rewrite Hkey in Hl.
  pose proof (for_each_app_raise _ pre l post _ _ _ _ Hrun3 Hl) as Hloop.
  assert (Hbuild : build_row headers' row_lookup c0 c1 bias (length h) k h1
                   = (Raise (ValueError (duplicate_message key)), h3)).
  { unfold build_row.
    rewrite (bind_ok _ _ h1 h1 (pre ++ l :: post)).
    - unfold bind at 1. unfold alloc.
      rewrite (bind_ok _ _ _ _ _
                 (py_append_list (h1 ++ [ODict []]) (length h) (length h1) rs
                    (lookup_app_l_Some _ _ _ _ Hrows1))).
      exact Hloop.
    - unfold lift, row_lookup. rewrite lookup_get_attr_lookup, Hcl.
      destruct pre; reflexivity. }
  pose proof (for_each_app_raise _ before_k k after_k _ _ _ _ Hrun1 Hbuild)
    as Hall.
  apply in_map_iff in Hdup as (l0 & Hl0 & Hin0).
  exists h3, rs, (length h1), d, l0.
  split; [|split; [|split; [|split; [|split; [|split; [|split]]]]]].
  - unfold find_table.
    rewrite (bind_ok _ _ _ _ _ Hhs), (bind_ok _ _ _ _ _ Hls).
    rewrite (bind_ok _ _ h (h ++ [OList []]) (length h)) by reflexivity.
    apply bind_raise.
    change (sorted (fun k0 : Q => k0) reverse_sort
              (map fst (get_attr_lookup
                          (fun l1 : href => getattr (snd l1) r0) ls)))
      with (row_keys r0 reverse_sort ls).
    rewrite Hkeys. exact Hall.
  - exists "duplicate assignment of key '"%string, "'"%string. reflexivity.
  - rewrite Hfr3 by lia. unfold h2. apply list_lookup_insert_eq.
    rewrite length_app. simpl. lia.
  - exact Hrow3.
  - exact HF.
  - exact Hin0.
  - exact Hl0.
  - apply dict_get_in; [exact Hnd|].
    exact (entry_of_line _ _ _ _ _ _ _ _ HF Hin0 Hl0).
Qed.

Lemma find_table_duplicate_key_witness :
  exists (h' : heap) (rs : list loc) (row : loc) (d : dict loc) (l0 : href),
    find_table 4%nat 5%nat Y0 Y1 X0 X1 true "centered" heap_twice
    = (Raise (ValueError (duplicate_message "A")), h') /\
    (exists before after, duplicate_message "A" = before +:+ "A" +:+ after) /\
    h' !! length heap_twice = Some (OList (rs ++ [row])) /\
    h' !! row = Some (ODict d) /\
    Forall2
      (entry_for
         (sorted (fun hd : href => getattr (snd hd) X0) false
            [(0%nat, text_line "A" 0 0 10 0); (1%nat, text_line "B" 10 0 20 0)])
         X0 X1 "centered") d [(2%nat, text_line "x" 1 (-5) 4 (-5))] /\
    In l0 [(2%nat, text_line "x" 1 (-5) 4 (-5))] /\
    header_text
      (sorted (fun hd : href => getattr (snd hd) X0) false
         [(0%nat, text_line "A" 0 0 10 0); (1%nat, text_line "B" 10 0 20 0)])
      X0 X1 "centered" l0 = Some "A"%string /\
    dict_get "A" d = Some (fst l0).
Proof.
  apply (find_table_duplicate_key heap_twice 4%nat 5%nat
           [(0%nat, text_line "A" 0 0 10 0); (1%nat, text_line "B" 10 0 20 0)]
           [(2%nat, text_line "x" 1 (-5) 4 (-5));
            (3%nat, text_line "y" 5 (-5) 8 (-5))]
           Y0 Y1 X0 X1 true "centered" (-5) [] []
           [(2%nat, text_line "x" 1 (-5) 4 (-5))] []
           (3%nat, text_line "y" 5 (-5) 8 (-5)) "A").
  - reflexivity.
  - reflexivity.
  - reflexivity.
  - intros k' [].
  - reflexivity.
  - split.
    + constructor; [vm_compute; discriminate|constructor].
    + apply NoDup_singleton.
  - vm_compute. reflexivity.
  - left. vm_compute. reflexivity.
Defined.


(** ** The header of a line *)

Lemma possible_of_overlaps (c0 c1 : attr) (l : TextLine) (headers : list href)
  (oh : Q * href) :
  In oh (possible_of c0 c1 l headers) ->
  In (snd oh) headers /\ header_overlaps c0 c1 l (snd oh).
Proof.
  unfold possible_of, overlaps_of, header_overlaps. intros H.
  apply filter_In in H as [H Ht]. apply in_map_iff in H as (hd & <- & Hin).
  split; [exact Hin|]. simpl in *.
  unfold truthy in Ht. apply negb_true_iff in Ht.
  destruct (overlap_value (Qmax (getattr (snd hd) c0) (getattr l c0))
              (Qmin (getattr (snd hd) c1) (getattr l c1)))
    as [(Hlt & _ & _)|(_ & He)].
  - exact Hlt.
  - apply Qeq_bool_iff in He. congruence.
Qed.

Lemma overlaps_possible_of (c0 c1 : attr) (l : TextLine) (headers : list href)
  (hd : href) :
  In hd headers -> header_overlaps c0 c1 l hd ->
  exists v, In (v, hd) (possible_of c0 c1 l headers).
Proof.
  unfold header_overlaps. intros Hin Ho. eexists.
  apply filter_In. split.
  - unfold overlaps_of. apply in_map_iff. exists hd. split; [reflexivity|exact Hin].
  - simpl. unfold truthy. apply negb_true_iff.
    destruct (Qeq_bool _ 0) eqn:E0; [|reflexivity].
    apply Qeq_bool_iff in E0.
    destruct (overlap_value (Qmax (getattr (snd hd) c0) (getattr l c0))
                (Qmin (getattr (snd hd) c1) (getattr l c1)))
      as [(_ & He & Hp)|(Hle & _)]; [rewrite E0 in He|]; lra.
Qed.

(** On binary64 coordinates every operation of the center distance is the
    binary64 operation. *)
Lemma center_distance_binary64 (c0 c1 : attr) (l : TextLine) (hd : href) :
  binary64 (getattr l c0) -> binary64 (getattr l c1) ->
  binary64 (getattr (snd hd) c0) -> binary64 (getattr (snd hd) c1) ->
  center_distance c0 c1 l hd
  == Qabs (fl (fl (0.5 * fl (getattr (snd hd) c0 + getattr (snd hd) c1))
               - fl (fl (getattr l c0 + getattr l c1) * 0.5))).
Proof.
  intros Bl0 Bl1 Bh0 Bh1. unfold center_distance, float_mul.
  rewrite (fl_comp (0.5 * float_add (getattr (snd hd) c0) (getattr (snd hd) c1))
             (0.5 * fl (getattr (snd hd) c0 + getattr (snd hd) c1)))
    by (rewrite (float_add_binary64 _ _ Bh0 Bh1); reflexivity).
  rewrite (fl_comp (float_add (getattr l c0) (getattr l c1) * 0.5)
             (fl (getattr l c0 + getattr l c1) * 0.5))
    by (rewrite (float_add_binary64 _ _ Bl0 Bl1); reflexivity).
  rewrite float_sub_binary64 by apply fl_binary64. reflexivity.
Qed.







(** ** How [find_table] fails *)










(** ** Groups by coordinate *)

Lemma distinct_keys_sorted {A} (d : list (Q * list A)) :
  distinct_keys d -> StronglySorted (fun a b => ~ a == b) (map fst d).
Proof.
  induction d as [|[k g] d IH]; simpl; [constructor|].
  intros [Hk Hd]. constructor; [apply IH, Hd|].
  apply Forall_forall. intros k' Hk' Heq.
  apply list_elem_of_In, in_map_iff in Hk' as ([k2 g2] & <- & Hin).
  simpl in Heq. apply Qeq_bool_iff in Heq. rewrite (Hk _ _ Hin) in Heq. discriminate.
Qed.

(** X13: [get_attr_lookup] sorts the lines into groups by the value of the
    attribute.  No two keys are equal as numbers; each group is not empty
    and holds the lines with the value of its key, in the order in which
    they were given; every line is in the group of its value; the groups
    together are the lines, each as often as it was given. *)
Theorem get_attr_lookup_groups {A} (attr_of : A -> Q) (lines : list A) :
  distinct_keys (get_attr_lookup attr_of lines) /\
  (forall k g,
      In (k, g) (get_attr_lookup attr_of lines) ->
      g <> [] /\ g = List.filter (fun l => Qeq_bool (attr_of l) k) lines) /\
  (forall l,
      In l lines ->
      exists k g, In (k, g) (get_attr_lookup attr_of lines)
                  /\ k == attr_of l /\ In l g) /\
  concat (map snd (get_attr_lookup attr_of lines)) ≡ₚ lines.
Proof.
  pose proof (distinct_get_attr_lookup attr_of lines) as Hd.
  assert (Hcover : forall l, In l lines ->
            exists k g, In (k, g) (get_attr_lookup attr_of lines)
                        /\ k == attr_of l /\ In l g).
  { intros l Hl.
    pose proof (lookup_get_attr_lookup attr_of (attr_of l) lines) as Hlk.
    assert (Hin : In l (List.filter (fun x => Qeq_bool (attr_of x) (attr_of l)) lines)).
    { apply filter_In. split; [exact Hl|apply Qeq_bool_refl]. }
    destruct (List.filter _ lines) as [|x g] eqn:E; [destruct Hin|].
    apply lookup_in in Hlk as (k & Hk & Hq).
    exists k, (x :: g). split; [exact Hk|]. split; [apply Qeq_bool_iff, Hq|exact Hin]. }
  split; [exact Hd|]. split; [|split; [exact Hcover|]].
  - intros k g Hin. destruct (entry_get_attr_lookup _ _ _ _ Hin). auto.
  - replace (map snd (get_attr_lookup attr_of lines))
      with (map (fun k => List.filter (fun x => Qeq_bool (attr_of x) k) lines)
              (map fst (get_attr_lookup attr_of lines))).
    + apply concat_groups; [apply distinct_keys_sorted, Hd|].
      intros l Hl. destruct (Hcover l Hl) as (k & g & Hin & Hq & _).
      exists k. split; [apply in_map_iff; exists (k, g); auto|].
      symmetry. exact Hq.
    + rewrite map_map. apply map_ext_in. intros [k g] Hin. simpl.
      destruct (entry_get_attr_lookup _ _ _ _ Hin) as [-> _]. reflexivity.
Qed.

(** ** [overlap]: the interval that is checked *)

Lemma float_sub_nonneg (a b : Q) : b <= a -> 0 <= float_sub a b.
Proof.
  intros H. unfold float_sub. rewrite <- (round53_0 0) at 1 by reflexivity.
  apply round53_le. lra.
Qed.

Lemma Qmax_0_le (x y : Q) : 0 <= y -> x <= y -> Qmax 0 x <= y.
Proof.
  intros H0 Hx. destruct (Qmax_cases 0 x) as [[_ H]|[_ H]]; rewrite H; assumption.
Qed.

(** X14: [overlap] checks its second interval only.  It raises, and then an
    [AssertionError], exactly when [b_max < b_min]; the first interval may
    be anything.  A result is never negative, never more than the length of
    the second interval as floating-point subtraction gives it
    ([b_max - b_min], rounded), nor than that of the first when that is
    well formed, and it is 0 when the first interval is empty or
    inverted. *)
Theorem overlap_second_interval (a_min a_max b_min b_max : Q) :
  (forall e, overlap a_min a_max b_min b_max = Raise e ->
             e = AssertionError /\ b_max < b_min) /\
  (forall v, overlap a_min a_max b_min b_max = Ok v ->
             b_min <= b_max /\ 0 <= v /\ v <= float_sub b_max b_min /\
             (a_min <= a_max -> v <= float_sub a_max a_min) /\
             (a_max <= a_min -> v == 0)) /\
  (b_max < b_min -> overlap a_min a_max b_min b_max = Raise AssertionError).
Proof.
  unfold overlap.
  destruct (Qle_bool b_min b_max) eqn:E.
  - apply Qle_bool_iff in E. split; [discriminate|]. split; [|lra].
    intros v [= <-]. split; [exact E|].
    split; [|split; [|split]].
    + destruct (Qmax_cases 0 (float_sub (Qmin a_max b_max) (Qmax a_min b_min)))
        as [[? H]|[? H]]; rewrite H; lra.
    + apply Qmax_0_le; [apply float_sub_nonneg, E|].
      apply float_sub_le. qcases; lra.
    + intros H. apply Qmax_0_le; [apply float_sub_nonneg, H|].
      apply float_sub_le. qcases; lra.
    + intros H.
      destruct (overlap_value (Qmax a_min b_min) (Qmin a_max b_max))
        as [(Hlt & _ & _)|(_ & H0)]; [|exact H0].
      exfalso. qcases; lra.
  - assert (Hlt : b_max < b_min).
    { apply Qnot_le_lt. intros Hle. apply Qle_bool_iff in Hle. congruence. }
    split; [|split; [discriminate|reflexivity]].
    intros e [= <-]. auto.
Qed.

(** ** [find_attr_group_matching] without patterns *)

Lemma fold_setdefault_head {A} (f : A -> Q) (ls : list A) :
  forall (k : Q) (g : list A) (d : list (Q * list A)),
    fold_left (fun result l => setdefault_append (f l) l result) ls ((k, g) :: d)
    = (k, g ++ List.filter (fun x => Qeq_bool k (f x)) ls)
      :: fold_left (fun result l => setdefault_append (f l) l result)
           (List.filter (fun x => negb (Qeq_bool k (f x))) ls) d.
Proof.
  induction ls as [|l ls IH]; intros k g d; simpl.
  - rewrite app_nil_r. reflexivity.
  - destruct (Qeq_bool k (f l)); simpl.
    + rewrite IH, <- app_assoc. reflexivity.
    + apply IH.
Qed.

Lemma get_attr_lookup_cons_head {A} (f : A -> Q) (l : A) (ls : list A) :
  get_attr_lookup f (l :: ls)
  = (f l, l :: List.filter (fun x => Qeq_bool (f l) (f x)) ls)
    :: get_attr_lookup f (List.filter (fun x => negb (Qeq_bool (f l) (f x))) ls).
Proof.
  unfold get_attr_lookup. simpl. exact (fold_setdefault_head f ls (f l) [l] []).
Qed.

(** X15: without patterns every group matches.  The call then raises
    [GroupNotFound] when there are no lines, returns the coordinate of the
    first line when all lines share it, and raises [RuntimeError] as soon as
    two lines differ in the coordinate. *)
Theorem find_attr_group_matching_no_patterns (attr_name : attr)
  (lines : list TextLine) :
  find_attr_group_matching [] attr_name lines
  = match lines with
    | [] => Raise GroupNotFound
    | l :: ls =>
        if forallb (fun l' => Qeq_bool (getattr l' attr_name) (getattr l attr_name))
             ls
        then Ok (getattr l attr_name)
        else Raise (RuntimeError "more than one group found matching")
    end.
Proof.
  rewrite find_attr_group_matching_found.
  replace (List.filter (fun g : Q * list TextLine => group_matches [] (snd g))
             (get_attr_lookup (fun l => getattr l attr_name) lines))
    with (get_attr_lookup (fun l => getattr l attr_name) lines).
  2:{ symmetry. apply forallb_filter_id. apply forallb_forall. reflexivity. }
  destruct lines as [|l ls]; [reflexivity|].
  rewrite get_attr_lookup_cons_head.
  destruct (forallb _ ls) eqn:Hall.
  - replace (List.filter
               (fun x => negb (Qeq_bool (getattr l attr_name) (getattr x attr_name)))
               ls) with (@nil TextLine); [reflexivity|].
    symmetry. clear -Hall. induction ls as [|x ls IH]; simpl in *; [reflexivity|].
    apply andb_true_iff in Hall as [Hx Hall].
    rewrite Qeq_bool_sym, Hx. simpl. apply IH, Hall.
  - destruct (List.filter
                (fun x => negb (Qeq_bool (getattr l attr_name) (getattr x attr_name)))
                ls) as [|x xs] eqn:Hf.
    + exfalso. assert (forallb
                 (fun l' => Qeq_bool (getattr l' attr_name) (getattr l attr_name)) ls
                 = true); [|congruence].
      apply forallb_forall. intros x Hx.
      destruct (Qeq_bool (getattr x attr_name) (getattr l attr_name)) eqn:E;
        [reflexivity|].
      assert (Hin : In x (@nil TextLine)); [|destruct Hin].
      rewrite <- Hf. apply filter_In. split; [exact Hx|].
      rewrite Qeq_bool_sym, E. reflexivity.
    + rewrite get_attr_lookup_cons_head. reflexivity.
Qed.

(** ** [find_lines_with] *)

Lemma find_lines_with_fold {Mt} (regex : string -> option Mt)
  (lines : list TextLine) :
  forall acc,
    fold_left
      (fun result l =>
         match regex (text l) with
         | Some m => result ++ [(l, m)]
         | None => result
         end)
      lines acc
    = acc ++ find_lines_with regex lines.
Proof.
  unfold find_lines_with.
  induction lines as [|l lines IH]; intros acc; simpl.
  - rewrite app_nil_r. reflexivity.
  - destruct (regex (text l)) as [m|]; [|apply IH].
    rewrite (IH (acc ++ [(l, m)])), (IH [(l, m)]), <- app_assoc. reflexivity.
Qed.

Lemma find_lines_with_cons {Mt} (regex : string -> option Mt) (l : TextLine)
  (lines : list TextLine) :
  find_lines_with regex (l :: lines)
  = match regex (text l) with
    | Some m => (l, m) :: find_lines_with regex lines
    | None => find_lines_with regex lines
    end.
Proof.
  unfold find_lines_with at 1. simpl. rewrite find_lines_with_fold.
  destruct (regex (text l)); reflexivity.
Qed.

Lemma find_lines_with_in {Mt} (regex : string -> option Mt)
  (lines : list TextLine) (l : TextLine) :
  In l lines -> searches regex (text l) = true ->
  exists m, In (l, m) (find_lines_with regex lines).
Proof.
  unfold searches. induction lines as [|x lines IH]; [intros []|].
  intros [->|Hin] Hs; rewrite find_lines_with_cons.
  - destruct (regex (text l)) as [m|]; [|discriminate]. exists m. left. reflexivity.
  - destruct (IH Hin Hs) as [m Hm]. exists m.
    destruct (regex (text x)); [right|]; exact Hm.
Qed.

(** X16: [find_lines_with] and [find_attr_group_matching] agree on what a
    match is.  The lines found are the lines whose text the expression
    matches, in the order in which they were given, each with its match;
    when the group locator returns a coordinate, each of its expressions is
    found in a line at that coordinate; and an expression that is found
    nowhere leaves the locator without a group. *)
Theorem find_lines_with_locator {Mt} (regex : string -> option Mt)
  (regexes : list pattern) (attr_name : attr) (lines : list TextLine) :
  In (searches regex) regexes ->
  map fst (find_lines_with regex lines)
  = List.filter (fun l => searches regex (text l)) lines /\
  (forall l m, In (l, m) (find_lines_with regex lines) -> regex (text l) = Some m) /\
  (forall v,
      find_attr_group_matching regexes attr_name lines = Ok v ->
      exists l m, In (l, m) (find_lines_with regex lines)
                  /\ getattr l attr_name == v) /\
  (find_lines_with regex lines = [] ->
   find_attr_group_matching regexes attr_name lines = Raise GroupNotFound).
Proof.
  intros Hre.
  assert (Hgroup : forall k g,
             In (k, g)
               (List.filter
                  (fun g : Q * list TextLine => group_matches regexes (snd g))
                  (get_attr_lookup (fun l => getattr l attr_name) lines)) ->
             exists l m, In (l, m) (find_lines_with regex lines)
                         /\ getattr l attr_name == k).
  { intros k g Hin.
    pose proof (found_matching regexes attr_name lines k g Hin) as Hm.
    destruct (matching_group_inv _ _ _ _ _ Hm Hre) as (l & Hl & Hq & Hs).
    destruct (find_lines_with_in regex lines l Hl Hs) as [m Hm'].
    eauto. }
  split; [|split; [|split]].
  - clear Hgroup. unfold searches.
    induction lines as [|l lines IH]; [reflexivity|].
    rewrite find_lines_with_cons. simpl.
    destruct (regex (text l)); simpl; rewrite IH; reflexivity.
  - clear Hgroup. induction lines as [|x lines IH]; [intros ? ? []|].
    intros l m. rewrite find_lines_with_cons.
    destruct (regex (text x)) as [m'|] eqn:E; [|apply IH].
    intros [[= <- <-]|Hin]; [exact E|apply IH, Hin].
  - intros v. rewrite find_attr_group_matching_found.
    destruct (List.filter _ _) as [|[k g] [|e f]] eqn:Hf; try discriminate.
    intros [= <-]. apply (Hgroup k g). left. reflexivity.
  - intros Hnil. rewrite find_attr_group_matching_found.
    destruct (List.filter _ _) as [|[k g] rest] eqn:Hf; [reflexivity|].
    destruct (Hgroup k g (or_introl eq_refl)) as (l & m & Hin & _).
    rewrite Hnil in Hin. destruct Hin.
Qed.

Lemma find_lines_with_locator_witness :
  map fst (find_lines_with (fun t => String.index 0 "Last Name" t) page_one)
  = List.filter
      (fun l => searches (fun t => String.index 0 "Last Name" t) (text l)) page_one /\
  (forall l m,
      In (l, m) (find_lines_with (fun t => String.index 0 "Last Name" t) page_one) ->
      String.index 0 "Last Name" (text l) = Some m) /\
  (forall v,
      find_attr_group_matching name_patterns Y0 page_one = Ok v ->
      exists l m,
        In (l, m) (find_lines_with (fun t => String.index 0 "Last Name" t) page_one)
        /\ getattr l Y0 == v) /\
  (find_lines_with (fun t => String.index 0 "Last Name" t) page_one = [] ->
   find_attr_group_matching name_patterns Y0 page_one = Raise GroupNotFound).
Proof.
  apply (find_lines_with_locator (fun t => String.index 0 "Last Name" t)
           name_patterns Y0 page_one).
  left. reflexivity.
Defined.

(** ** How [merge_overlapping_rows] fails *)

Lemma extent_outcome_cases (a b : attr) (v : row_value) :
  (v = [] /\ extent_outcome a b v
             = Raise (ValueError "min() arg is an empty sequence"))
  \/ (exists l lo hi,
        In l (dict_values v) /\ extent_outcome a b v = Ok (lo, hi)
        /\ lo <= getattr l a /\ getattr l b <= hi).
Proof.
  unfold extent_outcome, extent_of.
  destruct v as [|[k l] v]; [left; split; reflexivity|].
  right. simpl. exists l. eexists. eexists.
  split; [left; reflexivity|]. split; [reflexivity|].
  split; [apply least_le|apply greatest_ge].
Qed.

(** One turn of the loop on rows that are dictionaries of text lines. *)
Lemma merge_step_typed (a b : attr) (h : heap) (new_rows row next_row : loc)
  (v v' : row_value) (done : list loc) :
  value_at h row = Some v -> value_at h next_row = Some v' ->
  h !! new_rows = Some (OList done) ->
  (exists e,
      merge_step a b new_rows row next_row h = (Raise e, h) /\
      ((e = ValueError "min() arg is an empty sequence" /\ (v = [] \/ v' = []))
       \/ (e = AssertionError /\
           exists l, In l (dict_values v') /\ getattr l b < getattr l a)))
  \/ (v <> [] /\
      exists d d',
        h !! row = Some (ODict d) /\
        merge_step a b new_rows row next_row h
        = (Ok row, <[row := ODict (dict_update d d')]> h) /\
        value_at (<[row := ODict (dict_update d d')]> h) row
        = Some (dict_update v v'))
  \/ merge_step a b new_rows row next_row h
     = (Ok next_row, <[new_rows := OList (done ++ [row])]> h).
Proof.
  intros Hv Hv' Hn. unfold merge_step.
  destruct (extent_outcome_cases a b v) as [[-> He]|(l & lo & hi & Hl & He & _)].
  { left. eexists. split; [|left; split; [reflexivity|left; reflexivity]].
    apply bind_raise. rewrite (get_row_extent_value a b h row _ Hv). rewrite He.
    reflexivity. }
  rewrite (bind_ok _ _ h h (lo, hi))
    by (rewrite (get_row_extent_value a b h row v Hv), He; reflexivity).
  cbv beta iota.
  destruct (extent_outcome_cases a b v')
    as [[-> He']|(l' & lo' & hi' & Hl' & He' & Hlo & Hhi)].
  { left. eexists. split; [|left; split; [reflexivity|right; reflexivity]].
    apply bind_raise. rewrite (get_row_extent_value a b h next_row _ Hv'). rewrite He'.
    reflexivity. }
  rewrite (bind_ok _ _ h h (lo', hi'))
    by (rewrite (get_row_extent_value a b h next_row v' Hv'), He'; reflexivity).
  cbv beta iota.
  destruct (overlap lo hi lo' hi') as [o|e] eqn:Ho.
  2:{ left. exists e. split; [apply bind_raise; reflexivity|].
      right. unfold overlap in Ho.
      destruct (Qle_bool lo' hi') eqn:E; [discriminate|]. injection Ho as <-.
      split; [reflexivity|]. exists l'. split; [exact Hl'|].
      assert (hi' < lo'); [|lra].
      apply Qnot_le_lt. intros Hle. apply Qle_bool_iff in Hle. congruence. }
  rewrite (bind_ok _ _ h h o) by reflexivity.
  cbv beta iota.
  destruct (truthy o).
  - right. left. split; [intros ->; destruct Hl|].
    destruct (read_dict_value _ _ _ Hv) as (d & Hd & Hr).
    destruct (read_dict_value _ _ _ Hv') as (d' & Hd' & Hr').
    exists d, d'. split; [exact Hd|]. split.
    + rewrite (bind_ok _ _ _ _ _ (py_update_dicts h row next_row d d' Hd Hd')).
      reflexivity.
    + rewrite (value_at_insert_dict h row d _ Hd).
      apply resolve_items_update; assumption.
  - right. right.
    rewrite (bind_ok _ _ _ _ _ (py_append_list h new_rows row done Hn)).
    reflexivity.
Qed.

Lemma walk_rows_raises (a b : attr) (h0 : heap) (rs : list loc)
  (new_rows : loc) (rest : list loc) :
  forall (row : loc) (h h' : heap) (done : list loc) (e : exn),
    (forall r, In r rs ->
       exists v, value_at h r = Some v /\
                 (v = [] -> h0 !! r = Some (ODict [])) /\
                 forall l, In l (dict_values v) -> line_of_rows h0 rs l) ->
    h !! new_rows = Some (OList done) ->
    In row rs -> (forall r, In r rest -> In r rs) ->
    walk_rows a b rest new_rows row h = (Raise e, h') ->
    (e = ValueError "min() arg is an empty sequence" /\
     exists r, In r rs /\ h0 !! r = Some (ODict []))
    \/ (e = AssertionError /\
        exists l, line_of_rows h0 rs l /\ getattr l b < getattr l a).
Proof.
  induction rest as [|next rest IH]; intros row h h' done e Hinv Hn Hrow Hrest;
    simpl; [discriminate|].
  intros H.
  assert (Hnext : In next rs) by (apply Hrest; left; reflexivity).
  destruct (Hinv row Hrow) as (v & Hv & Hnil & Hlines).
  destruct (Hinv next Hnext) as (v' & Hv' & Hnil' & Hlines').
  destruct (merge_step_typed a b h new_rows row next v v' done Hv Hv' Hn)
    as [(e0 & Hs & Hwhy)|[(Hne & d & d' & Hd & Hs & Hval)|Hs]].
  - rewrite (bind_raise _ _ _ _ _ Hs) in H. injection H as <- <-.
    destruct Hwhy as [[-> [->| ->]]|[-> (l & Hl & Hlt)]].
    + left. split; [reflexivity|]. exists row. auto.
    + left. split; [reflexivity|]. exists next. auto.
    + right. split; [reflexivity|]. exists l. auto.
  - rewrite (bind_ok _ _ _ _ _ Hs) in H.
    apply (IH row _ h' done e) in H; [exact H| | |exact Hrow|].
    + intros r Hr. destruct (Nat.eq_dec row r) as [<-|Hneq].
      * exists (dict_update v v'). split; [exact Hval|].
        split; [intros Hu; destruct (update_not_nil _ _ Hne Hu)|].
        intros l Hl. destruct (in_values_update _ _ _ Hl); auto.
      * rewrite (value_at_insert_other h row r d _ Hd Hneq). apply Hinv, Hr.
    + rewrite list_lookup_insert_ne; [exact Hn|].
      intros ->. rewrite Hd in Hn. discriminate.
    + intros r Hr. apply Hrest. right. exact Hr.
  - rewrite (bind_ok _ _ _ _ _ Hs) in H.
    apply (IH next _ h' (done ++ [row]) e) in H; [exact H| | |exact Hnext|].
    + intros r Hr. rewrite (value_at_insert_list h new_rows r done _ Hn).
      apply Hinv, Hr.
    + apply list_lookup_insert_eq. eapply lookup_lt_Some, Hn.
    + intros r Hr. apply Hrest. right. exact Hr.
Qed.

(** X17: every way in which [merge_overlapping_rows] fails on rows that are
    dictionaries of text lines.  One of at least two rows is empty, and
    [min] of nothing raises [ValueError]; or the assertion of [overlap]
    fails, and then some line of the rows has its row minimum above its row
    maximum.  Rows that are not empty and hold well-formed lines never make
    the call raise, and a single row is not looked at. *)
Theorem merge_overlapping_rows_raises (a b : attr) (h h' : heap) (rows : loc)
  (rs : list loc) (e : exn) :
  h !! rows = Some (OList rs) ->
  (forall r, In r rs -> exists v, value_at h r = Some v) ->
  merge_overlapping_rows rows a b h = (Raise e, h') ->
  (2 <= length rs)%nat /\
  ((e = ValueError "min() arg is an empty sequence" /\
    exists r, In r rs /\ h !! r = Some (ODict []))
   \/ (e = AssertionError /\
       exists l, line_of_rows h rs l /\ getattr l b < getattr l a)).
Proof.
  intros Hrows Htyped H.
  destruct rs as [|row rest].
  { unfold merge_overlapping_rows, bind, read_list in H. rewrite Hrows in H.
    discriminate. }
  rewrite (merge_overlapping_rows_unfold a b h rows row rest Hrows) in H.
  pose proof (list_lookup_middle h [] (OList []) (length h) eq_refl) as Hn.
  destruct (walk_rows a b rest (length h) row (h ++ [OList []]))
    as [[last|e0] h1] eqn:Hw.
  - destruct (walk_rows_result a b (length h) rest row last _ h1 [] Hn Hw)
      as (outs & tl & Hn1 & _ & _).
    rewrite (bind_ok _ _ _ _ _ Hw) in H.
    rewrite (bind_ok _ _ _ _ _ (py_append_list h1 _ last _ Hn1)) in H.
    discriminate.
  - rewrite (bind_raise _ _ _ _ _ Hw) in H. injection H as <- <-.
    split.
    { destruct rest; [discriminate|simpl; lia]. }
    apply (walk_rows_raises a b h (row :: rest) (length h) rest row
             (h ++ [OList []]) h1 [] e0); auto.
    + intros r Hr. destruct (Htyped r Hr) as [v Hv].
      exists v. split; [apply value_at_app, Hv|]. split.
      * intros ->. destruct (read_dict_value _ _ _ Hv) as (d & Hd & Hres).
        destruct d as [|[k x] d]; [exact Hd|]. simpl in Hres.
        destruct (h !! x) as [[l| |]|]; try discriminate.
        destruct (resolve_items h d); discriminate.
      * intros l Hl. exists r, v. auto.
    + left. reflexivity.
    + intros r Hr. right. exact Hr.
Qed.

Lemma merge_overlapping_rows_raises_witness :
  (2 <= length [1%nat; 2%nat])%nat /\
  ((ValueError "min() arg is an empty sequence"
    = ValueError "min() arg is an empty sequence" /\
    exists r, In r [1%nat; 2%nat] /\ heap_empty_row !! r = Some (ODict []))
   \/ (ValueError "min() arg is an empty sequence" = AssertionError /\
       exists l, line_of_rows heap_empty_row [1%nat; 2%nat] l
                 /\ getattr l Y1 < getattr l Y0)).
Proof.
  apply (merge_overlapping_rows_raises Y0 Y1 heap_empty_row
           (heap_empty_row ++ [OList []]) 3%nat [1%nat; 2%nat]).
  - reflexivity.
  - intros r [<-|[<-|[]]]; eexists; reflexivity.
  - vm_compute. reflexivity.
Defined.

(** ** [find_row_table] and [find_col_table] *)

(** X18: [find_row_table] lists the rows from the top of the page down, by
    strictly decreasing [y0], and [find_col_table] lists them from left to
    right, by strictly increasing [x0]; in both, a row holds the lines at
    its coordinate in the order in which they were given. *)
Theorem find_row_col_table_order (h h' : heap) (headers lines rows : loc)
  (bias : string) :
  (find_row_table headers lines bias h = (Ok rows, h') ->
   exists ls rs ks,
     read_lines lines h = (Ok ls, h) /\
     h' !! rows = Some (OList rs) /\
     StronglySorted (fun k k' => k' < k) ks /\
     Forall2
       (fun r k =>
          exists d, h' !! r = Some (ODict d) /\
                    dict_values d
                    = map fst (List.filter
                                 (fun l : href => Qeq_bool (y0 (snd l)) k) ls))
       rs ks)
  /\
  (find_col_table headers lines bias h = (Ok rows, h') ->
   exists ls rs ks,
     read_lines lines h = (Ok ls, h) /\
     h' !! rows = Some (OList rs) /\
     StronglySorted (fun k k' => k < k') ks /\
     Forall2
       (fun r k =>
          exists d, h' !! r = Some (ODict d) /\
                    dict_values d
                    = map fst (List.filter
                                 (fun l : href => Qeq_bool (x0 (snd l)) k) ls))
       rs ks).
Proof.
  unfold find_row_table, find_col_table. split; intros H;
    destruct (find_table_rows_by_key _ _ _ _ _ _ _ _ _ _ _ H)
      as (ls & rs & Hls & Hrows & HF).
  - exists ls, rs, (row_keys Y0 true ls).
    split; [exact Hls|]. split; [exact Hrows|].
    split; [exact (row_keys_before Y0 true ls)|].
    eapply Forall2_impl; [exact HF|].
    intros r k (d & Hd & _ & Hv). exists d. split; [exact Hd|exact Hv].
  - exists ls, rs, (row_keys X0 false ls).
    split; [exact Hls|]. split; [exact Hrows|].
    split; [exact (row_keys_before X0 false ls)|].
    eapply Forall2_impl; [exact HF|].
    intros r k (d & Hd & _ & Hv). exists d. split; [exact Hd|exact Hv].
Qed.

(** ** [gather_text] *)

Lemma item_nested_ind (P : item -> Prop) :
  (forall box_lines, P (LTTextBoxHorizontal box_lines)) ->
  (forall children, Forall P children -> P (LTContainer children)) ->
  P LTRectOrLine ->
  (forall ty, P (LTOther ty)) ->
  forall it, P it.
Proof.
  intros Hb Hc Hr Ho. fix IH 1. intros [ls|cs| |ty];
    [apply Hb| |exact Hr|apply Ho].
  apply Hc. induction cs as [|c cs IHcs]; constructor; [apply IH|exact IHcs].
Qed.

Lemma gather_text_container (blank : string -> bool) (children : list item)
  (st : gathered) :
  gather_text blank (LTContainer children) st = gather_each blank children st.
Proof.
  revert st. induction children as [|c cs IH]; intros st; [reflexivity|].
  simpl. destruct (gather_text blank c st) as [[e|] st']; [reflexivity|].
  apply IH.
Qed.

Lemma leaves_container (children : list item) :
  leaves (LTContainer children) = concat (map leaves children).
Proof.
  induction children as [|c cs IH]; [reflexivity|].
  simpl in *. rewrite IH. reflexivity.
Qed.

Lemma text_lines_container (children : list item) :
  text_lines (LTContainer children) = concat (map text_lines children).
Proof.
  induction children as [|c cs IH]; [reflexivity|].
  simpl in *. rewrite IH. reflexivity.
Qed.

Lemma gather_line_warned (blank : string -> bool) (items : list line_item) :
  forall contents fontname warned,
    gather_line blank items contents fontname warned
    = (fst (gather_line blank items contents fontname []),
       warned ++ snd (gather_line blank items contents fontname [])).
Proof.
  induction items as [|[t|t f|ty] items IH]; intros contents fontname warned;
    simpl.
  - rewrite app_nil_r. reflexivity.
  - destruct (blank t); [apply IH|]. simpl. rewrite app_nil_r. reflexivity.
  - destruct fontname as [f0|]; [|apply IH].
    destruct (String.eqb f0 f); [apply IH|].
    rewrite (IH _ _ (warned ++ [font_changed f0 f])).
    rewrite (IH _ _ [font_changed f0 f]). simpl.
    rewrite <- app_assoc. reflexivity.
  - rewrite app_nil_r. reflexivity.
Qed.

Lemma gather_box_app (blank : string -> bool) (box_lines : list box_line) :
  forall st,
    gather_box blank box_lines st
    = (fst (gather_box blank box_lines no_lines),
       gathered_app st (snd (gather_box blank box_lines no_lines))).
Proof.
  induction box_lines as [|[items bbox|] rest IH]; intros [ls ws]; simpl.
  - unfold gathered_app. simpl. rewrite !app_nil_r. reflexivity.
  - rewrite (gather_line_warned blank items [] None ws).
    destruct (gather_line blank items [] None []) as [[[contents fontname]|e] w];
      simpl.
    + rewrite IH.
      rewrite (IH (mk_gathered [mk_new_line (String.concat "" contents) fontname bbox] w)).
      unfold gathered_app. simpl. rewrite <- !app_assoc. reflexivity.
    + unfold gathered_app. simpl. rewrite app_nil_r. reflexivity.
  - unfold gathered_app. simpl. rewrite !app_nil_r. reflexivity.
Qed.

Lemma gathered_app_assoc (a b c : gathered) :
  gathered_app (gathered_app a b) c = gathered_app a (gathered_app b c).
Proof. unfold gathered_app. simpl. rewrite <- !app_assoc. reflexivity. Qed.

Lemma gathered_app_nil_r (a : gathered) : gathered_app a no_lines = a.
Proof. destruct a. unfold gathered_app. simpl. rewrite !app_nil_r. reflexivity. Qed.

Lemma gathered_app_nil_l (a : gathered) : gathered_app no_lines a = a.
Proof. destruct a. reflexivity. Qed.

Lemma gather_each_app_state (blank : string -> bool) (children : list item) :
  Forall (fun it => forall st,
            gather_text blank it st
            = (fst (gather_text blank it no_lines),
               gathered_app st (snd (gather_text blank it no_lines))))
    children ->
  forall st,
    gather_each blank children st
    = (fst (gather_each blank children no_lines),
       gathered_app st (snd (gather_each blank children no_lines))).
Proof.
  induction 1 as [|c cs Hc _ IH]; intros st; simpl.
  - rewrite gathered_app_nil_r. reflexivity.
  - rewrite (Hc st).
    destruct (gather_text blank c no_lines) as [[e|] st1]; simpl.
    + reflexivity.
    + rewrite IH, (IH st1). simpl. rewrite gathered_app_assoc. reflexivity.
Qed.

(** X19: [gather_text] only adds to the list it is given, and what it adds
    does not depend on what the list holds: the lines, the warnings and the
    exception, if any, are those of the call on an empty list. *)
Theorem gather_text_accumulates (blank : string -> bool) (it : item)
  (st : gathered) :
  gather_text blank it st
  = (fst (gather_text blank it no_lines),
     gathered_app st (snd (gather_text blank it no_lines))).
Proof.
  revert st. induction it as [ls|cs IH| |ty] using item_nested_ind; intros st.
  - apply gather_box_app.
  - rewrite !gather_text_container. apply gather_each_app_state, IH.
  - simpl. rewrite gathered_app_nil_r. reflexivity.
  - simpl. rewrite gathered_app_nil_r. reflexivity.
Qed.

Lemma gather_each_app (blank : string -> bool) (xs ys : list item)
  (st : gathered) :
  gather_each blank (xs ++ ys) st
  = match gather_each blank xs st with
    | (None, st') => gather_each blank ys st'
    | (Some e, st') => (Some e, st')
    end.
Proof.
  revert st. induction xs as [|x xs IH]; intros st; simpl; [reflexivity|].
  destruct (gather_text blank x st) as [[e|] st']; [reflexivity|apply IH].
Qed.

Lemma gather_each_leaves (blank : string -> bool) (children : list item) :
  Forall (fun it => forall st,
            gather_text blank it st = gather_each blank (leaves it) st)
    children ->
  forall st,
    gather_each blank children st
    = gather_each blank (concat (map leaves children)) st.
Proof.
  induction 1 as [|c cs Hc _ IH]; intros st; simpl; [reflexivity|].
  rewrite gather_each_app, <- (Hc st).
  destruct (gather_text blank c st) as [[e|] st']; [reflexivity|apply IH].
Qed.

Lemma gather_text_by_leaves (blank : string -> bool) (it : item) :
  forall st, gather_text blank it st = gather_each blank (leaves it) st.
Proof.
  induction it as [ls|cs IH| |ty] using item_nested_ind; intros st.
  - simpl. destruct (gather_box blank ls st) as [[e|] st']; reflexivity.
  - rewrite gather_text_container, leaves_container.
    apply gather_each_leaves, IH.
  - reflexivity.
  - reflexivity.
Qed.

(** A leaf is a text box or an unexpected item. *)
Lemma leaves_shape (it : item) :
  Forall (fun x => match x with
                   | LTTextBoxHorizontal _ | LTOther _ => True
                   | _ => False
                   end) (leaves it).
Proof.
  induction it as [ls|cs IH| |ty] using item_nested_ind.
  - repeat constructor.
  - rewrite leaves_container. induction IH as [|c cs Hc _ IHcs]; simpl.
    + constructor.
    + apply Forall_app. split; assumption.
  - constructor.
  - repeat constructor.
Qed.

(** X20: containers are transparent and rectangles and lines invisible.
    The outcome of [gather_text] is that of going through the text boxes
    and the unexpected items of the tree in the order of the document,
    however they are nested. *)
Theorem gather_text_leaves (blank : string -> bool) (it : item)
  (st : gathered) :
  gather_text blank it st = gather_each blank (leaves it) st /\
  Forall (fun x => match x with
                   | LTTextBoxHorizontal _ | LTOther _ => True
                   | _ => False
                   end) (leaves it).
Proof.
  split; [apply gather_text_by_leaves|apply leaves_shape].
Qed.

(** ** The lines [gather_text] makes *)

Lemma gather_line_ok (blank : string -> bool) (items : list line_item) :
  forall contents fontname warned,
    forallb (item_ok blank) items = true ->
    fst (gather_line blank items contents fontname warned)
    = inl (contents ++ map fst (chars_of items),
           match fontname with
           | Some f => Some f
           | None => head (map snd (chars_of items))
           end).
Proof.
  induction items as [|[t|t f|ty] items IH]; intros contents fontname warned;
    simpl.
  - intros _. rewrite app_nil_r. destruct fontname; reflexivity.
  - intros H. apply andb_true_iff in H as [-> H]. apply IH, H.
  - intros H. destruct fontname as [f0|].
    + destruct (String.eqb f0 f); rewrite (IH _ _ _ H), <- app_assoc; reflexivity.
    + rewrite (IH _ _ _ H), <- app_assoc. reflexivity.
  - discriminate.
Qed.

Lemma gather_line_stops (blank : string -> bool) (items : list line_item) :
  forall contents fontname warned,
    forallb (item_ok blank) items = false ->
    exists e, fst (gather_line blank items contents fontname warned) = inr e.
Proof.
  induction items as [|[t|t f|ty] items IH]; intros contents fontname warned;
    simpl.
  - discriminate.
  - destruct (blank t); simpl; [apply IH|eauto].
  - intros H. destruct fontname as [f0|]; [destruct (String.eqb f0 f)|];
      apply IH, H.
  - eauto.
Qed.

Lemma lines_made_app (xs ys : list box_line) :
  lines_made (xs ++ ys) = lines_made xs ++ lines_made ys.
Proof. unfold lines_made. apply flat_map_app. Qed.

Lemma gather_box_made (blank : string -> bool) (box_lines : list box_line) :
  forall st,
    made_prefix blank box_lines (g_lines st) (gather_box blank box_lines st) /\
    (fst (gather_box blank box_lines st) = None
     <-> forallb (box_line_ok blank) box_lines = true).
Proof.
  induction box_lines as [|[items bbox|] rest IH]; intros st; simpl.
  - split; [|split; reflexivity].
    exists [], []. simpl. rewrite app_nil_r. auto.
  - destruct (forallb (item_ok blank) items) eqn:Hok.
    + pose proof (gather_line_ok blank items [] None (g_warnings st) Hok) as Hl.
      destruct (gather_line blank items [] None (g_warnings st))
        as [[[contents fontname]|e] w]; simpl in Hl; [|discriminate].
      injection Hl as -> ->.
      destruct (IH (mk_gathered
                      (g_lines st
                       ++ [mk_new_line
                             (String.concat "" (map fst (chars_of items)))
                             (head (map snd (chars_of items))) bbox]) w))
        as [(pre & post & -> & Hpre & Hlines & Hpost) Hiff].
      split; [|exact Hiff].
      exists (LTTextLineHorizontal items bbox :: pre), post.
      split; [reflexivity|]. split; [simpl; rewrite Hok; exact Hpre|].
      split; [|exact Hpost].
      rewrite Hlines. simpl. rewrite <- app_assoc. reflexivity.
    + destruct (gather_line_stops blank items [] None (g_warnings st) Hok)
        as [e He].
      destruct (gather_line blank items [] None (g_warnings st))
        as [[[contents fontname]|e'] w]; simpl in He; [discriminate|].
      simpl. split; [|split; discriminate].
      exists [], (LTTextLineHorizontal items bbox :: rest). simpl.
      rewrite app_nil_r. split; [reflexivity|]. split; [reflexivity|].
      split; [reflexivity|discriminate].
  - split; [|split; discriminate].
    exists [], (LTLineOther :: rest). simpl. rewrite app_nil_r.
    split; [reflexivity|]. split; [reflexivity|]. split; [reflexivity|discriminate].
Qed.

Lemma gather_each_made (blank : string -> bool) (xs : list item) :
  Forall (fun x => match x with
                   | LTTextBoxHorizontal _ | LTOther _ => True
                   | _ => False
                   end) xs ->
  forall st,
    made_prefix blank (concat (map box_lines_of xs)) (g_lines st)
      (gather_each blank xs st) /\
    (fst (gather_each blank xs st) = None
     <-> forallb (fun x => match x with
                           | LTTextBoxHorizontal box_lines =>
                               forallb (box_line_ok blank) box_lines
                           | _ => false
                           end) xs = true).
Proof.
  induction 1 as [|x xs Hx _ IH]; intros st; simpl.
  - split; [|split; reflexivity].
    exists [], []. simpl. rewrite app_nil_r. auto.
  - destruct x as [ls|cs| |ty]; try destruct Hx.
    + simpl.
      destruct (gather_box_made blank ls st)
        as [(pre & post & -> & Hpre & Hlines & Hpost) Hiff].
      destruct (gather_box blank (pre ++ post) st) as [[e|] st1]; simpl in *.
      * split.
        -- exists pre, (post ++ concat (map box_lines_of xs)).
           rewrite <- app_assoc. split; [reflexivity|]. split; [exact Hpre|].
           split; [exact Hlines|discriminate].
        -- split; [discriminate|]. intros H. apply andb_true_iff in H as [H _].
           apply Hiff in H. discriminate.
      * rewrite (Hpost eq_refl), app_nil_r in *.
        destruct (IH st1) as [(pre' & post' & Hall & Hpre' & Hlines' & Hpost') Hiff'].
        split.
        -- exists (pre ++ pre'), post'. rewrite Hall, <- app_assoc.
           split; [reflexivity|]. split; [rewrite forallb_app, Hpre, Hpre'; reflexivity|].
           split; [|exact Hpost'].
           rewrite Hlines', Hlines, lines_made_app, <- app_assoc. reflexivity.
        -- rewrite Hpre. simpl. exact Hiff'.
    + simpl. split; [|split; discriminate].
      exists [], (concat (map box_lines_of xs)). simpl. rewrite app_nil_r.
      split; [reflexivity|]. split; [reflexivity|]. split; [reflexivity|discriminate].
Qed.

Lemma text_lines_leaves (it : item) :
  text_lines it = concat (map box_lines_of (leaves it)).
Proof.
  induction it as [ls|cs IH| |ty] using item_nested_ind.
  - simpl. rewrite app_nil_r. reflexivity.
  - rewrite text_lines_container, leaves_container.
    induction IH as [|c cs Hc _ IHcs]; simpl; [reflexivity|].
    rewrite map_app, concat_app, Hc, IHcs. reflexivity.
  - reflexivity.
  - reflexivity.
Qed.

(** X21: the lines [gather_text] makes.  The call returns exactly when the
    tree holds nothing but containers, rectangles, lines and horizontal text
    boxes whose lines are made of characters and blank annotations.  It then
    has added one line for each text line of the tree, in the order of the
    document: the text is that of the characters put together, annotations
    left out, the font is that of the first character, or [None] without
    one, and the box is that of the text line.  When the call raises, the
    lines of the text lines before the fault have been added all the same. *)
Theorem gather_text_lines (blank : string -> bool) (it : item) (st : gathered) :
  (fst (gather_text blank it st) = None <-> tree_ok blank it = true) /\
  (fst (gather_text blank it st) = None ->
   g_lines (snd (gather_text blank it st))
   = g_lines st ++ lines_made (text_lines it)) /\
  (exists pre post,
      text_lines it = pre ++ post /\
      forallb (box_line_ok blank) pre = true /\
      g_lines (snd (gather_text blank it st)) = g_lines st ++ lines_made pre) /\
  (forall items bbox,
      made_of (LTTextLineHorizontal items bbox)
      = Some (mk_new_line
                (String.concat "" (map fst (chars_of items)))
                (match chars_of items with
                 | [] => None
                 | (_, f) :: _ => Some f
                 end) bbox)).
Proof.
  rewrite gather_text_by_leaves, text_lines_leaves.
  destruct (gather_each_made blank (leaves it) (leaves_shape it) st)
    as [(pre & post & Hall & Hpre & Hlines & Hpost) Hiff].
  split; [exact Hiff|]. split; [|split].
  - intros Hnone. rewrite Hlines, Hall, (Hpost Hnone), app_nil_r. reflexivity.
  - exists pre, post. auto.
  - intros items bbox. unfold made_of, line_of.
    destruct (chars_of items) as [|[t f] cs]; reflexivity.
Qed.

Lemma gather_text_returns (blank : string -> bool) (it : item) (st : gathered) :
  fst (gather_text blank it st) = None ->
  forallb (box_line_ok blank) (text_lines it) = true /\
  g_lines (snd (gather_text blank it st))
  = g_lines st ++ lines_made (text_lines it).
Proof.
  rewrite gather_text_by_leaves, text_lines_leaves. intros Hnone.
  destruct (gather_each_made blank (leaves it) (leaves_shape it) st)
    as [(pre & post & Hall & Hpre & Hlines & Hpost) _].
  rewrite Hlines, Hall, (Hpost Hnone), app_nil_r. auto.
Qed.

Lemma lines_made_str (blank : string -> bool) (box_lines : list box_line) :
  forallb (box_line_ok blank) box_lines = true ->
  Forall2 str_of_made box_lines (lines_made box_lines).
Proof.
  induction box_lines as [|[items bbox|] rest IH]; simpl.
  - constructor.
  - intros H. apply andb_true_iff in H as [_ H]. constructor; [|apply IH, H].
    unfold str_of_made, TextLine_str, line_of, literal. simpl.
    destruct (chars_of items) as [|[t f] cs]; simpl; [eauto|].
    destruct (String.index 0 "Bold" f); reflexivity.
  - discriminate.
Qed.

(** X22: [str] of the lines [gather_text] returns.  There is one line for
    each text line of the tree; [str] of it raises [TypeError] when the text
    line had no character, for then the font name is [None], and otherwise
    gives the text, between asterisks when the font name of the first
    character has "Bold" in it. *)
Theorem gather_text_str (blank : string -> bool) (it : item) :
  fst (gather_text blank it no_lines) = None ->
  Forall2 str_of_made (text_lines it)
    (g_lines (snd (gather_text blank it no_lines))).
Proof.
  intros Hnone.
  destruct (gather_text_returns blank it no_lines Hnone) as [Hok ->].
  apply (lines_made_str blank), Hok.
Qed.

Lemma gather_text_str_witness :
  Forall2 str_of_made (text_lines sample_page)
    (g_lines (snd (gather_text sample_blank sample_page no_lines))).
Proof. apply (gather_text_str sample_blank sample_page). reflexivity. Defined.

(** ** The page of the demo *)

Lemma map_M_read_intro (h : heap) (ls : list href) :
  Forall (fun l : href => h !! fst l = Some (OTextLine (snd l))) ls ->
  map_M (fun x => let* l := read_line x in ret (x, l))%M (map fst ls) h
  = (Ok ls, h).
Proof.
  induction 1 as [|[x l] ls Hl _ IH]; simpl; [reflexivity|].
  simpl in Hl.
  rewrite (bind_ok _ _ h h (x, l))
    by (unfold bind, read_line; rewrite Hl; reflexivity).
  rewrite (bind_ok _ _ _ _ _ IH). reflexivity.
Qed.

Lemma read_lines_intro (h : heap) (r : loc) (ls : list href) :
  h !! r = Some (OList (map fst ls)) ->
  Forall (fun l : href => h !! fst l = Some (OTextLine (snd l))) ls ->
  read_lines r h = (Ok ls, h).
Proof.
  intros Hr HF. unfold read_lines.
  rewrite (bind_ok _ _ h h (map fst ls))
    by (unfold read_list; rewrite Hr; reflexivity).
  apply map_M_read_intro, HF.
Qed.

Lemma find_attr_group_matching_raises (regexes : list pattern) (a : attr)
  (lines : list TextLine) (e : exn) :
  find_attr_group_matching regexes a lines = Raise e ->
  e = GroupNotFound \/ e = RuntimeError "more than one group found matching".
Proof.
  rewrite find_attr_group_matching_found.
  destruct (List.filter _ _) as [|[k g] [|x f]]; intros [= <-]; auto.
Qed.

(** X23: the extraction of a page, as the demo does it, fails only where a
    header line or a table is not found.  When every line of the page has
    [y0 <= y1], the step that merges the rows never raises: the call
    returns as soon as the header group is located and [find_row_table]
    returns, and its rows are the documented walk over the rows of the
    table; an exception is [GroupNotFound] or the [RuntimeError] of the
    locator, with nothing created, or the exception of [find_row_table]. *)
Theorem extract_page_outcome (h h' : heap) (lines : loc) (ls : list href)
  (r : outcome loc) :
  read_lines lines h = (Ok ls, h) ->
  forallb (fun l : href => Qle_bool (y0 (snd l)) (y1 (snd l))) ls = true ->
  extract_page lines h = (r, h') ->
  match r with
  | Ok out =>
      exists top_y0 rows h1 rs vs outs,
        find_attr_group_matching name_patterns Y0 (map snd ls) = Ok top_y0 /\
        find_row_table (S (length h)) (length h) "centered"
          (page_store h top_y0 ls) = (Ok rows, h1) /\
        h1 !! rows = Some (OList rs) /\
        values_at h1 rs = Some vs /\
        merge_overlapping_rows rows Y0 Y1 h1 = (Ok out, h') /\
        h' !! out = Some (OList outs) /\
        values_at h' outs = Some (merge_rows_spec Y0 Y1 vs)
  | Raise e =>
      (find_attr_group_matching name_patterns Y0 (map snd ls) = Raise e /\
       h' = h /\
       (e = GroupNotFound
        \/ e = RuntimeError "more than one group found matching"))
      \/ exists top_y0,
           find_attr_group_matching name_patterns Y0 (map snd ls) = Ok top_y0 /\
           find_row_table (S (length h)) (length h) "centered"
             (page_store h top_y0 ls) = (Raise e, h')
  end.
Proof.
  intros Hls Hbox H. unfold extract_page in H.
  rewrite (bind_ok _ _ _ _ _ Hls) in H.
  destruct (find_attr_group_matching name_patterns Y0 (map snd ls))
    as [top|e] eqn:Htop.
  2:{ unfold bind, lift in H. injection H as <- <-. left.
      split; [reflexivity|]. split; [reflexivity|].
      apply (find_attr_group_matching_raises _ _ _ _ Htop). }
  rewrite (bind_ok _ _ h h top) in H by reflexivity.
  unfold bind at 1 in H. unfold alloc at 1 in H.
  unfold bind at 1 in H. unfold alloc at 1 in H.
  rewrite length_app in H. simpl length in H.
  replace (length h + 1)%nat with (S (length h)) in H by lia.
  rewrite <- app_assoc in H. simpl app in H.
  change (h ++ [OList (map fst (table_lines_of top ls));
                OList (map fst (headers_of top ls))])
    with (page_store h top ls) in H.
  destruct (read_lines_ok _ _ _ _ Hls) as (_ & _ & Hobj).
  assert (Htl : read_lines (length h) (page_store h top ls)
                = (Ok (table_lines_of top ls), page_store h top ls)).
  { apply read_lines_intro.
    - unfold page_store. apply list_lookup_middle. reflexivity.
    - apply Forall_forall. intros l Hl.
      apply list_elem_of_In, filter_In in Hl as [Hl _].
      rewrite Forall_forall in Hobj.
      apply lookup_app_l_Some, Hobj, list_elem_of_In, Hl. }
  assert (Hbox' : forallb (fun l : href => Qle_bool (getattr (snd l) Y0)
                                            (getattr (snd l) Y1))
                    (table_lines_of top ls) = true).
  { apply forallb_forall. intros l Hl. apply filter_In in Hl as [Hl _].
    rewrite forallb_forall in Hbox. apply Hbox, Hl. }
  destruct (find_row_table (S (length h)) (length h) "centered"
              (page_store h top ls)) as [[rows|e] h1] eqn:Hft.
  2:{ rewrite (bind_raise _ _ _ _ _ Hft) in H. injection H as <- <-.
      right. exists top. auto. }
  rewrite (bind_ok _ _ _ _ _ Hft) in H.
  destruct (find_table_rows_ok _ _ _ _ _ _ _ _ _ _ _ _ Hft Htl Hbox')
    as (rs & Hrows & Hnd & Hok).
  destruct (merge_rows_refines Y0 Y1 _ _ rs Hrows Hnd Hok)
    as (out & h2 & outs & vs & Hm & Hout & Hvs & Hspec).
  rewrite Hm in H. injection H as <- <-.
  exists top, rows, h1, rs, vs, outs. auto 10.
Qed.

Lemma extract_page_outcome_witness :
  exists top_y0 rows h1 rs vs outs,
    find_attr_group_matching name_patterns Y0
      (map snd [(0%nat, text_line "Last Name" 0 100 40 110);
                (1%nat, text_line "First Name" 50 100 90 110);
                (2%nat, text_line "Smith" 0 80 30 89);
                (3%nat, text_line "John" 50 80 70 89)]) = Ok top_y0 /\
    find_row_table 6%nat 5%nat "centered"
      (page_store heap_demo top_y0
         [(0%nat, text_line "Last Name" 0 100 40 110);
          (1%nat, text_line "First Name" 50 100 90 110);
          (2%nat, text_line "Smith" 0 80 30 89);
          (3%nat, text_line "John" 50 80 70 89)]) = (Ok rows, h1) /\
    h1 !! rows = Some (OList rs) /\
    values_at h1 rs = Some vs /\
    merge_overlapping_rows rows Y0 Y1 h1
    = (Ok 9%nat, snd (extract_page 4%nat heap_demo)) /\
    snd (extract_page 4%nat heap_demo) !! 9%nat = Some (OList outs) /\
    values_at (snd (extract_page 4%nat heap_demo)) outs
    = Some (merge_rows_spec Y0 Y1 vs).
Proof.
  apply (extract_page_outcome heap_demo (snd (extract_page 4%nat heap_demo))
           4%nat _ (Ok 9%nat));
    [reflexivity|reflexivity|vm_compute; reflexivity].
Defined.

(** ** Ties, exactly *)

Lemma StronglySorted_map_inv {A B} (R : B -> B -> Prop) (f : A -> B)
  (xs : list A) :
  StronglySorted (fun a b => R (f a) (f b)) xs -> StronglySorted R (map f xs).
Proof.
  induction 1 as [|x xs _ IH Hx]; simpl; constructor; [exact IH|].
  apply Forall_forall. intros y Hy.
  apply list_elem_of_In, in_map_iff in Hy as (a & <- & Ha).
  rewrite Forall_forall in Hx. apply Hx, list_elem_of_In, Ha.
Qed.

Lemma StronglySorted_filter_list {A} (R : A -> A -> Prop) (P : A -> bool)
  (xs : list A) :
  StronglySorted R xs -> StronglySorted R (List.filter P xs).
Proof.
  induction 1 as [|x xs _ IH Hx]; simpl; [constructor|].
  destruct (P x); [|exact IH]. constructor; [exact IH|].
  apply Forall_forall. intros y Hy.
  apply list_elem_of_In, filter_In in Hy as [Hy _].
  rewrite Forall_forall in Hx. apply Hx, list_elem_of_In, Hy.
Qed.

(** The overlapping headers come in the order of their starts. *)
Lemma possible_of_sorted (c0 c1 : attr) (l : TextLine) (hs : list href) :
  StronglySorted
    (fun a b : Q * href => getattr (snd (snd a)) c0 <= getattr (snd (snd b)) c0)
    (possible_of c0 c1 l (sorted (fun hd : href => getattr (snd hd) c0) false hs)).
Proof.
  unfold possible_of, overlaps_of.
  apply StronglySorted_filter_list, StronglySorted_map_inv. simpl.
  exact (sorted_sorted (fun hd : href => getattr (snd hd) c0) false hs).
Qed.

Lemma left_candidates_sorted (c0 : attr) (l : TextLine) (hs : list href) :
  StronglySorted (fun a b : Q * href => fst a <= fst b)
    (left_candidates c0 l (sorted (fun hd : href => getattr (snd hd) c0) false hs)).
Proof.
  unfold left_candidates.
  apply StronglySorted_map_inv, StronglySorted_filter_list. simpl.
  exact (sorted_sorted (fun hd : href => getattr (snd hd) c0) false hs).
Qed.

(** [min] over tuples whose first is smallest: it is returned, unless a
    later tuple has the same number and another object. *)
Lemma min_loop_first (cur : Q * href) (rest : list (Q * href)) :
  Forall (fun item => fst cur <= fst item) rest ->
  min_loop tuple_lt cur rest
  = if existsb (fun item => Qeq_bool (fst item) (fst cur)
                            && negb (Nat.eqb (fst (snd item)) (fst (snd cur))))
         rest
    then Raise (unorderable "<") else Ok cur.
Proof.
  induction 1 as [|item rest Hle _ IH]; simpl; [reflexivity|].
  unfold tuple_lt at 1.
  destruct (Qeq_bool (fst item) (fst cur)) eqn:E; simpl.
  - destruct (Nat.eqb (fst (snd item)) (fst (snd cur))); simpl; [exact IH|reflexivity].
  - assert (L : Qltb (fst item) (fst cur) = false).
    { apply not_true_is_false. intros H. apply Qltb_lt in H. lra. }
    rewrite L. exact IH.
Qed.

(** [max] over tuples in ascending order raises as soon as two of them have
    the same number and different objects. *)
Lemma max_loop_sorted (rest : list (Q * href)) :
  forall cur,
    StronglySorted (fun a b : Q * href => fst a <= fst b) (cur :: rest) ->
    (exists x y, In x (cur :: rest) /\ In y (cur :: rest) /\
                 fst x == fst y /\ fst (snd x) <> fst (snd y)) ->
    min_loop tuple_gt cur rest = Raise (unorderable ">").
Proof.
  induction rest as [|item rest IH]; intros cur Hs (x & y & Hx & Hy & Heq & Hne).
  - destruct Hx as [<-|[]], Hy as [<-|[]]. congruence.
  - apply StronglySorted_inv in Hs as [Hs1 Hcur].
    pose proof Hs1 as Hs1'. apply StronglySorted_inv in Hs1' as [Hs2 Hitem].
    rewrite Forall_forall in Hcur, Hitem.
    assert (Hci : fst cur <= fst item) by (apply Hcur; left).
    simpl. unfold tuple_gt at 1.
    destruct (Qeq_bool (fst item) (fst cur)) eqn:E.
    + destruct (Nat.eqb (fst (snd item)) (fst (snd cur))) eqn:N; [|reflexivity].
      apply Nat.eqb_eq in N. apply Qeq_bool_iff in E. simpl.
      apply IH.
      * constructor; [exact Hs2|]. apply Forall_forall. intros z Hz.
        apply Hcur. right. exact Hz.
      * (* the pair, with [item] replaced by [cur] *)
        assert (Hrep : forall z, In z (cur :: item :: rest) ->
                  exists z', In z' (cur :: rest) /\ fst z' == fst z
                             /\ fst (snd z') = fst (snd z)).
        { intros z [<-|[<-|Hz]].
          - exists cur. split; [left; reflexivity|]. split; reflexivity.
          - exists cur. split; [left; reflexivity|]. split; [symmetry; exact E|auto].
          - exists z. split; [right; exact Hz|]. split; reflexivity. }
        destruct (Hrep x Hx) as (x' & Hx' & Ex & Ox).
        destruct (Hrep y Hy) as (y' & Hy' & Ey & Oy).
        exists x', y'. split; [exact Hx'|]. split; [exact Hy'|].
        split; [rewrite Ex, Ey; exact Heq|congruence].
    + assert (Hlt : fst cur < fst item).
      { apply Qle_lteq in Hci as [Hlt|He]; [exact Hlt|].
        symmetry in He. apply Qeq_bool_iff in He. congruence. }
      unfold Qgtb. rewrite (proj2 (Qltb_lt _ _) Hlt). simpl.
      apply IH; [exact Hs1|].
      assert (Hin : forall z, In z (cur :: item :: rest) -> z = cur \/ In z (item :: rest)).
      { intros z [<-|Hz]; auto. }
      assert (Hge : forall z, In z (item :: rest) -> fst cur < fst z).
      { intros z [<-|Hz]; [exact Hlt|].
        eapply Qlt_le_trans; [exact Hlt|]. apply Hitem, list_elem_of_In, Hz. }
      destruct (Hin x Hx) as [->|Hx'], (Hin y Hy) as [->|Hy'].
      * congruence.
      * pose proof (Hge y Hy'). lra.
      * pose proof (Hge x Hx'). lra.
      * exists x, y. auto.
Qed.

Lemma existsb_map_list {A B} (f : B -> bool) (g : A -> B) (xs : list A) :
  existsb f (map g xs) = existsb (fun x => f (g x)) xs.
Proof.
  induction xs as [|x xs IH]; simpl; [reflexivity|]. rewrite IH. reflexivity.
Qed.

Lemma sorted_in {A} (key : A -> Q) (reverse : bool) (xs : list A) (x : A) :
  In x (sorted key reverse xs) <-> In x xs.
Proof.
  split; intros H.
  - exact (Permutation_in _ (sorted_perm key reverse xs) H).
  - exact (Permutation_in _ (Permutation_sym (sorted_perm key reverse xs)) H).
Qed.

(** X24: the choice among overlapping headers, exactly.  For a line that
    overlaps at least one header, [find_table] takes a header that overlaps
    the line and starts first among those that do, unless two different
    header objects that overlap the line share that first start: then
    [min] compares the two [TextLine] objects and the call raises
    [TypeError].  A tie further right does no harm. *)
Theorem select_header_leftmost_exact (hs : list href) (l : TextLine)
  (c0 c1 : attr) (bias : string) :
  getattr l c0 <= getattr l c1 ->
  (exists hd, In hd hs /\ header_overlaps c0 c1 l hd) ->
  ((exists hd1 hd2,
       leftmost_overlapping hs c0 c1 l hd1 /\
       In hd2 hs /\ header_overlaps c0 c1 l hd2 /\
       getattr (snd hd1) c0 == getattr (snd hd2) c0 /\ fst hd1 <> fst hd2) ->
   select_header (sorted (fun hd : href => getattr (snd hd) c0) false hs)
     l c0 c1 bias = Raise (unorderable "<"))
  /\
  ((forall hd1 hd2,
       leftmost_overlapping hs c0 c1 l hd1 ->
       In hd2 hs -> header_overlaps c0 c1 l hd2 ->
       getattr (snd hd1) c0 == getattr (snd hd2) c0 -> fst hd1 = fst hd2) ->
   exists hd,
     select_header (sorted (fun hd : href => getattr (snd hd) c0) false hs)
       l c0 c1 bias = Ok hd /\
     leftmost_overlapping hs c0 c1 l hd).
Proof.
  intros Hl (hd0 & Hin0 & Ho0).
  set (hs' := sorted (fun hd : href => getattr (snd hd) c0) false hs).
  pose proof (possible_of_sorted c0 c1 l hs) as Hsorted. fold hs' in Hsorted.
  assert (Hposs : forall hd, In hd hs -> header_overlaps c0 c1 l hd ->
                             exists v, In (v, hd) (possible_of c0 c1 l hs')).
  { intros hd Hin Ho. apply overlaps_possible_of; [|exact Ho].
    apply (sorted_in (fun hd : href => getattr (snd hd) c0) false hs), Hin. }
  assert (Hback : forall oh, In oh (possible_of c0 c1 l hs') ->
                             In (snd oh) hs /\ header_overlaps c0 c1 l (snd oh)).
  { intros oh Hoh. destruct (possible_of_overlaps _ _ _ _ _ Hoh) as [Hin Ho].
    split; [|exact Ho].
    apply (sorted_in (fun hd : href => getattr (snd hd) c0) false hs), Hin. }
  rewrite (select_header_cases hs' l c0 c1 bias Hl).
  destruct (possible_of c0 c1 l hs') as [|oh1 rest] eqn:Hp.
  { destruct (Hposs hd0 Hin0 Ho0) as [v []]. }
  apply StronglySorted_inv in Hsorted as [_ Hfirst].
  rewrite Forall_forall in Hfirst.
  assert (Hleft : leftmost_overlapping hs c0 c1 l (snd oh1)).
  { destruct (Hback oh1 (or_introl eq_refl)) as [Hin Ho].
    split; [exact Hin|]. split; [exact Ho|].
    intros hd' Hin' Ho'. destruct (Hposs hd' Hin' Ho') as [v [->|Hv]].
    - apply Qle_refl.
    - apply (Hfirst (v, hd')), list_elem_of_In, Hv. }
  assert (Hloop : rest <> [] ->
            py_min tuple_lt (leftmost_candidates c0 (oh1 :: rest))
            = if existsb
                   (fun oh : Q * href =>
                      Qeq_bool (getattr (snd (snd oh)) c0) (getattr (snd (snd oh1)) c0)
                      && negb (Nat.eqb (fst (snd oh)) (fst (snd oh1)))) rest
              then Raise (unorderable "<")
              else Ok (getattr (snd (snd oh1)) c0, snd oh1)).
  { intros _. unfold py_min. cbn [leftmost_candidates map].
    rewrite min_loop_first.
    - rewrite existsb_map_list. reflexivity.
    - apply Forall_forall. intros item Hitem.
      apply list_elem_of_In, in_map_iff in Hitem as (oh & <- & Hoh). simpl.
      apply Hfirst, list_elem_of_In, Hoh. }
  split.
  - intros (hd1 & hd2 & (Hin1 & Ho1 & Hmin1) & Hin2 & Ho2 & Heq & Hne).
    destruct Hleft as (HinL & HoL & HminL).
    assert (E1 : getattr (snd hd1) c0 == getattr (snd (snd oh1)) c0).
    { apply Qle_antisym; [apply Hmin1|apply HminL]; assumption. }
    assert (Hx : exists hdx,
               In hdx hs /\ header_overlaps c0 c1 l hdx /\
               getattr (snd hdx) c0 == getattr (snd (snd oh1)) c0 /\
               fst hdx <> fst (snd oh1)).
    { destruct (Nat.eq_dec (fst hd1) (fst (snd oh1))) as [E|E].
      - exists hd2. split; [exact Hin2|]. split; [exact Ho2|].
        split; [rewrite <- Heq; exact E1|congruence].
      - exists hd1. auto. }
    destruct Hx as (hdx & Hinx & Hox & Eqx & Nex).
    destruct (Hposs hdx Hinx Hox) as [v [->|Hv]]; [simpl in Nex; congruence|].
    destruct oh1 as [q1 h1]. destruct rest as [|p2 ps]; [destruct Hv|].
    rewrite Hloop by discriminate.
    replace (existsb _ (p2 :: ps)) with true; [reflexivity|].
    symmetry. apply existsb_exists. exists (v, hdx). split; [exact Hv|].
    simpl. apply andb_true_iff. split; [apply Qeq_bool_iff, Eqx|].
    apply negb_true_iff, Nat.eqb_neq, Nex.
  - intros Hnotie. exists (snd oh1). split; [|exact Hleft].
    destruct oh1 as [q1 h1]. destruct rest as [|p2 ps]; [reflexivity|].
    rewrite Hloop by discriminate.
    replace (existsb _ (p2 :: ps)) with false; [reflexivity|].
    symmetry. apply not_true_is_false. intros He.
    apply existsb_exists in He as (oh & Hoh & Ht).
    apply andb_true_iff in Ht as [Hq Hn].
    apply Qeq_bool_iff in Hq. apply negb_true_iff, Nat.eqb_neq in Hn.
    destruct (Hback oh (or_intror Hoh)) as [Hin Ho].
    apply Hn. symmetry.
    apply (Hnotie h1 (snd oh) Hleft Hin Ho). symmetry. exact Hq.
Qed.

Lemma select_header_leftmost_exact_witness :
  ((exists hd1 hd2,
       leftmost_overlapping
         [(0%nat, text_line "A" 0 0 10 0); (1%nat, text_line "B" 0 0 20 0)]
         X0 X1 (text_line "x" 2 (-5) 8 (-5)) hd1 /\
       In hd2 [(0%nat, text_line "A" 0 0 10 0); (1%nat, text_line "B" 0 0 20 0)] /\
       header_overlaps X0 X1 (text_line "x" 2 (-5) 8 (-5)) hd2 /\
       getattr (snd hd1) X0 == getattr (snd hd2) X0 /\ fst hd1 <> fst hd2) ->
   select_header
     (sorted (fun hd : href => getattr (snd hd) X0) false
        [(0%nat, text_line "A" 0 0 10 0); (1%nat, text_line "B" 0 0 20 0)])
     (text_line "x" 2 (-5) 8 (-5)) X0 X1 "centered" = Raise (unorderable "<"))
  /\
  ((forall hd1 hd2,
       leftmost_overlapping
         [(0%nat, text_line "A" 0 0 10 0); (1%nat, text_line "B" 0 0 20 0)]
         X0 X1 (text_line "x" 2 (-5) 8 (-5)) hd1 ->
       In hd2 [(0%nat, text_line "A" 0 0 10 0); (1%nat, text_line "B" 0 0 20 0)] ->
       header_overlaps X0 X1 (text_line "x" 2 (-5) 8 (-5)) hd2 ->
       getattr (snd hd1) X0 == getattr (snd hd2) X0 -> fst hd1 = fst hd2) ->
   exists hd,
     select_header
       (sorted (fun hd : href => getattr (snd hd) X0) false
          [(0%nat, text_line "A" 0 0 10 0); (1%nat, text_line "B" 0 0 20 0)])
       (text_line "x" 2 (-5) 8 (-5)) X0 X1 "centered" = Ok hd /\
     leftmost_overlapping
       [(0%nat, text_line "A" 0 0 10 0); (1%nat, text_line "B" 0 0 20 0)]
       X0 X1 (text_line "x" 2 (-5) 8 (-5)) hd).
Proof.
  apply (select_header_leftmost_exact
           [(0%nat, text_line "A" 0 0 10 0); (1%nat, text_line "B" 0 0 20 0)]
           (text_line "x" 2 (-5) 8 (-5)) X0 X1 "centered").
  - simpl. lra.
  - exists (0%nat, text_line "A" 0 0 10 0). split; [left; reflexivity|].
    unfold header_overlaps. simpl. reflexivity.
Defined.

(** X25: the bias "min", exactly.  For a line that overlaps no header,
    [find_table] with the bias "min" raises [TypeError] as soon as two
    different header objects that start at or before the line start at the
    same place, also when the last start is not shared; without such a pair
    it raises [ValueError] when no header starts at or before the line, and
    otherwise takes a header that starts last among those that do. *)
Theorem select_header_min_exact (hs : list href) (l : TextLine) (c0 c1 : attr) :
  getattr l c0 <= getattr l c1 ->
  (forall hd, In hd hs -> ~ header_overlaps c0 c1 l hd) ->
  ((exists hd1 hd2,
       In hd1 hs /\ In hd2 hs /\ getattr (snd hd1) c0 <= getattr l c0 /\
       getattr (snd hd1) c0 == getattr (snd hd2) c0 /\ fst hd1 <> fst hd2) ->
   select_header (sorted (fun hd : href => getattr (snd hd) c0) false hs)
     l c0 c1 "min" = Raise (unorderable ">"))
  /\
  ((forall hd1 hd2,
       In hd1 hs -> In hd2 hs -> getattr (snd hd1) c0 <= getattr l c0 ->
       getattr (snd hd1) c0 == getattr (snd hd2) c0 -> fst hd1 = fst hd2) ->
   ((forall hd, In hd hs -> getattr l c0 < getattr (snd hd) c0) ->
    select_header (sorted (fun hd : href => getattr (snd hd) c0) false hs)
      l c0 c1 "min" = Raise (ValueError "max() arg is an empty sequence"))
   /\
   ((exists hd, In hd hs /\ getattr (snd hd) c0 <= getattr l c0) ->
    exists hd,
      select_header (sorted (fun hd : href => getattr (snd hd) c0) false hs)
        l c0 c1 "min" = Ok hd /\
      last_before hs c0 l hd)).
Proof.
  intros Hl Hno.
  set (hs' := sorted (fun hd : href => getattr (snd hd) c0) false hs).
  assert (Hin' : forall x, In x hs' <-> In x hs)
    by (intros x; apply (sorted_in (fun hd : href => getattr (snd hd) c0) false hs)).
  assert (Hp : possible_of c0 c1 l hs' = []).
  { destruct (possible_of c0 c1 l hs') as [|oh rest] eqn:E; [reflexivity|].
    assert (H : In oh (possible_of c0 c1 l hs')) by (rewrite E; left; reflexivity).
    apply possible_of_overlaps in H as [Hin Ho].
    destruct (Hno _ (proj1 (Hin' _) Hin) Ho). }
  assert (Hcand : forall hd, In hd hs -> getattr (snd hd) c0 <= getattr l c0 ->
                             In (getattr (snd hd) c0, hd) (left_candidates c0 l hs')).
  { intros hd Hin Hle. unfold left_candidates. apply in_map_iff. exists hd.
    split; [reflexivity|]. apply filter_In.
    split; [apply Hin', Hin|apply Qle_bool_iff, Hle]. }
  assert (Hback : forall x, In x (left_candidates c0 l hs') ->
                            fst x = getattr (snd (snd x)) c0 /\ In (snd x) hs
                            /\ fst x <= getattr l c0).
  { intros x Hx. unfold left_candidates in Hx.
    apply in_map_iff in Hx as (hd & <- & Hhd). apply filter_In in Hhd as [Hhd Hq].
    simpl. split; [reflexivity|]. split; [apply Hin', Hhd|apply Qle_bool_iff, Hq]. }
  split.
  - intros (hd1 & hd2 & Hin1 & Hin2 & Hle1 & Heq & Hne).
    rewrite (select_header_cases hs' l c0 c1 "min" Hl), Hp. simpl String.eqb.
    cbv iota.
    pose proof (left_candidates_sorted c0 l hs) as Hs. fold hs' in Hs.
    pose proof (Hcand hd1 Hin1 Hle1) as H1.
    assert (Hle2 : getattr (snd hd2) c0 <= getattr l c0) by (rewrite <- Heq; exact Hle1).
    pose proof (Hcand hd2 Hin2 Hle2) as H2.
    destruct (left_candidates c0 l hs') as [|c cs]; [destruct H1|].
    unfold py_max.
    rewrite (max_loop_sorted cs c Hs); [reflexivity|].
    exists (getattr (snd hd1) c0, hd1), (getattr (snd hd2) c0, hd2). auto.
  - intros Hnotie.
    assert (Hnt : no_tie (left_candidates c0 l hs')).
    { assert (Hgen : forall cs,
                (forall x, In x cs -> In x (left_candidates c0 l hs')) -> no_tie cs).
      { induction cs as [|x cs IH]; intros Hsub; simpl; [exact I|].
        split; [|apply IH; intros z Hz; apply Hsub; right; exact Hz].
        apply Forall_forall. intros y Hy. apply list_elem_of_In in Hy.
        destruct (Qeq_bool (fst y) (fst x)) eqn:E; [|left; reflexivity].
        right. apply Qeq_bool_iff in E.
        destruct (Hback x (Hsub x (or_introl eq_refl))) as (Ex & Hinx & Hlex).
        destruct (Hback y (Hsub y (or_intror Hy))) as (Ey & Hiny & Hley).
        apply (Hnotie (snd y) (snd x) Hiny Hinx).
        - rewrite <- Ey. exact Hley.
        - rewrite <- Ey, <- Ex. exact E. }
      apply Hgen. auto. }
    pose proof (select_header_min hs' l c0 c1 Hl Hp Hnt) as Hsel.
    split.
    + intros Hnone.
      destruct (left_candidates c0 l hs') as [|c cs] eqn:Hc; [exact Hsel|].
      destruct (Hback c (or_introl eq_refl)) as (Ec & Hinc & Hlec).
      pose proof (Hnone _ Hinc). rewrite Ec in Hlec. lra.
    + intros (hd & Hin & Hle).
      pose proof (Hcand hd Hin Hle) as Hc.
      destruct (left_candidates c0 l hs') as [|c cs]; [destruct Hc|].
      destruct Hsel as (m & Hm & Hinm & Hlem & Hmax).
      exists m. split; [exact Hm|]. split; [apply Hin', Hinm|].
      split; [exact Hlem|].
      intros hd' Hin2 Hle2. apply Hmax; [apply Hin', Hin2|exact Hle2].
Qed.

Lemma select_header_min_exact_witness :
  ((exists hd1 hd2,
       In hd1 [(0%nat, text_line "A" 0 0 1 0); (1%nat, text_line "B" 0 0 2 0);
               (2%nat, text_line "C" 3 0 4 0)] /\
       In hd2 [(0%nat, text_line "A" 0 0 1 0); (1%nat, text_line "B" 0 0 2 0);
               (2%nat, text_line "C" 3 0 4 0)] /\
       getattr (snd hd1) X0 <= getattr (text_line "x" 5 (-5) 6 (-5)) X0 /\
       getattr (snd hd1) X0 == getattr (snd hd2) X0 /\ fst hd1 <> fst hd2) ->
   select_header
     (sorted (fun hd : href => getattr (snd hd) X0) false
        [(0%nat, text_line "A" 0 0 1 0); (1%nat, text_line "B" 0 0 2 0);
         (2%nat, text_line "C" 3 0 4 0)])
     (text_line "x" 5 (-5) 6 (-5)) X0 X1 "min" = Raise (unorderable ">"))
  /\
  ((forall hd1 hd2,
       In hd1 [(0%nat, text_line "A" 0 0 1 0); (1%nat, text_line "B" 0 0 2 0);
               (2%nat, text_line "C" 3 0 4 0)] ->
       In hd2 [(0%nat, text_line "A" 0 0 1 0); (1%nat, text_line "B" 0 0 2 0);
               (2%nat, text_line "C" 3 0 4 0)] ->
       getattr (snd hd1) X0 <= getattr (text_line "x" 5 (-5) 6 (-5)) X0 ->
       getattr (snd hd1) X0 == getattr (snd hd2) X0 -> fst hd1 = fst hd2) ->
   ((forall hd,
        In hd [(0%nat, text_line "A" 0 0 1 0); (1%nat, text_line "B" 0 0 2 0);
               (2%nat, text_line "C" 3 0 4 0)] ->
        getattr (text_line "x" 5 (-5) 6 (-5)) X0 < getattr (snd hd) X0) ->
    select_header
      (sorted (fun hd : href => getattr (snd hd) X0) false
         [(0%nat, text_line "A" 0 0 1 0); (1%nat, text_line "B" 0 0 2 0);
          (2%nat, text_line "C" 3 0 4 0)])
      (text_line "x" 5 (-5) 6 (-5)) X0 X1 "min"
    = Raise (ValueError "max() arg is an empty sequence"))
   /\
   ((exists hd,
        In hd [(0%nat, text_line "A" 0 0 1 0); (1%nat, text_line "B" 0 0 2 0);
               (2%nat, text_line "C" 3 0 4 0)] /\
        getattr (snd hd) X0 <= getattr (text_line "x" 5 (-5) 6 (-5)) X0) ->
    exists hd,
      select_header
        (sorted (fun hd : href => getattr (snd hd) X0) false
           [(0%nat, text_line "A" 0 0 1 0); (1%nat, text_line "B" 0 0 2 0);
            (2%nat, text_line "C" 3 0 4 0)])
        (text_line "x" 5 (-5) 6 (-5)) X0 X1 "min" = Ok hd /\
      last_before
        [(0%nat, text_line "A" 0 0 1 0); (1%nat, text_line "B" 0 0 2 0);
         (2%nat, text_line "C" 3 0 4 0)]
        X0 (text_line "x" 5 (-5) 6 (-5)) hd)).
Proof.
  apply (select_header_min_exact
           [(0%nat, text_line "A" 0 0 1 0); (1%nat, text_line "B" 0 0 2 0);
            (2%nat, text_line "C" 3 0 4 0)]
           (text_line "x" 5 (-5) 6 (-5)) X0 X1).
  - simpl. lra.
  - intros hd [<-|[<-|[<-|[]]]]; unfold header_overlaps; simpl; intros H;
      discriminate H.
Defined.




(** ** The pages of a document *)

Lemma pages_visited_from {page} (rest : list page) :
  forall (p : page) (ls : option (list new_line)) (i fuel : nat),
    (length rest < fuel)%nat ->
    pages_visited fuel (mk_PageIterator rest p ls i false) = p :: rest.
Proof.
  induction rest as [|q rest IH]; intros p ls i fuel Hf.
  - destruct fuel as [|[|fuel]]; simpl in *; try lia; reflexivity.
  - destruct fuel as [|fuel]; [simpl in Hf; lia|].
    simpl. unfold advance. simpl. rewrite IH by (simpl in Hf; lia). reflexivity.
Qed.

Lemma last_cons_default {A} (l : list A) :
  forall a d, List.last (a :: l) d = List.last l a.
Proof.
  induction l as [|b l IH]; intros a d; [reflexivity|].
  change (List.last (a :: b :: l) d) with (List.last (b :: l) d).
  rewrite (IH b d), (IH b a). reflexivity.
Qed.

Lemma advances_from {page} (k : nat) :
  forall (rest : list page) (p : page) (ls : option (list new_line)) (i : nat),
    (0 < k)%nat ->
    advances k (mk_PageIterator rest p ls i false)
    = mk_PageIterator (skipn k rest) (List.last (firstn k rest) p) None (i + k)
        (length rest <? k)%nat.
Proof.
  induction k as [|k IH]; intros rest p ls i Hk; [lia|].
  destruct k as [|k].
  - simpl. unfold advance. simpl. destruct rest as [|q rest]; simpl.
    + reflexivity.
    + reflexivity.
  - change (advances (S (S k)) (mk_PageIterator rest p ls i false))
      with (advances (S k) (advance (mk_PageIterator rest p ls i false))).
    unfold advance. simpl _page_iterator. destruct rest as [|q rest].
    + simpl _page. simpl i_page. simpl is_at_end.
      clear IH. remember (i + 1)%nat as j eqn:Hj.
      assert (Hend : forall m j',
                advances m (mk_PageIterator (@nil page) p None j' true)
                = mk_PageIterator [] p None (j' + m) true).
      { induction m as [|m IHm]; intros j'; simpl.
        - rewrite Nat.add_0_r. reflexivity.
        - unfold advance. simpl. rewrite IHm. f_equal. lia. }
      change (advances (S k) (mk_PageIterator [] p None j true))
        with (advances k (advance (mk_PageIterator [] p None j true))).
      unfold advance. simpl. rewrite Hend. simpl. f_equal. lia.
    + simpl _page. simpl i_page. simpl is_at_end.
      rewrite IH by lia.
      change (firstn (S (S k)) (q :: rest)) with (q :: firstn (S k) rest).
      rewrite last_cons_default.
      change (skipn (S (S k)) (q :: rest)) with (skipn (S k) rest).
      change (length (q :: rest) <? S (S k))%nat with (length rest <? S k)%nat.
      f_equal. lia.
Qed.

(** ** [PageIterator] and the loop over the pages *)

(** X27: the loop of the demo sees every page once.  For a document with
    at least one page, the body of [while not page_it.is_at_end] runs at the
    pages of the document, in their order and each once, and then the loop
    ends.  After [k] calls of [advance] the counter [i_page] is [1 + k]; the
    iterator is at its end after as many calls as there are pages, and it
    then still holds the last page, whose lines [lines] would give again. *)
Theorem PageIterator_visits {page} (p : page) (rest : list page) (fuel k : nat) :
  (length (p :: rest) <= fuel)%nat ->
  exists it,
    PageIterator_init (p :: rest) = Some it /\
    pages_visited fuel it = p :: rest /\
    i_page (advances k it) = (1 + k)%nat /\
    is_at_end (advances k it) = (length (p :: rest) <=? k)%nat /\
    _lines (advances k it) = None /\
    ((length (p :: rest) <= k)%nat ->
     _page (advances k it) = List.last rest p).
Proof.
  intros Hf. eexists. split; [reflexivity|].
  split; [apply pages_visited_from; simpl in Hf; lia|].
  destruct k as [|k].
  - simpl. repeat split. lia.
  - rewrite advances_from by lia. simpl.
    split; [reflexivity|]. split; [reflexivity|]. split; [reflexivity|].
    intros Hn. rewrite firstn_all2 by lia. reflexivity.
Qed.

Lemma PageIterator_visits_witness :
  exists it,
    PageIterator_init [sample_page; LTRectOrLine] = Some it /\
    pages_visited 5 it = [sample_page; LTRectOrLine] /\
    i_page (advances 2 it) = (1 + 2)%nat /\
    is_at_end (advances 2 it) = (length [sample_page; LTRectOrLine] <=? 2)%nat /\
    _lines (advances 2 it) = None /\
    ((length [sample_page; LTRectOrLine] <= 2)%nat ->
     _page (advances 2 it) = List.last [LTRectOrLine] sample_page).
Proof.
  apply (PageIterator_visits sample_page [LTRectOrLine] 5 2). simpl. lia.
Defined.

(** X28: [lines] gathers the text of a page once.  After a call that
    returned, a second call gives the same list without going through the
    page again, so without any warning, and leaves the iterator as it is; a
    call that raised has stored nothing, and [advance] forgets the list. *)
Theorem PageIterator_lines_cached {page} (blank : string -> bool)
  (layout : page -> item) (it : PageIterator page) :
  match PageIterator_lines blank layout it with
  | (inl ls, _, it') =>
      PageIterator_lines blank layout it' = (inl ls, [], it') /\
      _page it' = _page it /\ i_page it' = i_page it /\
      (_lines it = None ->
       fst (gather_text blank (layout (_page it)) no_lines) = None /\
       ls = g_lines (snd (gather_text blank (layout (_page it)) no_lines)))
  | (inr e, _, it') =>
      it' = it /\ _lines it = None /\
      fst (gather_text blank (layout (_page it)) no_lines) = Some e
  end /\
  _lines (advance it) = None.
Proof.
  split; [|unfold advance; destruct (_page_iterator it); reflexivity].
  unfold PageIterator_lines.
  destruct (_lines it) as [ls|] eqn:Hl.
  - cbv beta iota. rewrite Hl. split; [reflexivity|]. split; [reflexivity|].
    split; [reflexivity|discriminate].
  - destruct (gather_text blank (layout (_page it)) no_lines) as [[e|] st].
    + simpl. auto.
    + simpl. auto.
Qed.
